(** * Request-governance layer of the company-info scraper API

    A shallow embedding of the rate limiter, the retry helper, the cursor
    paginator, the response compressor and the request validator, with the
    properties of the specification stated against them.

    Conventions of the embedding.
    - Python [float] values (token counts, timestamps, delays) are exact
      rationals [Q]. The statements about the rate limiter rely on
      additions of zero, decrements by one, comparisons and the
      monotonicity of the operations, which IEEE doubles share; a power
      that leaves the range of the doubles raises, as it does in Python.
    - Python [int] is [Z].
    - A [dict] keyed by strings is a [gmap string _].
    - A raised exception is the [Raise] branch of [result]. *)

From Stdlib Require Import ZArith QArith Qminmax Qpower Qabs Lqa Lia List Bool Ascii String Sorted.
From stdpp Require Import base option gmap strings.

Local Open Scope Z_scope.

(** ** Exceptions and fallible results *)

Inductive exn : Type :=
  | PaginationError
  | TypeError
  | OtherError.

Inductive result (A : Type) : Type :=
  | Ok (a : A)
  | Raise (e : exn).
Arguments Ok {A} a.
Arguments Raise {A} e.

Definition rbind {A B} (r : result A) (k : A -> result B) : result B :=
  match r with
  | Ok a => k a
  | Raise e => Raise e
  end.

(** * Token-bucket rate limiter ([api/middleware/rate_limit.py]) *)

Module RateLimit.

(** The part of a request the limiter looks at. *)
Record Request := mkRequest {
  client_host : string;
  url_path : string
}.

(** [RateLimiter]: [tokens] maps a key to [(tokens, last_update)]. *)
Record RateLimiter := mkRateLimiter {
  rate : Q;
  burst_limit : Z;
  key_func : Request -> string;
  tokens : gmap string (Q * Q)
}.

(** [RateLimiter.__init__]; [key_func] defaults to the client host. *)
Definition init (requests_per_minute burst : Z)
    (kf : option (Request -> string)) : RateLimiter :=
  {| rate := (inject_Z requests_per_minute / 60)%Q;
     burst_limit := burst;
     key_func := default client_host kf;
     tokens := ∅ |}.

(** [_get_tokens]; [now] is the value read from [time.time()]. *)
Definition _get_tokens (self : RateLimiter) (key : string) (now : Q) : Q * Q :=
  match tokens self !! key with
  | None => (inject_Z (burst_limit self), now)
  | Some (toks, last_update) =>
      let time_passed := (now - last_update)%Q in
      let new_tokens :=
        Qmin (inject_Z (burst_limit self)) (toks + time_passed * rate self)%Q in
      (new_tokens, now)
  end.

(** [_update_tokens] *)
Definition _update_tokens (self : RateLimiter) (key : string)
    (toks last_update : Q) : RateLimiter :=
  {| rate := rate self;
     burst_limit := burst_limit self;
     key_func := key_func self;
     tokens := <[key := (toks, last_update)]> (tokens self) |}.

(** [is_allowed], run as one critical section: the answer and the limiter
    afterwards. *)
Definition is_allowed (self : RateLimiter) (request : Request) (now : Q)
    : bool * RateLimiter :=
  let key := key_func self request in
  let '(toks, now') := _get_tokens self key now in
  if Qle_bool 1 toks
  then (true, _update_tokens self key (toks - 1)%Q now')
  else (false, self).

(** [get_retry_after] *)
Definition get_retry_after (self : RateLimiter) (request : Request) (now : Q) : Q :=
  let key := key_func self request in
  let '(toks, _) := _get_tokens self key now in
  if Qle_bool 1 toks then 0%Q else ((1 - toks) / rate self)%Q.

(** A sequence of [is_allowed] calls, each with the clock value it reads. *)
Fixpoint run_calls (self : RateLimiter) (calls : list (Request * Q))
    : list bool * RateLimiter :=
  match calls with
  | [] => ([], self)
  | (request, now) :: rest =>
      let '(ok, self1) := is_allowed self request now in
      let '(oks, self2) := run_calls self1 rest in
      (ok :: oks, self2)
  end.

Definition admissions (answers : list bool) : nat :=
  length (filter (fun b => b = true) answers).

(** ** Interleaved execution of [is_allowed]

    Each call is a task that advances in the steps the coroutine is written
    in; a scheduler picks which task moves next.  The task may be suspended
    at [async with self._lock], at the two [await]s inside the block and
    when it leaves the block. *)

Inductive pc : Type :=
  | Start                      (* before [async with self._lock] *)
  | Locked                     (* lock held, before [_get_tokens] *)
  | Got (toks now : Q)         (* [tokens, now] bound *)
  | Leaving (answer : bool)    (* value to return chosen, lock still held *)
  | Done (answer : bool).      (* lock released, value returned *)

Record World := mkWorld {
  limiter : RateLimiter;
  lock_held : bool;            (* state of [self._lock] *)
  tasks : list (Request * pc)
}.

(** One step of the task running [is_allowed(request)]; [None] when the task
    cannot move (the lock is taken, or the call has returned). *)
Definition task_step (self : RateLimiter) (held : bool) (clock : Q)
    (request : Request) (p : pc) : option (RateLimiter * bool * pc) :=
  let key := key_func self request in
  match p with
  | Start => if held then None else Some (self, true, Locked)
  | Locked =>
      let '(toks, now) := _get_tokens self key clock in
      Some (self, held, Got toks now)
  | Got toks now =>
      if Qle_bool 1 toks
      then Some (_update_tokens self key (toks - 1)%Q now, held, Leaving true)
      else Some (self, held, Leaving false)
  | Leaving answer => Some (self, false, Done answer)
  | Done _ => None
  end.

(** The scheduler lets task [i] take one step while the clock shows [clock]. *)
Definition fire (w : World) (i : nat) (clock : Q) : option World :=
  match tasks w !! i with
  | None => None
  | Some (request, p) =>
      match task_step (limiter w) (lock_held w) clock request p with
      | None => None
      | Some (self', held', p') =>
          Some (mkWorld self' held' (<[i := (request, p')]> (tasks w)))
      end
  end.

Fixpoint run_schedule (w : World) (sched : list (nat * Q)) : option World :=
  match sched with
  | [] => Some w
  | (i, clock) :: rest =>
      match fire w i clock with
      | None => None
      | Some w' => run_schedule w' rest
      end
  end.

(** All calls are about to start and nobody holds the lock. *)
Definition spawn (self : RateLimiter) (requests : list Request) : World :=
  mkWorld self false (map (fun r => (r, Start)) requests).

(** The task is between taking and releasing the lock. *)
Definition holds (p : pc) : Prop :=
  match p with Locked | Got _ _ | Leaving _ => True | _ => False end.

(** The task has decided to answer [True]. *)
Definition admitted (p : pc) : Prop :=
  match p with Leaving true | Done true => True | _ => False end.

Definition returned (w : World) (i : nat) (answer : bool) : Prop :=
  exists request, tasks w !! i = Some (request, Done answer).

End RateLimit.

(** * Retry with exponential backoff ([api/utils/retry.py]) *)

Module Retry.

(** What one invocation of the wrapped coroutine does. *)
Inductive outcome (A E : Type) : Type :=
  | Returns (a : A)
  | Fails (e : E).
Arguments Returns {A E} a.
Arguments Fails {A E} e.

(** How a retried call ends. *)
Inductive ending (A E : Type) : Type :=
  | Returned (a : A)
  | Raised (e : E)          (* the operation's own exception, unchanged *)
  | AssertionFailed         (* [assert last_exception is not None] *)
  | RaisedNone              (* [raise last_error] with [last_error = None] *)
  | ArithmeticRaised.       (* the error of [**], raised while the delay is computed *)
Arguments Returned {A E} a.
Arguments Raised {A E} e.
Arguments AssertionFailed {A E}.
Arguments RaisedNone {A E}.
Arguments ArithmeticRaised {A E}.

(** What the caller observes: the ending, the arguments of the successive
    [asyncio.sleep] calls, and how often the operation was invoked. *)
Record trace (A E : Type) := mkTrace {
  final : ending A E;
  sleeps : list Q;
  calls : nat
}.
Arguments mkTrace {A E} final sleeps calls.
Arguments final {A E} t.
Arguments sleeps {A E} t.
Arguments calls {A E} t.

Definition slept {A E} (d : Q) (t : trace A E) : trace A E :=
  mkTrace (final t) (d :: sleeps t) (calls t).

Definition called {A E} (t : trace A E) : trace A E :=
  mkTrace (final t) (sleeps t) (S (calls t)).

Record RetryConfig := mkRetryConfig {
  max_attempts : Z;
  initial_delay : Q;
  max_delay : Q;
  exponential_base : Q;
  jitter : bool
}.

(** The largest finite double, [sys.float_info.max]. *)
Definition float_max : Q := inject_Z ((2 ^ 53 - 1) * 2 ^ 971).

(** [x ** e] for a float [x] and an [int] [e]. Python raises where the
    result leaves the range of the doubles ([OverflowError]) and for zero to
    a negative power ([ZeroDivisionError]): [None] stands for both. Inside
    the range the value is taken exactly. *)
Definition float_pow (x : Q) (e : Z) : option Q :=
  if (e <? 0) && Qeq_bool x 0 then None
  else
    let p := (x ^ e)%Q in
    if Qle_bool (Qabs p) float_max then Some p else None.

(** The capped exponential delay both variants compute before jitter:
    [min(initial_delay * exponential_base ** e, max_delay)]. *)
Definition backoff (config : RetryConfig) (e : Z) : option Q :=
  match float_pow (exponential_base config) e with
  | Some p => Some (Qmin (initial_delay config * p)%Q (max_delay config))
  | None => None
  end.

(** The power the delay needs can be computed. *)
Definition power_in_range (config : RetryConfig) (e : Z) : Prop :=
  float_pow (exponential_base config) e <> None.

Section Operation.
Context {A E : Type}.
(** [func k] is what the [k]-th invocation (from 0) of the operation does;
    [retryable_exn e] is the [isinstance] test on a raised exception;
    [rand k] is the [k]-th value returned by [random.random()]. *)
Variable func : nat -> outcome A E.
Variable retryable_exn : E -> bool.
Variable rand : nat -> Q.

(** ** [src/api/utils/retry.py] *)

(** [random.uniform(a, b)] is [a + (b - a) * random()]. *)
Definition uniform (a b r : Q) : Q := (a + (b - a) * r)%Q.

(** [calculate_delay(attempt, config)]; [r] is the value drawn from
    [random.random()] when jitter is on. *)
Definition calculate_delay (attempt : Z) (config : RetryConfig) (r : Q) : option Q :=
  match backoff config (attempt - 1) with
  | None => None
  | Some delay =>
      if jitter config
      then
        let jit := uniform (- (1 # 4)) (1 # 4) r in
        Some (delay * (1 + jit))%Q
      else Some delay
  end.

(** The loop of [retry_async] over [attempt in range(attempt, max_attempts + 1)],
    [todo] iterations being left. *)
Fixpoint retry_async_loop (config : RetryConfig) (todo : nat) (attempt : Z)
    (last_error : option E) : trace A E :=
  match todo with
  | O =>
      match last_error with
      | Some e => mkTrace (Raised e) [] 0
      | None => mkTrace RaisedNone [] 0
      end
  | S todo' =>
      called
        match func (Z.to_nat (attempt - 1)) with
        | Returns a => mkTrace (Returned a) [] 0
        | Fails e =>
            if negb (retryable_exn e) then mkTrace (Raised e) [] 0
            else if attempt =? max_attempts config then mkTrace (Raised e) [] 0
            else
              match calculate_delay attempt config (rand (Z.to_nat (attempt - 1))) with
              | None => mkTrace ArithmeticRaised [] 0
              | Some delay =>
                  slept delay (retry_async_loop config todo' (attempt + 1) (Some e))
              end
        end
  end.

Definition retry_async (config : RetryConfig) : trace A E :=
  retry_async_loop config (Z.to_nat (max_attempts config)) 1 None.

(** ** [src/about-us-scraper-service/api/utils/retry.py] *)

(** The body of [for attempt in range(max_attempts)] in the wrapper built by
    [retryable(...)]. *)
Fixpoint retryable_loop (config : RetryConfig) (todo : nat) (attempt : Z)
    (last_exception : option E) : trace A E :=
  match todo with
  | O =>
      match last_exception with
      | Some e => mkTrace (Raised e) [] 0
      | None => mkTrace AssertionFailed [] 0
      end
  | S todo' =>
      called
        match func (Z.to_nat attempt) with
        | Returns a => mkTrace (Returned a) [] 0
        | Fails e =>
            if negb (retryable_exn e) then mkTrace (Raised e) [] 0
            else if attempt =? max_attempts config - 1 then mkTrace (Raised e) [] 0
            else
              match backoff config attempt with
              | None => mkTrace ArithmeticRaised [] 0
              | Some delay =>
                  let delay :=
                    if jitter config
                    then (delay * ((1 # 2) + rand (Z.to_nat attempt)))%Q
                    else delay in
                  slept delay (retryable_loop config todo' (attempt + 1) (Some e))
              end
        end
  end.

Definition retryable (config : RetryConfig) : trace A E :=
  retryable_loop config (Z.to_nat (max_attempts config)) 0 None.

End Operation.

End Retry.

(** * Text codecs the cursor goes through

    A Python [str] is held as a [string] of its UTF-8 bytes, a [bytes] object
    as a [string] of its bytes.  The library functions below are written out
    so that cursors can be evaluated; they follow CPython 3.11. *)

Module Base64.

Local Open Scope N_scope.

(** The alphabet of RFC 4648, section 4. *)
Definition b64char (i : N) : ascii :=
  ascii_of_N
    (if i <? 26 then 65 + i
     else if i <? 52 then 71 + i
     else if i <? 62 then i - 4
     else if i =? 62 then 43 else 47).

Definition b64val (c : ascii) : option N :=
  let n := N_of_ascii c in
  if (65 <=? n) && (n <=? 90) then Some (n - 65)
  else if (97 <=? n) && (n <=? 122) then Some (n - 71)
  else if (48 <=? n) && (n <=? 57) then Some (n + 4)
  else if n =? 43 then Some 62
  else if n =? 47 then Some 63
  else None.

Definition pad : ascii := "="%char.

(** [base64.b64encode]: three bytes become four characters, the last group
    is padded with ['=']. *)
Fixpoint b64encode (s : string) : string :=
  match s with
  | EmptyString => EmptyString
  | String a EmptyString =>
      let x := N_of_ascii a in
      String (b64char (N.shiftr x 2))
        (String (b64char (N.shiftl (N.land x 3) 4))
           (String pad (String pad EmptyString)))
  | String a (String b EmptyString) =>
      let x := N_of_ascii a in
      let y := N_of_ascii b in
      String (b64char (N.shiftr x 2))
        (String (b64char (N.lor (N.shiftl (N.land x 3) 4) (N.shiftr y 4)))
           (String (b64char (N.shiftl (N.land y 15) 2))
              (String pad EmptyString)))
  | String a (String b (String c rest)) =>
      let x := N_of_ascii a in
      let y := N_of_ascii b in
      let z := N_of_ascii c in
      String (b64char (N.shiftr x 2))
        (String (b64char (N.lor (N.shiftl (N.land x 3) 4) (N.shiftr y 4)))
           (String (b64char (N.lor (N.shiftl (N.land y 15) 2) (N.shiftr z 6)))
              (String (b64char (N.land z 63)) (b64encode rest))))
  end.

(** [binascii.a2b_base64] with [strict_mode] off: characters outside the
    alphabet are skipped, a padding character that completes a quad ends the
    input, and leftover sextets are an error. *)
Fixpoint a2b_base64 (s : string) (quad_pos : nat) (leftchar : N) (pads : nat)
    : option string :=
  match s with
  | EmptyString => if Nat.eqb quad_pos 0 then Some EmptyString else None
  | String this_ch rest =>
      if Ascii.eqb this_ch pad then
        if Nat.leb 2 quad_pos then
          if Nat.leb 4 (quad_pos + S pads) then Some EmptyString
          else a2b_base64 rest quad_pos leftchar (S pads)
        else a2b_base64 rest quad_pos leftchar pads
      else
        match b64val this_ch with
        | None => a2b_base64 rest quad_pos leftchar pads
        | Some v =>
            match quad_pos with
            | 0%nat => a2b_base64 rest 1 v 0
            | 1%nat =>
                option_map
                  (String (ascii_of_N (N.lor (N.shiftl leftchar 2) (N.shiftr v 4))))
                  (a2b_base64 rest 2 (N.land v 15) 0)
            | 2%nat =>
                option_map
                  (String (ascii_of_N (N.lor (N.shiftl leftchar 4) (N.shiftr v 2))))
                  (a2b_base64 rest 3 (N.land v 3) 0)
            | _ =>
                option_map
                  (String (ascii_of_N (N.lor (N.shiftl leftchar 6) v)))
                  (a2b_base64 rest 0 0 0)
            end
        end
  end.

(** [str.encode('ascii')] succeeds on 7-bit text only. *)
Fixpoint is_ascii (s : string) : bool :=
  match s with
  | EmptyString => true
  | String c rest => (N_of_ascii c <? 128) && is_ascii rest
  end.

(** [base64.b64decode(s)] for a [str] argument, [validate] left off. *)
Definition b64decode (s : string) : option string :=
  if is_ascii s then a2b_base64 s 0 0 0 else None.

End Base64.

Module Utf8.

Local Open Scope N_scope.

Definition cont (c : ascii) : bool :=
  let n := N_of_ascii c in (128 <=? n) && (n <=? 191).

Definition between (lo hi : N) (c : ascii) : bool :=
  let n := N_of_ascii c in (lo <=? n) && (n <=? hi).

(** Well-formed UTF-8 (Unicode, table 3-7): what [bytes.decode()] accepts. *)
Fixpoint utf8_valid (s : string) : bool :=
  match s with
  | EmptyString => true
  | String c1 r1 =>
      let n1 := N_of_ascii c1 in
      if n1 <? 128 then utf8_valid r1
      else
        match r1 with
        | EmptyString => false
        | String c2 r2 =>
            if between 194 223 c1 then cont c2 && utf8_valid r2
            else
              match r2 with
              | EmptyString => false
              | String c3 r3 =>
                  if between 224 239 c1 then
                    (if n1 =? 224 then between 160 191 c2
                     else if n1 =? 237 then between 128 159 c2
                     else cont c2)
                    && cont c3 && utf8_valid r3
                  else
                    match r3 with
                    | EmptyString => false
                    | String c4 r4 =>
                        between 240 244 c1
                        && (if n1 =? 240 then between 144 191 c2
                            else if n1 =? 244 then between 128 143 c2
                            else cont c2)
                        && cont c3 && cont c4 && utf8_valid r4
                    end
              end
        end
  end.

(** [bytes.decode()]: the text keeps the same bytes. *)
Definition decode (b : string) : option string :=
  if utf8_valid b then Some b else None.

(** The bytes of one code point; a lone surrogate is written in the same
    three-byte pattern. *)
Definition encode_cp (cp : N) : string :=
  if cp <? 128 then String (ascii_of_N cp) EmptyString
  else if cp <? 2048 then
    String (ascii_of_N (192 + N.shiftr cp 6))
      (String (ascii_of_N (128 + N.land cp 63)) EmptyString)
  else if cp <? 65536 then
    String (ascii_of_N (224 + N.shiftr cp 12))
      (String (ascii_of_N (128 + N.land (N.shiftr cp 6) 63))
         (String (ascii_of_N (128 + N.land cp 63)) EmptyString))
  else
    String (ascii_of_N (240 + N.shiftr cp 18))
      (String (ascii_of_N (128 + N.land (N.shiftr cp 12) 63))
         (String (ascii_of_N (128 + N.land (N.shiftr cp 6) 63))
            (String (ascii_of_N (128 + N.land cp 63)) EmptyString))).

(** The code points of a text, read leniently (for [ord] and [len]). *)
Fixpoint code_points (s : string) : list N :=
  match s with
  | EmptyString => []
  | String c1 r1 =>
      let n1 := N_of_ascii c1 in
      if n1 <? 192 then n1 :: code_points r1
      else
        match r1 with
        | EmptyString => [n1]
        | String c2 r2 =>
            let n2 := N.land (N_of_ascii c2) 63 in
            if n1 <? 224 then (N.shiftl (N.land n1 31) 6 + n2) :: code_points r2
            else
              match r2 with
              | EmptyString => [n1]
              | String c3 r3 =>
                  let n3 := N.land (N_of_ascii c3) 63 in
                  if n1 <? 240
                  then (N.shiftl (N.land n1 15) 12 + N.shiftl n2 6 + n3) :: code_points r3
                  else
                    match r3 with
                    | EmptyString => [n1]
                    | String c4 r4 =>
                        let n4 := N.land (N_of_ascii c4) 63 in
                        (N.shiftl (N.land n1 7) 18 + N.shiftl n2 12 + N.shiftl n3 6 + n4)
                          :: code_points r4
                    end
              end
        end
  end.

(** [len(s)] of a [str]: its number of code points. *)
Definition py_len (s : string) : Z := Z.of_nat (List.length (code_points s)).

End Utf8.

(** * JSON ([json.loads], [json.dumps]) *)

Module Json.

(** Python values a JSON document decodes to.  A [float] keeps the text it
    was read from; a [dict] keeps its keys in insertion order, each once. *)
#[warnings="-register-all"]
Inductive json : Type :=
  | JNull
  | JBool (b : bool)
  | JInt (z : Z)
  | JFloat (text : string)
  | JStr (s : string)
  | JArr (items : list json)
  | JObj (fields : list (string * json)).

(** [d.get(key)] *)
Fixpoint dict_get (fields : list (string * json)) (key : string) : option json :=
  match fields with
  | [] => None
  | (k, v) :: rest => if String.eqb k key then Some v else dict_get rest key
  end.

(** [d[key] = v] *)
Fixpoint dict_set (fields : list (string * json)) (key : string) (v : json)
    : list (string * json) :=
  match fields with
  | [] => [(key, v)]
  | (k, v0) :: rest =>
      if String.eqb k key then (k, v) :: rest else (k, v0) :: dict_set rest key v
  end.

(** [dict(pairs)] *)
Definition dict_of_pairs (pairs : list (string * json)) : list (string * json) :=
  fold_left (fun d kv => dict_set d (fst kv) (snd kv)) pairs [].

Definition dq : ascii := "034"%char.         (* the double quote *)
Definition backslash : ascii := "092"%char.

Definition is_ws (c : ascii) : bool :=
  let n := N_of_ascii c in
  ((n =? 32) || (n =? 9) || (n =? 10) || (n =? 13))%N.

Definition is_digit (c : ascii) : bool :=
  let n := N_of_ascii c in ((48 <=? n) && (n <=? 57))%N.

Definition digit_val (c : ascii) : N := (N_of_ascii c - 48)%N.

Definition digit_char (d : N) : ascii := ascii_of_N (48 + d).

Definition hex_val (c : ascii) : option N :=
  let n := N_of_ascii c in
  (if (48 <=? n) && (n <=? 57) then Some (n - 48)
   else if (97 <=? n) && (n <=? 102) then Some (n - 87)
   else if (65 <=? n) && (n <=? 70) then Some (n - 55)
   else None)%N.

Definition hex4 (a b c d : ascii) : option N :=
  match hex_val a, hex_val b, hex_val c, hex_val d with
  | Some x, Some y, Some z, Some w => Some (4096 * x + 256 * y + 16 * z + w)%N
  | _, _, _, _ => None
  end.

Fixpoint skip_ws (s : string) : string :=
  match s with
  | String c rest => if is_ws c then skip_ws rest else s
  | EmptyString => s
  end.

(** ** Integers in decimal *)

Fixpoint dec_aux (fuel : nat) (n : N) (acc : string) : string :=
  match fuel with
  | O => acc
  | S fuel' =>
      let acc' := String (digit_char (n mod 10)) acc in
      if (n / 10 =? 0)%N then acc' else dec_aux fuel' (n / 10) acc'
  end.

Definition decimal (n : N) : string :=
  dec_aux (S (N.to_nat (N.log2 n))) n EmptyString.

(** [str(z)] for an [int] *)
Definition str_of_int (z : Z) : string :=
  match z with
  | Zneg p => String "-" (decimal (Npos p))
  | _ => decimal (Z.to_N z)
  end.

(** The longest prefix of digits, and what follows it. *)
Fixpoint take_digits (s : string) : string * string :=
  match s with
  | String c rest =>
      if is_digit c
      then let '(ds, r) := take_digits rest in (String c ds, r)
      else (EmptyString, s)
  | EmptyString => (EmptyString, s)
  end.

Fixpoint digits_value (s : string) (acc : N) : N :=
  match s with
  | String c rest => digits_value rest (acc * 10 + digit_val c)
  | EmptyString => acc
  end.

(** ** Scanning *)

Definition simple_escape (esc : ascii) : option ascii :=
  let n := N_of_ascii esc in
  (if n =? 34 then Some dq
   else if n =? 92 then Some backslash
   else if n =? 47 then Some "/"%char
   else if n =? 98 then Some "008"%char
   else if n =? 102 then Some "012"%char
   else if n =? 110 then Some "010"%char
   else if n =? 114 then Some "013"%char
   else if n =? 116 then Some "009"%char
   else None)%N.

Definition is_high_surrogate (u : N) : bool := ((55296 <=? u) && (u <=? 56319))%N.
Definition is_low_surrogate (u : N) : bool := ((56320 <=? u) && (u <=? 57343))%N.
Definition join_surrogates (hi lo : N) : N :=
  (65536 + N.lor (N.shiftl (hi - 55296) 10) (lo - 56320))%N.

Definition emit (chunk : string) (r : option (string * string))
    : option (string * string) :=
  match r with
  | Some (text, rest) => Some (chunk ++ text, rest)%string
  | None => None
  end.

(** [scanstring] in strict mode, from just after the opening quote: the text
    and what follows the closing quote. *)
Fixpoint scanstring (s : string) : option (string * string) :=
  match s with
  | EmptyString => None
  | String c rest =>
      if Ascii.eqb c dq then Some (EmptyString, rest)
      else if Ascii.eqb c backslash then
        match rest with
        | EmptyString => None
        | String esc rest1 =>
            if Ascii.eqb esc "u" then
              match rest1 with
              | String h1 (String h2 (String h3 (String h4 rest2))) =>
                  match hex4 h1 h2 h3 h4 with
                  | None => None
                  | Some uni =>
                      let lone := emit (Utf8.encode_cp uni) (scanstring rest2) in
                      if is_high_surrogate uni then
                        match rest2 with
                        | String b (String u (String g1 (String g2 (String g3
                            (String g4 rest3))))) =>
                            if Ascii.eqb b backslash && Ascii.eqb u "u" then
                              match hex4 g1 g2 g3 g4 with
                              | None => None
                              | Some uni2 =>
                                  if is_low_surrogate uni2
                                  then emit (Utf8.encode_cp (join_surrogates uni uni2))
                                            (scanstring rest3)
                                  else lone
                              end
                            else lone
                        | _ => lone
                        end
                      else lone
                  end
              | _ => None
              end
            else
              match simple_escape esc with
              | Some ch => emit (String ch EmptyString) (scanstring rest1)
              | None => None
              end
        end
      else if (N_of_ascii c <? 32)%N then None
      else emit (String c EmptyString) (scanstring rest)
  end.

Definition starts_with (prefix s : string) : option string :=
  if String.prefix prefix s
  then Some (substring (String.length prefix) (String.length s - String.length prefix) s)
  else None.

(** The optional fraction [.digits] of a number. *)
Definition match_frac (s : string) : string * string :=
  match s with
  | String c rest =>
      if Ascii.eqb c "." then
        let '(ds, r) := take_digits rest in
        match ds with
        | EmptyString => (EmptyString, s)
        | _ => (String c ds, r)
        end
      else (EmptyString, s)
  | EmptyString => (EmptyString, s)
  end.

(** The optional exponent [e], [E] with sign and digits. *)
Definition match_exp (s : string) : string * string :=
  match s with
  | String c rest =>
      if Ascii.eqb c "e" || Ascii.eqb c "E" then
        let '(sign, rest1) :=
          match rest with
          | String sg r =>
              if Ascii.eqb sg "+" || Ascii.eqb sg "-"
              then (String sg EmptyString, r) else (EmptyString, rest)
          | EmptyString => (EmptyString, rest)
          end in
        let '(ds, r) := take_digits rest1 in
        match ds with
        | EmptyString => (EmptyString, s)
        | _ => (String c (sign ++ ds), r)
        end
      else (EmptyString, s)
  | EmptyString => (EmptyString, s)
  end.

(** [_match_number]: an optional minus sign, then a single zero or digits not
    starting with zero, then an optional fraction and an optional exponent. *)
Definition match_number (s : string) : option (json * string) :=
  let '(neg, s1) :=
    match s with
    | String c rest => if Ascii.eqb c "-" then (true, rest) else (false, s)
    | EmptyString => (false, s)
    end in
  match s1 with
  | String c rest =>
      if is_digit c then
        let '(int_digits, s2) :=
          if Ascii.eqb c "0" then (String c EmptyString, rest) else take_digits s1 in
        let '(frac, s3) := match_frac s2 in
        let '(expo, s4) := match_exp s3 in
        match frac, expo with
        | EmptyString, EmptyString =>
            let n := Z.of_N (digits_value int_digits 0) in
            Some (JInt (if neg then - n else n), s4)
        | _, _ =>
            Some (JFloat ((if neg then "-" else "") ++ int_digits ++ frac ++ expo), s4)
        end
      else None
  | EmptyString => None
  end.

(** The named constants [scan_once] tries before a number. *)
Definition match_constant (s : string) : option (json * string) :=
  match starts_with "null" s with
  | Some r => Some (JNull, r)
  | None =>
  match starts_with "true" s with
  | Some r => Some (JBool true, r)
  | None =>
  match starts_with "false" s with
  | Some r => Some (JBool false, r)
  | None =>
  match starts_with "NaN" s with
  | Some r => Some (JFloat "NaN", r)
  | None =>
  match starts_with "Infinity" s with
  | Some r => Some (JFloat "Infinity", r)
  | None =>
  match starts_with "-Infinity" s with
  | Some r => Some (JFloat "-Infinity", r)
  | None => None
  end end end end end end.

(** The loop of [JSONObject], from just after the opening quote of a key;
    [scan] is [scan_once] for the values. *)
Fixpoint object_members (scan : string -> option (json * string)) (fuel : nat)
    (pairs : list (string * json)) (s : string) : option (json * string) :=
  match fuel with
  | O => None
  | S fuel' =>
      match scanstring s with
      | None => None
      | Some (key, s1) =>
          match skip_ws s1 with
          | String colon s2 =>
              if Ascii.eqb colon ":" then
                match scan (skip_ws s2) with
                | None => None
                | Some (value, s3) =>
                    let pairs' := pairs ++ [(key, value)] in
                    match skip_ws s3 with
                    | String sep s4 =>
                        if Ascii.eqb sep "}"
                        then Some (JObj (dict_of_pairs pairs'), s4)
                        else if Ascii.eqb sep "," then
                          match skip_ws s4 with
                          | String q s5 =>
                              if Ascii.eqb q dq
                              then object_members scan fuel' pairs' s5
                              else None
                          | EmptyString => None
                          end
                        else None
                    | EmptyString => None
                    end
                end
              else None
          | EmptyString => None
          end
      end
  end.

(** The loop of [JSONArray], from the first character of a value. *)
Fixpoint array_elements (scan : string -> option (json * string)) (fuel : nat)
    (values : list json) (s : string) : option (json * string) :=
  match fuel with
  | O => None
  | S fuel' =>
      match scan s with
      | None => None
      | Some (value, s1) =>
          let values' := values ++ [value] in
          match skip_ws s1 with
          | String sep s2 =>
              if Ascii.eqb sep "]" then Some (JArr values', s2)
              else if Ascii.eqb sep ","
              then array_elements scan fuel' values' (skip_ws s2)
              else None
          | EmptyString => None
          end
      end
  end.

(** [scan_once].  [fuel] bounds the depth of nesting and the number of
    members of one container; [json_loads] gives more than any input can
    use. *)
Fixpoint scan_once (fuel : nat) (s : string) : option (json * string) :=
  match fuel with
  | O => None
  | S fuel' =>
      match s with
      | EmptyString => None
      | String c rest =>
          if Ascii.eqb c dq then
            match scanstring rest with
            | Some (text, r) => Some (JStr text, r)
            | None => None
            end
          else if Ascii.eqb c "{" then
            match skip_ws rest with
            | String c1 r1 =>
                if Ascii.eqb c1 "}" then Some (JObj [], r1)
                else if Ascii.eqb c1 dq
                then object_members (scan_once fuel') fuel' [] r1
                else None
            | EmptyString => None
            end
          else if Ascii.eqb c "[" then
            match skip_ws rest with
            | String c1 r1 =>
                if Ascii.eqb c1 "]" then Some (JArr [], r1)
                else array_elements (scan_once fuel') fuel' [] (String c1 r1)
            | EmptyString => None
            end
          else
            match match_constant s with
            | Some r => Some r
            | None => match_number s
            end
      end
  end.

(** [json.loads(s)]: one value between optional white space, nothing after. *)
Definition json_loads (s : string) : option json :=
  match scan_once (S (String.length s)) (skip_ws s) with
  | Some (value, rest) =>
      match skip_ws rest with
      | EmptyString => Some value
      | String _ _ => None
      end
  | None => None
  end.

(** ** Serialising *)

Definition hex_digit (d : N) : ascii :=
  ascii_of_N (if d <? 10 then 48 + d else 87 + d)%N.

(** [\uXXXX] with four lower-case hexadecimal digits. *)
Definition u_escape (u : N) : string :=
  String backslash (String "u"
    (String (hex_digit (N.land (N.shiftr u 12) 15))
       (String (hex_digit (N.land (N.shiftr u 8) 15))
          (String (hex_digit (N.land (N.shiftr u 4) 15))
             (String (hex_digit (N.land u 15)) EmptyString))))).

(** The replacement [encode_basestring_ascii] makes for one code point. *)
Definition escape_cp (cp : N) : string :=
  (if cp =? 34 then String backslash (String dq EmptyString)
   else if cp =? 92 then String backslash (String backslash EmptyString)
   else if cp =? 10 then String backslash "n"
   else if cp =? 13 then String backslash "r"
   else if cp =? 9 then String backslash "t"
   else if cp =? 12 then String backslash "f"
   else if cp =? 8 then String backslash "b"
   else if (32 <=? cp) && (cp <=? 126) then String (ascii_of_N cp) EmptyString
   else if cp <? 65536 then u_escape cp
   else
     let v := cp - 65536 in
     u_escape (N.lor 55296 (N.land (N.shiftr v 10) 1023)) ++
     u_escape (N.lor 56320 (N.land v 1023)))%N%string.

(** [encode_basestring_ascii]: the quoted, escaped text. *)
Definition encode_basestring_ascii (s : string) : string :=
  String dq (String.concat EmptyString (map escape_cp (Utf8.code_points s)) ++ String dq EmptyString).

(** [json.dumps(v)] with the default separators and [ensure_ascii]. *)
Fixpoint json_dumps (v : json) : string :=
  match v with
  | JNull => "null"
  | JBool true => "true"
  | JBool false => "false"
  | JInt z => str_of_int z
  | JFloat text => text
  | JStr s => encode_basestring_ascii s
  | JArr items =>
      "[" ++
      (fix join (l : list json) : string :=
         match l with
         | [] => EmptyString
         | x :: rest =>
             match rest with
             | [] => json_dumps x
             | _ :: _ => json_dumps x ++ ", " ++ join rest
             end
         end) items ++ "]"
  | JObj fields =>
      "{" ++
      (fix join (l : list (string * json)) : string :=
         match l with
         | [] => EmptyString
         | (k, x) :: rest =>
             match rest with
             | [] => encode_basestring_ascii k ++ ": " ++ json_dumps x
             | _ :: _ => encode_basestring_ascii k ++ ": " ++ json_dumps x ++ ", " ++ join rest
             end
         end) fields ++ "}"
  end%string.

End Json.

(** * Cursor pagination

    [slice] is Python's [items[start:stop]]. *)

Definition slice {T : Type} (items : list T) (start stop : Z) : list T :=
  let n := Z.of_nat (List.length items) in
  let clamp (i : Z) := if i <? 0 then Z.max 0 (i + n) else Z.min i n in
  let lo := clamp start in
  let hi := clamp stop in
  firstn (Z.to_nat (hi - lo)) (skipn (Z.to_nat lo) items).

(** [if cursor:] for an [Optional[str]]. *)
Definition truthy (cursor : option string) : option string :=
  match cursor with
  | Some EmptyString => None
  | other => other
  end.

(** The integer a value stands for where the code adds to it and slices with
    it: [int] and [bool] do, everything else raises [TypeError]. *)
Definition as_index (v : Json.json) : option Z :=
  match v with
  | Json.JInt z => Some z
  | Json.JBool b => Some (if b then 1 else 0)
  | _ => None
  end.

(** [json.loads(base64.b64decode(cursor).decode())], [None] when one of the
    three steps raises. *)
Definition cursor_payload (cursor : string) : option Json.json :=
  match Base64.b64decode cursor with
  | None => None
  | Some bytes =>
      match Utf8.decode bytes with
      | None => None
      | Some text => Json.json_loads text
      end
  end.

(** [base64.b64encode(json.dumps(data).encode()).decode()] *)
Definition encode_cursor (data : Json.json) : string :=
  Base64.b64encode (Json.json_dumps data).

Definition offset_state (offset : Z) : Json.json :=
  Json.JObj [("offset"%string, Json.JInt offset)].

(** [points_at cursor o]: the cursor argument makes both paginators start at
    the integer offset [o]: it is absent or empty and [o] is 0, or it decodes
    to an object whose [offset] entry (0 when missing) counts as [o]. *)
Definition points_at (cursor : option string) (o : Z) : Prop :=
  (truthy cursor = None /\ o = 0) \/
  (exists c fields,
     truthy cursor = Some c /\
     cursor_payload c = Some (Json.JObj fields) /\
     as_index (default (Json.JInt 0) (Json.dict_get fields "offset")) = Some o).

(** ** [src/about-us-scraper-service/api/utils/pagination.py] *)

Module Paginator.

Record PaginationResult (T : Type) := mkPaginationResult {
  items : list T;
  has_more : bool;
  next_cursor : option string
}.
Arguments mkPaginationResult {T} items has_more next_cursor.
Arguments items {T} p.
Arguments has_more {T} p.
Arguments next_cursor {T} p.

(** [decode_cursor]: every exception becomes [PaginationError]. *)
Definition decode_cursor (cursor : string) : result Json.json :=
  match cursor_payload cursor with
  | Some data => Ok data
  | None => Raise PaginationError
  end.

(** [cursor_data.get("offset", 0)] inside the [try] of [paginate]: a value
    without [get] raises [AttributeError], turned into [PaginationError]. *)
Definition get_offset (cursor_data : Json.json) : result Json.json :=
  match cursor_data with
  | Json.JObj fields => Ok (default (Json.JInt 0) (Json.dict_get fields "offset"))
  | _ => Raise PaginationError
  end.

(** [Paginator(items_per_page).paginate(items, cursor)] *)
Definition paginate {T : Type} (items_per_page : Z) (items : list T)
    (cursor : option string) : result (PaginationResult T) :=
  rbind
    match truthy cursor with
    | Some c => rbind (decode_cursor c) get_offset
    | None => Ok (Json.JInt 0)
    end
    (fun offset =>
       match as_index offset with
       | None => Raise TypeError
       | Some start =>
           let stop := start + items_per_page in
           let page_items := slice items start stop in
           let more := stop <? Z.of_nat (List.length items) in
           let next :=
             if more then Some (encode_cursor (offset_state stop)) else None in
           Ok (mkPaginationResult page_items more next)
       end).

(** [paginate_items(items, limit, cursor)] *)
Definition paginate_items {T : Type} (items : list T) (limit : Z)
    (cursor : option string) : result (PaginationResult T) :=
  paginate limit items cursor.

(** A client that follows [next_cursor] until [has_more] is false, making at
    most [fuel] calls: the pages in order, or [None] while pages remain. *)
Fixpoint follow {T : Type} (fuel : nat) (items_per_page : Z) (items : list T)
    (cursor : option string) : result (option (list (list T))) :=
  match fuel with
  | O => Ok None
  | S fuel' =>
      rbind (paginate items_per_page items cursor)
        (fun page =>
           if has_more page
           then rbind (follow fuel' items_per_page items (next_cursor page))
                      (fun pages => Ok (option_map (cons (Paginator.items page)) pages))
           else Ok (Some [Paginator.items page]))
  end.

End Paginator.

(** ** [src/api/utils/pagination.py] *)

Module ApiPagination.

Record PaginationMeta := mkPaginationMeta {
  total_count : Z;
  remaining_count : Z;
  has_more : bool;
  next_cursor : option string;
  previous_cursor : option string
}.

Record PaginatedResult (T : Type) := mkPaginatedResult {
  items : list T;
  limit : Z;
  cursor : option string;
  pagination : PaginationMeta
}.
Arguments mkPaginatedResult {T} items limit cursor pagination.
Arguments items {T} p.
Arguments limit {T} p.
Arguments cursor {T} p.
Arguments pagination {T} p.

(** The [try] block shared by the three functions: the [offset] entry of the
    decoded cursor ([0] when absent), or [None] when anything raises. *)
Definition try_offset (cursor : string) : option Json.json :=
  match cursor_payload cursor with
  | Some (Json.JObj fields) => Some (default (Json.JInt 0) (Json.dict_get fields "offset"))
  | _ => None
  end.

(** [start_index] as [paginate_items] and [_calculate_pagination] compute it. *)
Definition start_index_of (cursor : option string) : Json.json :=
  match truthy cursor with
  | Some c => default (Json.JInt 0) (try_offset c)
  | None => Json.JInt 0
  end.

(** [PaginatedResult._calculate_pagination], for a start index that is
    already known to behave as an integer. *)
Definition _calculate_pagination (total limit start_index : Z) : PaginationMeta :=
  let remaining := Z.max 0 (total - (start_index + limit)) in
  let more := 0 <? remaining in
  let next :=
    if more then Some (encode_cursor (offset_state (start_index + limit))) else None in
  let previous :=
    if 0 <? start_index
    then Some (encode_cursor (offset_state (Z.max 0 (start_index - limit))))
    else None in
  mkPaginationMeta total remaining more next previous.

(** [paginate_items(items, limit, cursor)] *)
Definition paginate_items {T : Type} (items : list T) (limit : Z)
    (cursor : option string) : result (PaginatedResult T) :=
  let total := Z.of_nat (List.length items) in
  match as_index (start_index_of cursor) with
  | None => Raise TypeError
  | Some start_index =>
      let paginated_items := slice items start_index (start_index + limit) in
      Ok (mkPaginatedResult paginated_items limit cursor
            (_calculate_pagination total limit start_index))
  end.

(** [decode_cursor(cursor)]: [(offset, is_valid)], never an exception. *)
Definition decode_cursor (cursor : option string) : Json.json * bool :=
  match truthy cursor with
  | None => (Json.JInt 0, true)
  | Some c =>
      match try_offset c with
      | Some offset => (offset, true)
      | None => (Json.JInt 0, false)
      end
  end.

Fixpoint follow {T : Type} (fuel : nat) (limit : Z) (items : list T)
    (cursor : option string) : result (option (list (list T))) :=
  match fuel with
  | O => Ok None
  | S fuel' =>
      rbind (paginate_items items limit cursor)
        (fun page =>
           if has_more (pagination page)
           then rbind (follow fuel' limit items (next_cursor (pagination page)))
                      (fun pages => Ok (option_map (cons (ApiPagination.items page)) pages))
           else Ok (Some [ApiPagination.items page]))
  end.

End ApiPagination.

(** * Response compression ([api/middleware/compression.py])

    The compression libraries are taken as given: each function returns
    [None] where the library raises. *)

Module Compression.

Record Codecs := mkCodecs {
  brotli_compress : string -> Z -> option string;   (* content, quality *)
  brotli_decompress : string -> option string;
  gzip_compress : string -> Z -> option string;     (* content, compresslevel *)
  gzip_decompress : string -> option string;
  zlib_compress : string -> Z -> option string;     (* content, level *)
  zlib_decompress : string -> option string
}.

(** The library call made for an encoding name, and its inverse. *)
Definition lib_compress (lib : Codecs) (compression_level : Z) (encoding content : string)
    : option string :=
  if String.eqb encoding "br"
  then brotli_compress lib content (Z.min 11 compression_level)
  else if String.eqb encoding "gzip" then gzip_compress lib content compression_level
  else if String.eqb encoding "deflate" then zlib_compress lib content compression_level
  else None.

Definition lib_decompress (lib : Codecs) (encoding compressed : string) : option string :=
  if String.eqb encoding "br" then brotli_decompress lib compressed
  else if String.eqb encoding "gzip" then gzip_decompress lib compressed
  else if String.eqb encoding "deflate" then zlib_decompress lib compressed
  else None.

Definition supported (encoding : string) : bool :=
  String.eqb encoding "br" || String.eqb encoding "gzip" || String.eqb encoding "deflate".

(** The verification step written after each compression: decompress, compare
    with the original, hand the compressed bytes out only when equal. *)
Definition verified (decompressed : option string) (content compressed : string)
    : option string :=
  match decompressed with
  | Some d => if String.eqb d content then Some compressed else None
  | None => None
  end.

(** [CompressionMiddleware.compress_content] of
    [src/about-us-scraper-service/api/middleware/compression.py]. *)
Definition compress_content (lib : Codecs) (compression_level : Z)
    (content encoding : string) : option string :=
  if String.eqb encoding "br" then
    match brotli_compress lib content (Z.min 11 compression_level) with
    | Some compressed => verified (brotli_decompress lib compressed) content compressed
    | None => None
    end
  else if String.eqb encoding "gzip" then
    match gzip_compress lib content compression_level with
    | Some compressed => verified (gzip_decompress lib compressed) content compressed
    | None => None
    end
  else if String.eqb encoding "deflate" then
    match zlib_compress lib content compression_level with
    | Some compressed => verified (zlib_decompress lib compressed) content compressed
    | None => None
    end
  else None.

(** [CompressionMiddleware.compress_content] of
    [src/api/middleware/compression.py]: the library's answer as it comes. *)
Definition compress_content_api (lib : Codecs) (compression_level : Z)
    (content encoding : string) : option string :=
  if String.eqb encoding "br" then brotli_compress lib content compression_level
  else if String.eqb encoding "gzip" then gzip_compress lib content compression_level
  else if String.eqb encoding "deflate" then zlib_compress lib content compression_level
  else None.

(** A stand-in library that stores the content unchanged. *)
Definition stored : Codecs :=
  mkCodecs (fun c _ => Some c) Some (fun c _ => Some c) Some (fun c _ => Some c) Some.

(** A stand-in library whose brotli output does not decompress to the input. *)
Definition garbling : Codecs :=
  mkCodecs (fun c _ => Some (String "x" c)) Some (fun c _ => Some c) Some
           (fun c _ => Some c) Some.

End Compression.

(** * Request validation ([src/api/middleware/validation.py]) *)

Module Validation.

Fixpoint str_find_from (c : ascii) (s : string) (i : nat) : option nat :=
  match s with
  | EmptyString => None
  | String x rest => if Ascii.eqb x c then Some i else str_find_from c rest (S i)
  end.

(** [c in s] for a one-character [c]. *)
Definition contains_char (c : ascii) (s : string) : bool :=
  match str_find_from c s 0 with Some _ => true | None => false end.

Fixpoint string_forallb (p : ascii -> bool) (s : string) : bool :=
  match s with
  | EmptyString => true
  | String c rest => p c && string_forallb p rest
  end.

Definition is_upper (c : ascii) : bool :=
  let n := N_of_ascii c in ((65 <=? n) && (n <=? 90))%N.
Definition is_lower (c : ascii) : bool :=
  let n := N_of_ascii c in ((97 <=? n) && (n <=? 122))%N.
Definition is_alpha (c : ascii) : bool := is_upper c || is_lower c.
Definition is_alnum (c : ascii) : bool := is_alpha c || Json.is_digit c.

Definition lower_char (c : ascii) : ascii :=
  if is_upper c then ascii_of_N (N_of_ascii c + 32) else c.

(** [s.lower()], on the ASCII letters. *)
Fixpoint lower (s : string) : string :=
  match s with
  | EmptyString => EmptyString
  | String c rest => String (lower_char c) (lower rest)
  end.

(** [x in xs] for a list of strings. *)
Definition str_in (x : string) (xs : list string) : bool :=
  existsb (String.eqb x) xs.

(** [sep.join(parts)] *)
Fixpoint join (sep : string) (parts : list string) : string :=
  match parts with
  | [] => EmptyString
  | p :: rest =>
      match rest with
      | [] => p
      | _ :: _ => (p ++ sep ++ join sep rest)%string
      end
  end.

(** ** The part of [urllib.parse.urlparse] that [validate_url] reads *)

Definition scheme_char (c : ascii) : bool :=
  is_alnum c || Ascii.eqb c "+" || Ascii.eqb c "-" || Ascii.eqb c ".".

(** The scheme and what follows its colon; no scheme when the text before the
    first colon is empty, does not start with a letter, or has a character a
    scheme cannot contain. *)
Definition split_scheme (url : string) : string * string :=
  match str_find_from ":" url 0 with
  | Some (S i) =>
      let head := substring 0 (S i) url in
      match head with
      | String c0 _ =>
          if is_alpha c0 && string_forallb scheme_char head
          then (lower head, substring (S (S i)) (String.length url - S (S i)) url)
          else (EmptyString, url)
      | EmptyString => (EmptyString, url)
      end
  | _ => (EmptyString, url)
  end.

Definition netloc_end (c : ascii) : bool :=
  Ascii.eqb c "/" || Ascii.eqb c "?" || Ascii.eqb c "#".

Fixpoint take_netloc (s : string) : string :=
  match s with
  | EmptyString => EmptyString
  | String c rest => if netloc_end c then EmptyString else String c (take_netloc rest)
  end.

Record ParseResult := mkParseResult {
  scheme : string;
  netloc : string
}.

(** [urlparse(url)]: [None] stands for the [ValueError] raised on a host
    with an unmatched square bracket. *)
Definition urlparse (url : string) : option ParseResult :=
  let '(sch, rest) := split_scheme url in
  match rest with
  | String c1 (String c2 after) =>
      if Ascii.eqb c1 "/" && Ascii.eqb c2 "/" then
        let loc := take_netloc after in
        if xorb (contains_char "[" loc) (contains_char "]" loc)
        then None
        else Some (mkParseResult sch loc)
      else Some (mkParseResult sch EmptyString)
  | _ => Some (mkParseResult sch EmptyString)
  end.

(** ** [RequestValidator] *)

Record RequestValidator := mkRequestValidator {
  max_url_length : Z;
  allowed_schemes : list string;
  blocked_domains : list string;
  max_content_length : Z
}.

(** [x or default] for an optional list argument. *)
Definition list_or (xs : option (list string)) (dflt : list string) : list string :=
  match xs with
  | None | Some [] => dflt
  | Some l => l
  end.

(** [RequestValidator.__init__] *)
Definition init (max_url : Z) (schemes domains : option (list string)) (max_content : Z)
    : RequestValidator :=
  mkRequestValidator max_url (list_or schemes ["http"; "https"]%string)
                     (list_or domains []) max_content.

Definition attack_chars : list ascii :=
  ["<"; ">"; Json.dq; "039"; ";"; "("; ")"]%char.

Section Validators.
(** [validators.url], a third-party predicate, taken as given. *)
Variable validators_url : string -> bool.

(** [validate_url]: the error message, or [None] when the URL is accepted. *)
Definition validate_url (self : RequestValidator) (url : string) : option string :=
  if max_url_length self <? Utf8.py_len url then
    Some ("URL length exceeds maximum of " ++ Json.str_of_int (max_url_length self)
          ++ " characters")%string
  else if negb (validators_url url) then Some "Invalid URL format"%string
  else
    match urlparse url with
    | None => Some "URL parsing failed: Invalid IPv6 URL"%string
    | Some parsed =>
        if negb (str_in (scheme parsed) (allowed_schemes self)) then
          Some ("URL scheme must be one of: " ++ join ", " (allowed_schemes self))%string
        else if str_in (lower (netloc parsed)) (blocked_domains self) then
          Some "Access to this domain is blocked"%string
        else if existsb (fun c => contains_char c url) attack_chars then
          Some "URL contains invalid characters"%string
        else None
    end.

End Validators.

(** [re.match(r"^sk-[a-zA-Z0-9]{32,}$", key)]: the prefix, then at least 32
    letters or digits up to the end, or up to a final newline. *)
Definition matches_key_pattern (key : string) : bool :=
  match key with
  | String c1 (String c2 (String c3 body)) =>
      Ascii.eqb c1 "s" && Ascii.eqb c2 "k" && Ascii.eqb c3 "-" &&
      let n := String.length body in
      (string_forallb is_alnum body && Nat.leb 32 n)
      || (Nat.leb 33 n
          && string_forallb is_alnum (substring 0 (n - 1) body)
          && String.eqb (substring (n - 1) 1 body) (String "010" EmptyString))
  | _ => false
  end.

(** [validate_api_key]: [None] also for an absent or empty key. *)
Definition validate_api_key (api_key : option string) : option string :=
  match truthy api_key with
  | None => None
  | Some key =>
      if Utf8.py_len key <? 32 then Some "API key is too short"%string
      else if negb (matches_key_pattern key) then Some "Invalid API key format"%string
      else None
  end.

(** [validate_content_length] *)
Definition validate_content_length (self : RequestValidator) (length : Z) : option string :=
  if max_content_length self <? length then
    Some ("Content length exceeds maximum of " ++ Json.str_of_int (max_content_length self)
          ++ " bytes")%string
  else None.

(** ["c" * n] *)
Fixpoint repeat_char (c : ascii) (n : nat) : string :=
  match n with
  | O => EmptyString
  | S n' => String c (repeat_char c n')
  end.

End Validation.

(** * The rate-limit middleware ([api/middleware/rate_limit.py]) *)

Module RateLimitMiddleware.

Import RateLimit.

(** [int(x)] of a [float]: truncation toward zero. *)
Definition py_int (q : Q) : Z := Z.quot (Qnum q) (Zpos (Qden q)).

(** [get_retry_after] with its exception: dividing by a rate of zero raises
    [ZeroDivisionError]. *)
Definition get_retry_after_checked (self : RateLimiter) (request : Request) (now : Q)
    : result Q :=
  let key := key_func self request in
  let '(toks, _) := _get_tokens self key now in
  if Qle_bool 1 toks then Ok 0%Q
  else if Qeq_bool (rate self) 0 then Raise OtherError
  else Ok ((1 - toks) / rate self)%Q.

(** What [RateLimitMiddleware.__call__] does with a request. *)
Inductive outcome : Type :=
  | PassedThrough
      (* the application is called with the caller's own [send] *)
  | TooManyRequests (retry_after : Q) (retry_after_header : Z)
      (* status 429, [retry_after] in the body, [Retry-After] in the headers *)
  | Forwarded (limit remaining reset : Z)
      (* the application is called; its response gets [X-RateLimit-Limit],
         [X-RateLimit-Remaining] and [X-RateLimit-Reset] *)
  | Crashed (e : exn).

(** [__call__] of the service middleware.  [now] is the clock value read by
    [is_allowed], [later] the one read when the retry delay or the headers
    are computed. *)
Definition call (exclude_paths : list string) (self : RateLimiter)
    (is_http : bool) (request : Request) (now later : Q) : outcome * RateLimiter :=
  if negb is_http then (PassedThrough, self)
  else if existsb (fun path => String.prefix path (url_path request)) exclude_paths
  then (PassedThrough, self)
  else
    let '(ok, self') := is_allowed self request now in
    if negb ok then
      match get_retry_after_checked self' request later with
      | Ok retry_after => (TooManyRequests retry_after (py_int retry_after), self')
      | Raise e => (Crashed e, self')
      end
    else
      let '(toks, _) := _get_tokens self' (key_func self' request) later in
      (Forwarded (burst_limit self') (py_int toks) (py_int (later + 60)), self').

(** Requests served one after the other, all while the clock shows [t]. *)
Fixpoint serve (exclude_paths : list string) (self : RateLimiter)
    (requests : list Request) (t : Q) : list outcome * RateLimiter :=
  match requests with
  | [] => ([], self)
  | request :: rest =>
      let '(o, self1) := call exclude_paths self true request t t in
      let '(os, self2) := serve exclude_paths self1 rest t in
      (o :: os, self2)
  end.

(** The answers a run of [is_allowed] calls gives to the requests of one key. *)
Fixpoint answers_for (self : RateLimiter) (key : string)
    (calls : list (Request * Q)) (answers : list bool) : list bool :=
  match calls, answers with
  | (request, _) :: calls', a :: answers' =>
      if String.eqb (key_func self request) key
      then a :: answers_for self key calls' answers'
      else answers_for self key calls' answers'
  | _, _ => []
  end.

(** The calls in a run that are made for one key. *)
Definition calls_for (self : RateLimiter) (key : string)
    (calls : list (Request * Q)) : list (Request * Q) :=
  List.filter (fun c => String.eqb (key_func self (fst c)) key) calls.

End RateLimitMiddleware.

(** * Choosing the encoding ([CompressionMiddleware.__call__] of the service)

    The part of [send_wrapper] that runs once the whole body is known and
    [should_compress] has agreed: [encodings] is the dictionary
    [get_accepted_encodings] returned, from encoding name to quality.
    Logging and [send] are taken not to raise. *)

Module CompressionMiddleware.
Import Compression.

(** [[(enc, encodings[enc]) for enc in ['br', 'gzip', 'deflate'] if enc in encodings]] *)
Definition candidates (encodings : gmap string Q) : list (string * Q) :=
  omap (fun enc => pair enc <$> encodings !! enc) ["br"; "gzip"; "deflate"]%string.

(** [sorted(..., key=lambda x: x[1], reverse=True)]: descending, and stable,
    so equal qualities keep their order. *)
Fixpoint insert_desc (x : string * Q) (l : list (string * Q)) : list (string * Q) :=
  match l with
  | [] => [x]
  | y :: rest => if Qle_bool (snd y) (snd x) then x :: l else y :: insert_desc x rest
  end.

Definition sorted_desc (l : list (string * Q)) : list (string * Q) :=
  foldr insert_desc [] l.

Definition preferred_encodings (encodings : gmap string Q) : list (string * Q) :=
  sorted_desc (candidates encodings).

(** The [for encoding, _ in preferred_encodings] loop: the first encoding
    whose [compress_content] result is truthy. The compression ratio
    [len(compressed) / content_length] is computed inside the [try], so for
    an empty content the division by zero is caught and the loop moves on. *)
Fixpoint first_usable (lib : Codecs) (compression_level : Z) (content : string)
    (preferred : list (string * Q)) : option (string * string) :=
  match preferred with
  | [] => None
  | (encoding, _) :: rest =>
      match compress_content lib compression_level content encoding with
      | Some (String _ _ as compressed) =>
          if String.eqb content EmptyString then first_usable lib compression_level content rest
          else Some (encoding, compressed)
      | _ => first_usable lib compression_level content rest
      end
  end.

(** What [send_wrapper] does with the last body message: the
    [content-encoding] header it announces, if any, and the body it sends.
    [response_started] says that the start message has gone out already (a
    chunked response, or earlier chunks): no header can be added then, yet
    the loop still sends the compressed body. [should_compress] is the
    answer of [self.should_compress]; when it is false nothing is tried. *)
Definition respond (lib : Codecs) (compression_level : Z)
    (response_started should_compress : bool) (encodings : gmap string Q)
    (content : string) : option string * string :=
  if negb should_compress then (None, content)
  else
    match first_usable lib compression_level content (preferred_encodings encodings) with
    | Some (encoding, compressed) =>
        (if response_started then None else Some encoding, compressed)
    | None => (None, content)
    end.

(** The place of an encoding in the fixed order br, gzip, deflate. *)
Definition preference_rank (encoding : string) : nat :=
  if String.eqb encoding "br" then 0
  else if String.eqb encoding "gzip" then 1
  else if String.eqb encoding "deflate" then 2
  else 3.

(** An encoding that gives the loop nothing to send. *)
Definition unusable (lib : Codecs) (compression_level : Z) (content encoding : string)
    : Prop :=
  compress_content lib compression_level content encoding = None \/
  compress_content lib compression_level content encoding = Some EmptyString.

Definition by_rank (a b : string * Q) : Prop :=
  (preference_rank (fst a) < preference_rank (fst b))%nat.

(** Descending quality, ties in the order br, gzip, deflate. *)
Definition preferred_to (a b : string * Q) : Prop :=
  (snd b <= snd a)%Q /\ ((snd a == snd b)%Q -> by_rank a b).

(** What holds of the encoding the loop settles on and the body it sends:
    the client accepts the encoding, the body is not empty and decompresses
    with it to the content, and every accepted encoding the client prefers
    (a higher quality, or the same quality and an earlier place in br, gzip,
    deflate) gave nothing usable. *)
Definition chosen (lib : Codecs) (compression_level : Z) (encodings : gmap string Q)
    (content encoding body : string) : Prop :=
  exists q,
    supported encoding = true /\ encodings !! encoding = Some q /\
    body <> EmptyString /\ content <> EmptyString /\
    lib_decompress lib encoding body = Some content /\
    forall e' q', supported e' = true -> encodings !! e' = Some q' ->
      (q < q')%Q \/ ((q == q')%Q /\ (preference_rank e' < preference_rank encoding)%nat) ->
      unusable lib compression_level content e'.

End CompressionMiddleware.

(** * The older middleware ([CompressionMiddleware.__call__] of [src/api]) *)

Module ApiCompressionMiddleware.
Import Compression.

(** The [for encoding in ["br", "gzip", "deflate"]] loop. Nothing catches
    the division by zero of the compression ratio here: [OtherError] stands
    for the [ZeroDivisionError]. *)
Fixpoint first_usable (lib : Codecs) (compression_level : Z) (encodings : gmap string Q)
    (content : string) (names : list string) : result (option (string * string)) :=
  match names with
  | [] => Ok None
  | encoding :: rest =>
      match encodings !! encoding with
      | Some _ =>
          match compress_content_api lib compression_level content encoding with
          | Some (String _ _ as compressed) =>
              if String.eqb content EmptyString then Raise OtherError
              else Ok (Some (encoding, compressed))
          | _ => first_usable lib compression_level encodings content rest
          end
      | None => first_usable lib compression_level encodings content rest
      end
  end.

Definition respond (lib : Codecs) (compression_level : Z) (encodings : gmap string Q)
    (content : string) : result (option string * string) :=
  rbind (first_usable lib compression_level encodings content
           ["br"; "gzip"; "deflate"]%string)
    (fun found =>
       match found with
       | Some (encoding, compressed) => Ok (Some encoding, compressed)
       | None => Ok (None, content)
       end).

(** An encoding the older loop passes over. *)
Definition passed_over (lib : Codecs) (level : Z) (encodings : gmap string Q)
    (content encoding : string) : Prop :=
  encodings !! encoding = None \/
  compress_content_api lib level content encoding = None \/
  compress_content_api lib level content encoding = Some EmptyString.

End ApiCompressionMiddleware.

(** * [RequestValidator.sanitize_string] ([src/api/middleware/validation.py])

    The function works on the characters of a [str], so a text is taken
    here as the list of its code points ([Utf8.code_points] of its bytes). *)

Module Sanitize.
Local Open Scope N_scope.

Definition text : Type := list N.

Definition text_of (s : string) : text := map N_of_ascii (list_ascii_of_string s).

(** [s.replace(old, new)] for a one-character [old]. *)
Definition str_replace (old : N) (new : text) (s : text) : text :=
  flat_map (fun c => if c =? old then new else [c]) s.

(** [html.escape(s)], with its default [quote=True]: the five replacements
    in the order the library makes them, the ampersand first. *)
Definition html_escape (s : text) : text :=
  let s := str_replace 38 (text_of "&amp;") s in
  let s := str_replace 60 (text_of "&lt;") s in
  let s := str_replace 62 (text_of "&gt;") s in
  let s := str_replace 34 (text_of "&quot;") s in
  str_replace 39 (text_of "&#x27;") s.

(** [c.isspace()]: the characters [str.split()] splits at. *)
Definition is_space (c : N) : bool :=
  ((9 <=? c) && (c <=? 13)) || ((28 <=? c) && (c <=? 32))
  || (c =? 133) || (c =? 160) || (c =? 5760)
  || ((8192 <=? c) && (c <=? 8202))
  || (c =? 8232) || (c =? 8233) || (c =? 8239) || (c =? 8287) || (c =? 12288).

(** [s.split()]: the maximal runs without whitespace; [word] is the run
    being read. *)
Fixpoint split_aux (word : text) (s : text) : list text :=
  match s with
  | [] => match word with [] => [] | _ :: _ => [word] end
  | c :: rest =>
      if is_space c then
        match word with
        | [] => split_aux [] rest
        | _ :: _ => word :: split_aux [] rest
        end
      else split_aux (word ++ [c]) rest
  end.

Definition split (s : text) : list text := split_aux [] s.

(** [sep.join(parts)] *)
Fixpoint join (sep : text) (parts : list text) : text :=
  match parts with
  | [] => []
  | p :: rest =>
      match rest with
      | [] => p
      | _ :: _ => p ++ sep ++ join sep rest
      end
  end.

(** [" ".join(value.split())] *)
Definition normalize_whitespace (value : text) : text := join [32] (split value).

(** [sanitize_string] *)
Definition sanitize_string (value : text) : text :=
  let value := html_escape value in
  let value := List.filter (fun char => 32 <=? char) value in
  normalize_whitespace value.

(** Free of the characters [<], [>], the double quote and the apostrophe. *)
Definition markup_free (c : N) : Prop := c <> 60 /\ c <> 62 /\ c <> 34 /\ c <> 39.

(** A word as [split] returns them: not empty, without whitespace, its
    characters satisfying [P]. *)
Definition word (P : N -> Prop) (w : text) : Prop :=
  w <> [] /\ Forall (fun c => P c /\ is_space c = false) w.

End Sanitize.

(** * Limits of the interpreter

    CPython refuses to convert an integer of more than 4300 decimal digits
    to or from text, so [json.loads] and [json.dumps] raise [ValueError] on
    it, and it raises [RecursionError] on a document nested deeper than its
    recursion limit. The functions of [Json] have neither limit. Statements
    that would reach them keep to integers of at most 4300 digits and to
    cursors of at most 256 characters, which decode to fewer than 200 bytes. *)



(** A cursor argument of ordinary size. *)
Definition ordinary (cursor : option string) : bool :=
  match cursor with
  | Some c => (String.length c <=? 256)%nat
  | None => true
  end.

(** * Properties of the rate limiter *)

Import RateLimit.

Section SameInstant.
Variable k : string.
Variable t : Q.

(** [avail m self]: at time [t] the bucket of [k] holds [m] tokens. *)
Definition avail (m : Z) (self : RateLimiter) : Prop :=
  (tokens self !! k = None /\ m = burst_limit self) \/
  (exists q, tokens self !! k = Some (q, t) /\ (q == inject_Z m)%Q /\ m <= burst_limit self).

Lemma get_tokens_avail m self :
  avail m self -> exists q, _get_tokens self k t = (q, t) /\ (q == inject_Z m)%Q.
Proof.
  intros [[Hn ->] | (q & Hs & Hq & Hle)]; unfold _get_tokens; rewrite ?Hn, ?Hs.
  - eexists; split; [reflexivity | reflexivity].
  - eexists; split; [reflexivity |].
    assert (Hz : (q + (t - t) * rate self == inject_Z m)%Q) by (rewrite Hq; ring).
    rewrite Hz. apply Q.min_r. rewrite <- Zle_Qle. exact Hle.
Qed.

Lemma is_allowed_avail m self r :
  avail m self -> key_func self r = k ->
  exists self', is_allowed self r t = (1 <=? m, self') /\
    key_func self' = key_func self /\
    avail (if 1 <=? m then m - 1 else m) self'.
Proof.
  intros Hav Hk. destruct (get_tokens_avail m self Hav) as (q & Hg & Hq).
  unfold is_allowed. rewrite Hk, Hg.
  assert (Hb : Qle_bool 1 q = (1 <=? m)).
  { apply eq_true_iff_eq. rewrite Qle_bool_iff, Hq, Z.leb_le.
    change 1%Q with (inject_Z 1). rewrite <- Zle_Qle. reflexivity. }
  rewrite Hb. destruct (1 <=? m) eqn:Hm.
  - eexists; split; [reflexivity | split; [reflexivity |]].
    right. exists (q - 1)%Q. cbn. rewrite lookup_insert_eq. split; [reflexivity |].
    split.
    + rewrite Hq. unfold Zminus. rewrite inject_Z_plus. reflexivity.
    + destruct Hav as [[_ ->] | (_ & _ & _ & Hle)]; lia.
  - eexists; split; [reflexivity | split; [reflexivity | exact Hav]].
Qed.

Lemma run_calls_avail reqs : forall m self,
  avail m self -> Forall (fun r => key_func self r = k) reqs ->
  (run_calls self (map (fun r => (r, t)) reqs)).1 =
    map (fun i => Z.of_nat i <? m) (seq 0 (length reqs)).
Proof.
  induction reqs as [| r reqs IH]; intros m self Hav Hall; [reflexivity |].
  inversion Hall as [| ? ? Hr Hrest]; subst.
  destruct (is_allowed_avail m self r Hav Hr) as (self' & Hia & Hkf & Hav').
  cbn [map run_calls length seq]. rewrite Hia.
  destruct (run_calls self' _) as [oks self2] eqn:Hrun. cbn [fst].
  f_equal.
  - change (Z.of_nat 0) with 0. apply eq_true_iff_eq. rewrite Z.leb_le, Z.ltb_lt. lia.
  - assert (Hall' : Forall (fun r => key_func self' r = k) reqs).
    { rewrite Hkf. exact Hrest. }
    specialize (IH _ _ Hav' Hall'). rewrite Hrun in IH. cbn [fst] in IH.
    rewrite IH, <- seq_shift, map_map. apply map_ext. intros i.
    apply eq_true_iff_eq. rewrite !Z.ltb_lt.
    destruct (Z.leb_spec 1 m); lia.
Qed.
End SameInstant.

Lemma admitted_prefix (m : Z) (n : nat) :
  map (fun i => Z.of_nat i <? m) (seq 0 n) =
    repeat true (Z.to_nat (Z.min (Z.of_nat n) m)) ++
    repeat false (n - Z.to_nat (Z.min (Z.of_nat n) m)).
Proof.
  induction n as [| n IH].
  { replace (Z.to_nat (Z.min (Z.of_nat 0) m)) with 0%nat by lia. reflexivity. }
  rewrite seq_S, map_app, IH. cbn [map Nat.add].
  destruct (Z.ltb_spec (Z.of_nat n) m) as [Hlt | Hge].
  - replace (Z.to_nat (Z.min (Z.of_nat n) m)) with n by lia.
    replace (Z.to_nat (Z.min (Z.of_nat (S n)) m)) with (S n) by lia.
    replace (n - n)%nat with 0%nat by lia. replace (S n - S n)%nat with 0%nat by lia.
    cbn [repeat]. rewrite !app_nil_r. rewrite <- repeat_cons. reflexivity.
  - replace (Z.min (Z.of_nat (S n)) m) with (Z.min (Z.of_nat n) m) by lia.
    set (c := Z.to_nat (Z.min (Z.of_nat n) m)).
    assert (c <= n)%nat by lia.
    replace (S n - c)%nat with (S (n - c)) by lia.
    rewrite <- app_assoc. f_equal. rewrite <- repeat_cons. reflexivity.
Qed.

Lemma admissions_prefix (a b : nat) :
  admissions (repeat true a ++ repeat false b) = a.
Proof.
  unfold admissions. induction a as [| a IH]; cbn.
  - induction b as [| b IHb]; [reflexivity |]. cbn. rewrite decide_False by discriminate. exact IHb.
  - rewrite decide_True by reflexivity. cbn. f_equal. exact IH.
Qed.

(** C1 -- token bucket monotonicity. For a key without stored state, [n]
    consecutive [is_allowed] calls that all read the same clock value are
    answered by [min n burst_limit] admissions followed by rejections only:
    the admitted calls are exactly the first ones, and their number is
    [min n burst_limit] (read as zero when the configured limit is
    negative). *)
Theorem C1_token_bucket_monotonicity
    (self : RateLimiter) (k : string) (t : Q) (reqs : list Request) :
  tokens self !! k = None ->
  Forall (fun r => key_func self r = k) reqs ->
  let n := length reqs in
  let b := burst_limit self in
  let answers := (run_calls self (map (fun r => (r, t)) reqs)).1 in
  answers = repeat true (Z.to_nat (Z.min (Z.of_nat n) b)) ++
            repeat false (n - Z.to_nat (Z.min (Z.of_nat n) b)) /\
  admissions answers = Z.to_nat (Z.min (Z.of_nat n) b) /\
  (0 <= b -> Z.of_nat (admissions answers) = Z.min (Z.of_nat n) b).
Proof.
  intros Hnone Hall n b answers.
  assert (Hans : answers = repeat true (Z.to_nat (Z.min (Z.of_nat n) b)) ++
                           repeat false (n - Z.to_nat (Z.min (Z.of_nat n) b))).
  { unfold answers. rewrite (run_calls_avail k t reqs b self).
    - apply admitted_prefix.
    - left. split; [exact Hnone | reflexivity].
    - exact Hall. }
  split; [exact Hans |]. rewrite Hans, admissions_prefix. split; [reflexivity | lia].
Qed.

Definition limiter_60_2 : RateLimiter := init 60 2 None.
Definition req_a : Request := mkRequest "10.0.0.1" "/scrape".

Lemma C1_token_bucket_monotonicity_witness :
  (run_calls limiter_60_2 (map (fun r => (r, 5%Q)) [req_a; req_a; req_a])).1
    = [true; true; false].
Proof.
  pose proof (C1_token_bucket_monotonicity limiter_60_2 "10.0.0.1" 5%Q
                [req_a; req_a; req_a]) as H.
  destruct H as [H _]; [reflexivity | repeat constructor |]. exact H.
Defined.

(** ** What a single call stores *)

Lemma is_allowed_rejected self r now self' :
  is_allowed self r now = (false, self') -> self' = self.
Proof.
  unfold is_allowed. destruct (_get_tokens _ _ _) as [q n'].
  destruct (Qle_bool 1 q); intros H; inversion H; reflexivity.
Qed.

Lemma get_tokens_now self key now : (_get_tokens self key now).2 = now.
Proof. unfold _get_tokens. destruct (tokens self !! key) as [[q l]|]; reflexivity. Qed.

(** C5 (amended) -- state effect of [is_allowed]. A rejected call leaves the
    limiter exactly as it was: neither the token count nor the timestamp of
    the key is written. An admitted call stores, for its key only, the
    refilled count minus one together with the clock value it read, and the
    stored count is never negative. *)
Theorem C5_is_allowed_state_effect (self : RateLimiter) (r : Request) (now : Q) :
  let key := key_func self r in
  let '(ok, self') := is_allowed self r now in
  (ok = false -> self' = self) /\
  (ok = true ->
     exists q, (1 <= q)%Q /\ (_get_tokens self key now).1 = q /\
       tokens self' !! key = Some ((q - 1)%Q, now) /\ (0 <= q - 1)%Q /\
       forall k', k' <> key -> tokens self' !! k' = tokens self !! k').
Proof.
  intros key. destruct (is_allowed self r now) as [ok self'] eqn:Hia.
  split; intros ->.
  - eapply is_allowed_rejected; eauto.
  - unfold is_allowed in Hia. fold key in Hia.
    pose proof (get_tokens_now self key now) as Hnow.
    destruct (_get_tokens self key now) as [q n'] eqn:Hg. cbn in Hnow. subst n'.
    destruct (Qle_bool 1 q) eqn:Hq; inversion Hia; subst; clear Hia.
    apply Qle_bool_iff in Hq.
    exists q. split; [exact Hq |]. split; [reflexivity |]. cbn.
    rewrite lookup_insert_eq. split; [reflexivity |]. split.
    + lra.
    + intros k' Hne. apply lookup_insert_ne. congruence.
Qed.

(** A bucket drained at time 0, refilled at one token per second. *)
Definition drained : RateLimiter :=
  _update_tokens (init 60 5 None) "10.0.0.1" 0%Q 0%Q.

(** C5 (as stated) fails: half a second after the bucket was drained the call
    is rejected and the stored timestamp is still the old one. *)
Lemma C5_rejection_refreshes_timestamp_counterexample :
  let '(ok, self') := is_allowed drained req_a (1 # 2)%Q in
  ok = false /\
  tokens self' !! "10.0.0.1" = Some (0%Q, 0%Q) /\
  ~ (exists q last, tokens self' !! "10.0.0.1" = Some (q, last) /\ (last == 1 # 2)%Q).
Proof.
  vm_compute. split; [reflexivity | split; [reflexivity |]].
  intros (q & last & H & Hl). inversion H; subst. discriminate Hl.
Qed.

Lemma lookup_after_fire (ts : list (Request * pc)) i j r p p' r2 p2 :
  ts !! i = Some (r, p) ->
  <[i := (r, p')]> ts !! j = Some (r2, p2) ->
  (j = i /\ r2 = r /\ p2 = p') \/ (j <> i /\ ts !! j = Some (r2, p2)).
Proof.
  intros Hi Hj. destruct (decide (j = i)) as [-> | Hne].
  - left. rewrite list_lookup_insert_eq in Hj by (eapply lookup_lt_Some; eauto).
    inversion Hj; auto.
  - right. rewrite list_lookup_insert_ne in Hj by congruence. auto.
Qed.

Lemma get_tokens_le_burst self key t :
  ((_get_tokens self key t).1 <= inject_Z (burst_limit self))%Q.
Proof.
  unfold _get_tokens. destruct (tokens self !! key) as [[q l] |]; cbn.
  - apply Q.le_min_l.
  - apply Qle_refl.
Qed.

Lemma get_tokens_after_update self key t q :
  (q <= inject_Z (burst_limit self))%Q ->
  ((_get_tokens (_update_tokens self key q t) key t).1 == q)%Q.
Proof.
  intros Hq. unfold _get_tokens, _update_tokens. cbn. rewrite lookup_insert_eq. cbn.
  assert (Hz : (q + (t - t) * rate self == q)%Q) by ring.
  rewrite Hz. apply Q.min_r. exact Hq.
Qed.

Section OneToken.
Variable k : string.
Variable now : Q.

Definition cur (w : World) : Q := (_get_tokens (limiter w) k now).1.

Record inv (w : World) : Prop := {
  inv_keys : forall i r p, tasks w !! i = Some (r, p) -> key_func (limiter w) r = k;
  inv_mutex : forall i j r p r' p',
    tasks w !! i = Some (r, p) -> tasks w !! j = Some (r', p') ->
    holds p -> holds p' -> i = j;
  inv_lock : forall i r p, tasks w !! i = Some (r, p) -> holds p -> lock_held w = true;
  inv_got : forall i r q n, tasks w !! i = Some (r, Got q n) -> n = now /\ q = cur w;
  inv_few : (cur w < 2)%Q;
  inv_spent : forall i r p, tasks w !! i = Some (r, p) -> admitted p -> (cur w < 1)%Q;
  inv_once : forall i j r p r' p',
    tasks w !! i = Some (r, p) -> tasks w !! j = Some (r', p') ->
    admitted p -> admitted p' -> i = j
}.

Lemma inv_spawn self requests :
  Forall (fun r => key_func self r = k) requests ->
  ((_get_tokens self k now).1 < 2)%Q ->
  inv (spawn self requests).
Proof.
  intros Hall Hfew.
  assert (Hst : forall i r p, tasks (spawn self requests) !! i = Some (r, p) ->
                  p = Start /\ key_func self r = k).
  { intros i r p H. cbn in H. rewrite list_lookup_fmap in H.
    destruct (requests !! i) as [r0 |] eqn:Hr; inversion H; subst.
    split; [reflexivity |]. rewrite Forall_forall in Hall. apply Hall.
    eapply list_elem_of_lookup_2; eauto. }
  constructor; try exact Hfew.
  - intros i r p H. apply (Hst _ _ _ H).
  - intros i j r p r' p' H _ Hp. apply Hst in H as [-> _]. destruct Hp.
  - intros i r p H Hp. apply Hst in H as [-> _]. destruct Hp.
  - intros i r q n H. apply Hst in H as [? _]. discriminate.
  - intros i r p H Hp. apply Hst in H as [-> _]. destruct Hp.
  - intros i j r p r' p' H _ Hp. apply Hst in H as [-> _]. destruct Hp.
Qed.

Lemma inv_fire w w' i :
  inv w -> fire w i now = Some w' -> inv w'.
Proof.
  intros HI Hf. unfold fire in Hf.
  destruct (tasks w !! i) as [[r p] |] eqn:Hi; [| discriminate].
  pose proof (inv_keys w HI _ _ _ Hi) as Hk.
  destruct p as [| | q n | b | b]; cbn in Hf; rewrite ?Hk in Hf.
  - (* acquire *)
    destruct (lock_held w) eqn:Hl; [discriminate |]. inversion Hf; subst; clear Hf.
    assert (Hfree : forall j r2 p2, tasks w !! j = Some (r2, p2) -> holds p2 -> False).
    { intros j r2 p2 Hj Hp. pose proof (inv_lock w HI _ _ _ Hj Hp). congruence. }
    constructor; cbn; unfold cur; cbn.
    + intros j r2 p2 Hj. destruct (lookup_after_fire _ _ _ _ _ _ _ _ Hi Hj) as [(-> & -> & ->) | [_ Hj']]; [exact Hk | exact (inv_keys w HI _ _ _ Hj')].
    + intros j1 j2 r1 p1 r2 p2 H1 H2 Hp1 Hp2.
      destruct (lookup_after_fire _ _ _ _ _ _ _ _ Hi H1) as [(-> & -> & ->) | [_ H1']];
      destruct (lookup_after_fire _ _ _ _ _ _ _ _ Hi H2) as [(-> & -> & ->) | [_ H2']];
        try reflexivity; exfalso; eauto.
    + reflexivity.
    + intros j r2 q n Hj. destruct (lookup_after_fire _ _ _ _ _ _ _ _ Hi Hj) as [(-> & -> & ?) | [_ Hj']]; [discriminate |].
      exfalso. eapply Hfree; [exact Hj' | exact I].
    + apply (inv_few w HI).
    + intros j r2 p2 Hj Hp. destruct (lookup_after_fire _ _ _ _ _ _ _ _ Hi Hj) as [(-> & -> & ->) | [_ Hj']]; [destruct Hp |].
      apply (inv_spent w HI _ _ _ Hj' Hp).
    + intros j1 j2 r1 p1 r2 p2 H1 H2 Hp1 Hp2.
      destruct (lookup_after_fire _ _ _ _ _ _ _ _ Hi H1) as [(-> & -> & ->) | [_ H1']]; [destruct Hp1 |].
      destruct (lookup_after_fire _ _ _ _ _ _ _ _ Hi H2) as [(-> & -> & ->) | [_ H2']]; [destruct Hp2 |].
      apply (inv_once w HI _ _ _ _ _ _ H1' H2' Hp1 Hp2).
  - (* read the bucket *)
    pose proof (get_tokens_now (limiter w) k now) as Hn.
    destruct (_get_tokens (limiter w) k now) as [q n] eqn:Hg. cbn in Hn. subst n.
    inversion Hf; subst; clear Hf.
    constructor; cbn; unfold cur; cbn.
    + intros j r2 p2 Hj. destruct (lookup_after_fire _ _ _ _ _ _ _ _ Hi Hj) as [(-> & -> & ->) | [_ Hj']]; [exact Hk | exact (inv_keys w HI _ _ _ Hj')].
    + intros j1 j2 r1 p1 r2 p2 H1 H2 Hp1 Hp2.
      destruct (lookup_after_fire _ _ _ _ _ _ _ _ Hi H1) as [(-> & -> & ->) | [Hn1 H1']];
      destruct (lookup_after_fire _ _ _ _ _ _ _ _ Hi H2) as [(-> & -> & ->) | [Hn2 H2']];
        try reflexivity.
      * apply (inv_mutex w HI _ _ _ _ _ _ Hi H2' I Hp2).
      * apply (inv_mutex w HI _ _ _ _ _ _ H1' Hi Hp1 I).
      * apply (inv_mutex w HI _ _ _ _ _ _ H1' H2' Hp1 Hp2).
    + intros j r2 p2 Hj Hp. apply (inv_lock w HI _ _ _ Hi I).
    + intros j r2 q2 n Hj. destruct (lookup_after_fire _ _ _ _ _ _ _ _ Hi Hj) as [(-> & -> & Heq) | [_ Hj']].
      * inversion Heq; subst. rewrite Hg. auto.
      * apply (inv_got w HI _ _ _ _ Hj').
    + apply (inv_few w HI).
    + intros j r2 p2 Hj Hp. destruct (lookup_after_fire _ _ _ _ _ _ _ _ Hi Hj) as [(-> & -> & ->) | [_ Hj']]; [destruct Hp |].
      apply (inv_spent w HI _ _ _ Hj' Hp).
    + intros j1 j2 r1 p1 r2 p2 H1 H2 Hp1 Hp2.
      destruct (lookup_after_fire _ _ _ _ _ _ _ _ Hi H1) as [(-> & -> & ->) | [_ H1']]; [destruct Hp1 |].
      destruct (lookup_after_fire _ _ _ _ _ _ _ _ Hi H2) as [(-> & -> & ->) | [_ H2']]; [destruct Hp2 |].
      apply (inv_once w HI _ _ _ _ _ _ H1' H2' Hp1 Hp2).
  - (* decide, and store when admitted *)
    destruct (inv_got w HI _ _ _ _ Hi) as [-> Hq].
    assert (Hsolo : forall j r2 p2, tasks w !! j = Some (r2, p2) -> holds p2 -> j = i).
    { intros j r2 p2 Hj Hp. apply (inv_mutex w HI _ _ _ _ _ _ Hj Hi Hp I). }
    destruct (Qle_bool 1 q) eqn:Hle; inversion Hf; subst w'; clear Hf.
    + apply Qle_bool_iff in Hle.
      assert (Hnone : forall j r2 p2, tasks w !! j = Some (r2, p2) -> admitted p2 -> False).
      { intros j r2 p2 Hj Hp. pose proof (inv_spent w HI _ _ _ Hj Hp) as Hlt.
        rewrite <- Hq in Hlt. apply (Qlt_not_le _ _ Hlt Hle). }
      assert (Hcur : (cur (mkWorld (_update_tokens (limiter w) k (q - 1) now) (lock_held w)
                       (<[i := (r, Leaving true)]> (tasks w))) == q - 1)%Q).
      { unfold cur. cbn [limiter]. apply get_tokens_after_update.
        apply Qle_trans with q.
        - lra.
        - rewrite Hq. apply get_tokens_le_burst. }
      assert (Hlt1 : (q - 1 < 1)%Q).
      { pose proof (inv_few w HI) as H2. rewrite <- Hq in H2.
        lra. }
      constructor; cbn [tasks limiter lock_held _update_tokens key_func].
      * intros j r2 p2 Hj. destruct (lookup_after_fire _ _ _ _ _ _ _ _ Hi Hj) as [(-> & -> & ->) | [_ Hj']]; [exact Hk | exact (inv_keys w HI _ _ _ Hj')].
      * intros j1 j2 r1 p1 r2 p2 H1 H2 Hp1 Hp2.
        destruct (lookup_after_fire _ _ _ _ _ _ _ _ Hi H1) as [(-> & -> & ->) | [Hn1 H1']];
        destruct (lookup_after_fire _ _ _ _ _ _ _ _ Hi H2) as [(-> & -> & ->) | [Hn2 H2']];
          try reflexivity.
        -- symmetry. eauto.
        -- eauto.
        -- apply (inv_mutex w HI _ _ _ _ _ _ H1' H2' Hp1 Hp2).
      * intros j r2 p2 Hj Hp. apply (inv_lock w HI _ _ _ Hi I).
      * intros j r2 q2 n Hj. destruct (lookup_after_fire _ _ _ _ _ _ _ _ Hi Hj) as [(-> & -> & Heq) | [Hne Hj']]; [discriminate |].
        exfalso. apply Hne. eapply Hsolo; [exact Hj' | exact I].
      * rewrite Hcur. lra.
      * intros j r2 p2 Hj Hp. rewrite Hcur. exact Hlt1.
      * intros j1 j2 r1 p1 r2 p2 H1 H2 Hp1 Hp2.
        destruct (lookup_after_fire _ _ _ _ _ _ _ _ Hi H1) as [(-> & -> & ->) | [Hn1 H1']];
        destruct (lookup_after_fire _ _ _ _ _ _ _ _ Hi H2) as [(-> & -> & ->) | [Hn2 H2']];
          try reflexivity; exfalso; eauto.
    + constructor; cbn; unfold cur; cbn.
      * intros j r2 p2 Hj. destruct (lookup_after_fire _ _ _ _ _ _ _ _ Hi Hj) as [(-> & -> & ->) | [_ Hj']]; [exact Hk | exact (inv_keys w HI _ _ _ Hj')].
      * intros j1 j2 r1 p1 r2 p2 H1 H2 Hp1 Hp2.
        destruct (lookup_after_fire _ _ _ _ _ _ _ _ Hi H1) as [(-> & -> & ->) | [Hn1 H1']];
        destruct (lookup_after_fire _ _ _ _ _ _ _ _ Hi H2) as [(-> & -> & ->) | [Hn2 H2']];
          try reflexivity.
        -- symmetry. eauto.
        -- eauto.
        -- apply (inv_mutex w HI _ _ _ _ _ _ H1' H2' Hp1 Hp2).
      * intros j r2 p2 Hj Hp. apply (inv_lock w HI _ _ _ Hi I).
      * intros j r2 q2 n Hj. destruct (lookup_after_fire _ _ _ _ _ _ _ _ Hi Hj) as [(-> & -> & Heq) | [Hne Hj']]; [discriminate |].
        apply (inv_got w HI _ _ _ _ Hj').
      * apply (inv_few w HI).
      * intros j r2 p2 Hj Hp. destruct (lookup_after_fire _ _ _ _ _ _ _ _ Hi Hj) as [(-> & -> & ->) | [_ Hj']]; [destruct Hp |].
        apply (inv_spent w HI _ _ _ Hj' Hp).
      * intros j1 j2 r1 p1 r2 p2 H1 H2 Hp1 Hp2.
        destruct (lookup_after_fire _ _ _ _ _ _ _ _ Hi H1) as [(-> & -> & ->) | [_ H1']]; [destruct Hp1 |].
        destruct (lookup_after_fire _ _ _ _ _ _ _ _ Hi H2) as [(-> & -> & ->) | [_ H2']]; [destruct Hp2 |].
        apply (inv_once w HI _ _ _ _ _ _ H1' H2' Hp1 Hp2).
  - (* release and return *)
    inversion Hf; subst w'; clear Hf.
    assert (Hsolo : forall j r2 p2, tasks w !! j = Some (r2, p2) -> holds p2 -> j = i).
    { intros j r2 p2 Hj Hp. apply (inv_mutex w HI _ _ _ _ _ _ Hj Hi Hp I). }
    assert (Hadm : admitted (Done b) -> admitted (Leaving b)).
    { destruct b; intros Hp; exact Hp. }
    constructor; cbn; unfold cur; cbn.
    + intros j r2 p2 Hj. destruct (lookup_after_fire _ _ _ _ _ _ _ _ Hi Hj) as [(-> & -> & ->) | [_ Hj']]; [exact Hk | exact (inv_keys w HI _ _ _ Hj')].
    + intros j1 j2 r1 p1 r2 p2 H1 H2 Hp1 Hp2.
      destruct (lookup_after_fire _ _ _ _ _ _ _ _ Hi H1) as [(-> & -> & ->) | [Hn1 H1']]; [destruct Hp1 |].
      destruct (lookup_after_fire _ _ _ _ _ _ _ _ Hi H2) as [(-> & -> & ->) | [Hn2 H2']]; [destruct Hp2 |].
      apply (inv_mutex w HI _ _ _ _ _ _ H1' H2' Hp1 Hp2).
    + intros j r2 p2 Hj Hp.
      destruct (lookup_after_fire _ _ _ _ _ _ _ _ Hi Hj) as [(-> & -> & ->) | [Hne Hj']]; [destruct Hp |].
      exfalso. apply Hne. eauto.
    + intros j r2 q2 n Hj. destruct (lookup_after_fire _ _ _ _ _ _ _ _ Hi Hj) as [(-> & -> & Heq) | [Hne Hj']]; [discriminate |].
      apply (inv_got w HI _ _ _ _ Hj').
    + apply (inv_few w HI).
    + intros j r2 p2 Hj Hp. destruct (lookup_after_fire _ _ _ _ _ _ _ _ Hi Hj) as [(-> & -> & ->) | [_ Hj']].
      * apply (inv_spent w HI _ _ _ Hi). apply Hadm. exact Hp.
      * apply (inv_spent w HI _ _ _ Hj' Hp).
    + intros j1 j2 r1 p1 r2 p2 H1 H2 Hp1 Hp2.
      destruct (lookup_after_fire _ _ _ _ _ _ _ _ Hi H1) as [(-> & -> & ->) | [Hn1 H1']];
      destruct (lookup_after_fire _ _ _ _ _ _ _ _ Hi H2) as [(-> & -> & ->) | [Hn2 H2']];
        try reflexivity.
      * apply (inv_once w HI _ _ _ _ _ _ Hi H2'); [apply Hadm; exact Hp1 | exact Hp2].
      * apply (inv_once w HI _ _ _ _ _ _ H1' Hi); [exact Hp1 | apply Hadm; exact Hp2].
      * apply (inv_once w HI _ _ _ _ _ _ H1' H2' Hp1 Hp2).
  - discriminate.
Qed.

Lemma inv_run sched : forall w w',
  inv w -> Forall (fun e => e.2 = now) sched ->
  run_schedule w sched = Some w' -> inv w'.
Proof.
  induction sched as [| [i c] rest IH]; intros w w' HI Hall Hrun; cbn in Hrun.
  - inversion Hrun; subst; exact HI.
  - inversion Hall as [| ? ? Hc Hrest]; subst. cbn in Hc. subst c.
    destruct (fire w i now) as [w1 |] eqn:Hf; [| discriminate].
    eapply IH; [eapply inv_fire; eauto | exact Hrest | exact Hrun].
Qed.
End OneToken.

(** C9 -- admission is atomic under interleaving. Calls of [is_allowed] for
    one key are started together and interleaved in any order while the
    clock stands still, with fewer than two tokens available to the key.
    Then in every world the scheduler can reach at most one call is inside
    the locked block, and no two calls have both returned [True]. *)
Theorem C9_admission_atomic
    (self : RateLimiter) (k : string) (now : Q)
    (requests : list Request) (sched : list (nat * Q)) (w : World) :
  Forall (fun r => key_func self r = k) requests ->
  ((_get_tokens self k now).1 < 2)%Q ->
  Forall (fun e => e.2 = now) sched ->
  run_schedule (spawn self requests) sched = Some w ->
  (forall i j r p r' p',
     tasks w !! i = Some (r, p) -> tasks w !! j = Some (r', p') ->
     holds p -> holds p' -> i = j) /\
  (forall i j, i <> j -> ~ (returned w i true /\ returned w j true)).
Proof.
  intros Hkeys Hfew Hclock Hrun.
  assert (HI : inv k now w).
  { eapply inv_run; [apply inv_spawn | |]; eauto. }
  split.
  - apply (inv_mutex k now w HI).
  - intros i j Hne [[r Hi] [r' Hj]]. apply Hne.
    apply (inv_once k now w HI _ _ _ _ _ _ Hi Hj); exact I.
Qed.

Definition limiter_60_1 : RateLimiter := init 60 1 None.

(** The first call runs to completion, then the second. *)
Definition one_after_other : list (nat * Q) :=
  map (fun i => (i, 5%Q)) [0; 0; 0; 0; 1; 1; 1; 1]%nat.

Lemma C9_admission_atomic_witness :
  exists w, run_schedule (spawn limiter_60_1 [req_a; req_a]) one_after_other = Some w /\
    returned w 0 true /\ returned w 1 false /\
    ~ (returned w 0 true /\ returned w 1 true).
Proof.
  destruct (run_schedule (spawn limiter_60_1 [req_a; req_a]) one_after_other)
    as [w |] eqn:Hrun; [| vm_compute in Hrun; discriminate Hrun].
  exists w. split; [reflexivity |].
  assert (Hw : tasks w = [(req_a, Done true); (req_a, Done false)]).
  { vm_compute in Hrun. inversion Hrun. reflexivity. }
  split; [exists req_a; rewrite Hw; reflexivity |].
  split; [exists req_a; rewrite Hw; reflexivity |].
  apply (C9_admission_atomic limiter_60_1 "10.0.0.1" 5%Q [req_a; req_a]
           one_after_other w).
  - repeat constructor.
  - reflexivity.
  - repeat constructor.
  - exact Hrun.
  - discriminate.
Defined.
(** * Properties of the retry helper *)

Import Retry.

Lemma float_pow_in_range (x : Q) (e : Z) :
  float_pow x e <> None -> float_pow x e = Some (x ^ e)%Q.
Proof.
  unfold float_pow. destruct ((e <? 0) && Qeq_bool x 0); [congruence |].
  cbv zeta. destruct (Qle_bool (Qabs (x ^ e)) float_max); congruence.
Qed.

Lemma backoff_in_range (config : RetryConfig) (e : Z) :
  power_in_range config e ->
  backoff config e
    = Some (Qmin (initial_delay config * exponential_base config ^ e)%Q (max_delay config)).
Proof.
  intros H. unfold backoff. rewrite (float_pow_in_range _ _ H). reflexivity.
Qed.

Lemma backoff_capped (config : RetryConfig) (e : Z) (d : Q) :
  backoff config e = Some d -> (d <= max_delay config)%Q.
Proof.
  unfold backoff. destruct (float_pow (exponential_base config) e) as [p |]; [| discriminate].
  intros H. inversion H. apply Q.le_min_r.
Qed.

(** The delay the service wrapper sleeps after failed attempt [k] (from 0). *)
Definition service_delay (config : RetryConfig) (rand : nat -> Q) (k : nat) : Q :=
  let d := Qmin (initial_delay config * exponential_base config ^ Z.of_nat k)%Q
                (max_delay config) in
  if jitter config then (d * ((1 # 2) + rand k))%Q else d.

(** The delay [calculate_delay] returns for attempt [k + 1] and the draw [r],
    the jitter written out. *)
Definition api_delay (config : RetryConfig) (k : Z) (r : Q) : Q :=
  let d := Qmin (initial_delay config * exponential_base config ^ k)%Q
                (max_delay config) in
  if jitter config then (d * (1 + (- (1 # 4) + ((1 # 4) - - (1 # 4)) * r)))%Q else d.

Lemma calculate_delay_in_range (config : RetryConfig) (attempt : Z) (r : Q) :
  power_in_range config (attempt - 1) ->
  calculate_delay attempt config r = Some (api_delay config (attempt - 1) r).
Proof.
  intros H. unfold calculate_delay, api_delay. rewrite (backoff_in_range _ _ H).
  destruct (jitter config); reflexivity.
Qed.

Section AlwaysFailing.
Context {A E : Type}.
Variable func : nat -> outcome A E.
Variable retryable_exn : E -> bool.
Variable rand : nat -> Q.
Hypothesis always_fails : forall k, exists e, func k = Fails e /\ retryable_exn e = true.

Lemma retryable_loop_sleeps config todo : forall (attempt : nat) last,
  Z.of_nat attempt + Z.of_nat (S todo) = max_attempts config ->
  (forall k, (attempt <= k < attempt + todo)%nat -> power_in_range config (Z.of_nat k)) ->
  sleeps (retryable_loop func retryable_exn rand config (S todo) (Z.of_nat attempt) last)
    = map (service_delay config rand) (seq attempt todo) /\
  calls (retryable_loop func retryable_exn rand config (S todo) (Z.of_nat attempt) last)
    = S todo.
Proof.
  induction todo as [| todo IH]; intros attempt last Hsum Hrange.
  - cbn [retryable_loop]. rewrite Nat2Z.id.
    destruct (always_fails attempt) as (e & -> & ->). cbn [negb].
    replace (Z.of_nat attempt =? max_attempts config - 1) with true
      by (symmetry; apply Z.eqb_eq; lia).
    split; reflexivity.
  - remember (S todo) as todo1. cbn [retryable_loop]. rewrite Nat2Z.id.
    destruct (always_fails attempt) as (e & -> & ->). cbn [negb].
    replace (Z.of_nat attempt =? max_attempts config - 1) with false
      by (symmetry; apply Z.eqb_neq; lia).
    rewrite (backoff_in_range config (Z.of_nat attempt)) by (apply Hrange; lia).
    subst todo1.
    replace (Z.of_nat attempt + 1) with (Z.of_nat (S attempt)) by lia.
    destruct (IH (S attempt) (Some e)) as [IHs IHc]; [lia | intros k Hk; apply Hrange; lia |].
    cbn [called slept sleeps calls seq map]. rewrite IHs, IHc.
    split; reflexivity.
Qed.

Lemma retry_async_loop_sleeps config todo : forall (attempt : nat) last,
  Z.of_nat (S attempt) + Z.of_nat todo = max_attempts config ->
  (forall k, (attempt <= k < attempt + todo)%nat -> power_in_range config (Z.of_nat k)) ->
  sleeps (retry_async_loop func retryable_exn rand config (S todo) (Z.of_nat (S attempt)) last)
    = map (fun k => api_delay config (Z.of_nat k) (rand k)) (seq attempt todo) /\
  calls (retry_async_loop func retryable_exn rand config (S todo) (Z.of_nat (S attempt)) last)
    = S todo.
Proof.
  induction todo as [| todo IH]; intros attempt last Hsum Hrange.
  - cbn [retry_async_loop].
    replace (Z.to_nat (Z.of_nat (S attempt) - 1)) with attempt by lia.
    destruct (always_fails attempt) as (e & -> & ->). cbn [negb].
    replace (Z.of_nat (S attempt) =? max_attempts config) with true
      by (symmetry; apply Z.eqb_eq; lia).
    split; reflexivity.
  - remember (S todo) as todo1. cbn [retry_async_loop].
    replace (Z.to_nat (Z.of_nat (S attempt) - 1)) with attempt by lia.
    destruct (always_fails attempt) as (e & -> & ->). cbn [negb].
    replace (Z.of_nat (S attempt) =? max_attempts config) with false
      by (symmetry; apply Z.eqb_neq; lia).
    rewrite calculate_delay_in_range
      by (replace (Z.of_nat (S attempt) - 1) with (Z.of_nat attempt) by lia;
          apply Hrange; lia).
    replace (Z.of_nat (S attempt) - 1) with (Z.of_nat attempt) by lia.
    subst todo1.
    replace (Z.of_nat (S attempt) + 1) with (Z.of_nat (S (S attempt))) by lia.
    destruct (IH (S attempt) (Some e)) as [IHs IHc]; [lia | intros k Hk; apply Hrange; lia |].
    cbn [called slept sleeps calls seq map]. rewrite IHs, IHc.
    split; reflexivity.
Qed.
End AlwaysFailing.

(** C3 (amended) -- retry delay schedule. As long as the power
    [exponential_base ** (attempt - 1)] can be computed, the delay after the
    failed attempt number [attempt] (counted from 1) is
    [min(initial_delay * exponential_base^(attempt-1), max_delay)] when
    jitter is off, in [calculate_delay] and in both retry loops, so an
    operation that keeps failing is retried after exactly that sequence of
    delays. With jitter on that value is multiplied by a factor computed
    from one draw [r] of [random.random()]: [0.5 + r], between 0.5 and 1.5, in
    the service wrapper, and [1 + uniform(-0.25, 0.25)], which is
    [1 + (-0.25 + 0.5 * r)], between 0.75 and 1.25, in [calculate_delay]. *)
Theorem C3_retry_delay_schedule
    (A E : Type) (func : nat -> outcome A E) (retryable_exn : E -> bool)
    (rand : nat -> Q) (config : RetryConfig) :
  let capped (attempt : Z) :=
    Qmin (initial_delay config * exponential_base config ^ (attempt - 1))%Q
         (max_delay config) in
  let service_factor (r : Q) := ((1 # 2) + r)%Q in
  let api_factor (r : Q) := (1 + (- (1 # 4) + ((1 # 4) - - (1 # 4)) * r))%Q in
  (forall k, exists e, func k = Fails e /\ retryable_exn e = true) ->
  (forall k, 0 <= rand k /\ rand k < 1)%Q ->
  1 <= max_attempts config ->
  let n := Z.to_nat (max_attempts config - 1) in
  (forall k, (k < n)%nat -> power_in_range config (Z.of_nat k)) ->
  (* the service wrapper *)
  sleeps (retryable func retryable_exn rand config)
    = map (fun k => if jitter config
                    then (capped (Z.of_nat (S k)) * service_factor (rand k))%Q
                    else capped (Z.of_nat (S k))) (seq 0 n) /\
  (* calculate_delay and retry_async *)
  (forall attempt r, power_in_range config (attempt - 1) ->
     calculate_delay attempt config r
       = Some (if jitter config then (capped attempt * api_factor r)%Q
               else capped attempt)) /\
  sleeps (retry_async func retryable_exn rand config)
    = map (fun k => if jitter config
                    then (capped (Z.of_nat (S k)) * api_factor (rand k))%Q
                    else capped (Z.of_nat (S k))) (seq 0 n) /\
  (* where the factors lie *)
  (forall r, (0 <= r)%Q -> (r < 1)%Q ->
     (1 # 2 <= service_factor r)%Q /\ (service_factor r <= 3 # 2)%Q /\
     (3 # 4 <= api_factor r)%Q /\ (api_factor r <= 5 # 4)%Q).
Proof.
  intros capped service_factor api_factor Hfail Hrand Hmax n Hrange.
  assert (Hn : Z.to_nat (max_attempts config) = S n) by lia.
  assert (Hcap : forall k, capped (Z.of_nat (S k)) =
            Qmin (initial_delay config * exponential_base config ^ Z.of_nat k)%Q
                 (max_delay config)).
  { intros k. unfold capped. replace (Z.of_nat (S k) - 1) with (Z.of_nat k) by lia.
    reflexivity. }
  destruct (retryable_loop_sleeps func retryable_exn rand Hfail config n 0%nat None)
    as [Hs _]; [cbn; lia | intros k Hk; apply Hrange; lia |].
  destruct (retry_async_loop_sleeps func retryable_exn rand Hfail config n 0%nat None)
    as [Ha _]; [cbn; lia | intros k Hk; apply Hrange; lia |].
  change (Z.of_nat 0) with 0 in Hs. change (Z.of_nat 1) with 1 in Ha.
  unfold retryable, retry_async. rewrite Hn, Hs, Ha.
  split; [| split; [| split]].
  - apply map_ext. intros k. unfold service_delay. rewrite Hcap. reflexivity.
  - intros attempt r Hin. rewrite (calculate_delay_in_range _ _ _ Hin). reflexivity.
  - apply map_ext. intros k. unfold api_delay. rewrite Hcap. reflexivity.
  - intros r H0 H1. unfold service_factor, api_factor. repeat split; lra.
Qed.

(** An operation that raises a retryable error on every attempt, retried with
    the policy of the repository's backoff test. *)
Definition always_failing : nat -> outcome unit unit := fun _ => Fails tt.
Definition backoff_test_config : RetryConfig :=
  mkRetryConfig 3 (1 # 10) (3 # 10) 2 false.

Lemma backoff_test_in_range (k : nat) :
  (k < 2)%nat -> power_in_range backoff_test_config (Z.of_nat k).
Proof.
  intros Hk. destruct k as [| [| k]]; [| | lia]; unfold power_in_range; vm_compute;
    discriminate.
Qed.

Lemma C3_retry_delay_schedule_witness :
  sleeps (retryable always_failing (fun _ => true) (fun _ => 1 # 4)%Q backoff_test_config)
    = [Qmin ((1 # 10) * 2 ^ 0) (3 # 10); Qmin ((1 # 10) * 2 ^ 1) (3 # 10)]%Q.
Proof.
  pose proof (C3_retry_delay_schedule unit unit always_failing (fun _ => true)
                (fun _ => 1 # 4)%Q backoff_test_config) as H.
  cbv zeta in H. destruct H as [H _].
  - intros k. exists tt. split; reflexivity.
  - intros k. split; [discriminate | reflexivity].
  - cbn. lia.
  - intros k Hk. destruct k as [| [| k]]; [| | cbn in Hk; lia]; unfold power_in_range;
      vm_compute; discriminate.
  - exact H.
Defined.

(** The default policy of [RetryConfig], jitter on. *)
Definition default_retry_config : RetryConfig := mkRetryConfig 3 1 30 2 true.

(** C3 (as stated) fails for [calculate_delay]: its factor is not drawn from
    the whole of [0.5, 1.5). With the default policy the delay after the
    first failure would lie below 0.75 for a quarter of the draws; no draw
    gives such a delay, and the draw 0 gives 0.75, not 0.5. *)
Lemma C3_api_jitter_counterexample :
  ~ (exists r d, (0 <= r)%Q /\ (r < 1)%Q /\
       calculate_delay 1 default_retry_config r = Some d /\ (d < 3 # 4)%Q) /\
  (exists d, calculate_delay 1 default_retry_config 0 = Some d /\ (d == 3 # 4)%Q).
Proof.
  assert (Hin : power_in_range default_retry_config (1 - 1))
    by (unfold power_in_range; vm_compute; discriminate).
  split.
  - intros (r & d & H0 & H1 & Hd & Hlt).
    rewrite (calculate_delay_in_range _ _ r Hin) in Hd. inversion Hd; subst d; clear Hd.
    unfold api_delay in Hlt. cbn [jitter default_retry_config] in Hlt.
    assert (Hone : (Qmin (initial_delay default_retry_config
                          * exponential_base default_retry_config ^ (1 - 1))
                         (max_delay default_retry_config) == 1)%Q) by reflexivity.
    cbv zeta in Hlt. rewrite Hone in Hlt. lra.
  - eexists. split; [apply (calculate_delay_in_range _ _ 0%Q Hin) |]. reflexivity.
Qed.
(** * Properties of the codecs *)

Import Base64.

Lemma string_ind3 (P : string -> Prop) :
  P EmptyString ->
  (forall a, P (String a EmptyString)) ->
  (forall a b, P (String a (String b EmptyString))) ->
  (forall a b c rest, P rest -> P (String a (String b (String c rest)))) ->
  forall s, P s.
Proof.
  intros H0 H1 H2 H3.
  assert (H : forall s, P s /\ (forall a, P (String a s)) /\
                        (forall a b, P (String a (String b s)))).
  { induction s as [| c s (IH0 & IH1 & IH2)].
    - repeat split; auto.
    - repeat split; auto. }
  intros s. apply H.
Qed.

Definition bytes256 : list N := map N.of_nat (seq 0 256).
Definition sextets : list N := map N.of_nat (seq 0 64).

Lemma forallb_below (n : nat) (P : N -> bool) :
  forallb P (map N.of_nat (seq 0 n)) = true ->
  forall x, (x < N.of_nat n)%N -> P x = true.
Proof.
  intros H x Hx. rewrite forallb_forall in H. apply H.
  apply in_map_iff. exists (N.to_nat x). split; [lia |]. apply in_seq. lia.
Qed.

Lemma N_of_ascii_lt (a : ascii) : (N_of_ascii a < 256)%N.
Proof. destruct a as [[] [] [] [] [] [] [] []]; reflexivity. Qed.

Lemma b64val_b64char (i : N) : (i < 64)%N -> b64val (b64char i) = Some i.
Proof.
  intros Hi.
  assert (H : forallb (fun i => match b64val (b64char i) with
                                 | Some j => N.eqb i j | None => false end) sextets = true)
    by (vm_compute; reflexivity).
  pose proof (forallb_below 64 _ H i Hi) as Hx. cbn beta in Hx.
  destruct (b64val (b64char i)) as [j |]; [| discriminate].
  apply N.eqb_eq in Hx. congruence.
Qed.

Lemma b64char_plain (i : N) :
  (i < 64)%N -> Ascii.eqb (b64char i) pad = false /\ (N_of_ascii (b64char i) <? 128)%N = true.
Proof.
  intros Hi.
  assert (H : forallb (fun i => negb (Ascii.eqb (b64char i) pad) &&
                                (N_of_ascii (b64char i) <? 128)%N) sextets = true)
    by (vm_compute; reflexivity).
  pose proof (forallb_below 64 _ H i Hi) as Hx. cbn beta in Hx.
  apply andb_true_iff in Hx as [Hp Ha]. apply negb_true_iff in Hp. auto.
Qed.

(** The four sextets of three bytes, as [b64encode] cuts them. *)
Definition sx1 (x : N) : N := N.shiftr x 2.
Definition sx2 (x y : N) : N := N.lor (N.shiftl (N.land x 3) 4) (N.shiftr y 4).
Definition sx3 (y z : N) : N := N.lor (N.shiftl (N.land y 15) 2) (N.shiftr z 6).
Definition sx4 (z : N) : N := N.land z 63.

Lemma forallb_below2 (P : N -> N -> bool) :
  forallb (fun x => forallb (P x) bytes256) bytes256 = true ->
  forall x y, (x < 256)%N -> (y < 256)%N -> P x y = true.
Proof.
  intros H x y Hx Hy.
  pose proof (forallb_below 256 _ H x Hx) as H1. cbn beta in H1.
  exact (forallb_below 256 _ H1 y Hy).
Qed.

Definition quad_ok (x y : N) : bool :=
  (sx1 x <? 64)%N && (sx2 x y <? 64)%N && (sx3 x y <? 64)%N && (sx4 x <? 64)%N &&
  (N.lor (N.shiftl (sx1 x) 2) (N.shiftr (sx2 x y) 4) =? x)%N &&
  (N.land (sx2 x y) 15 =? N.shiftr y 4)%N &&
  (N.lor (N.shiftl (N.shiftr x 4) 4) (N.shiftr (sx3 x y) 2) =? x)%N &&
  (N.land (sx3 x y) 3 =? N.shiftr y 6)%N &&
  (N.lor (N.shiftl (N.shiftr x 6) 6) (sx4 x) =? x)%N &&
  (N.shiftl (N.land x 3) 4 =? sx2 x 0)%N &&
  (N.shiftl (N.land x 15) 2 =? sx3 x 0)%N.

Lemma quad_bits (x y : N) :
  (x < 256)%N -> (y < 256)%N ->
  ((sx1 x < 64)%N /\ (sx2 x y < 64)%N /\ (sx3 x y < 64)%N /\ (sx4 x < 64)%N) /\
  N.lor (N.shiftl (sx1 x) 2) (N.shiftr (sx2 x y) 4) = x /\
  N.land (sx2 x y) 15 = N.shiftr y 4 /\
  N.lor (N.shiftl (N.shiftr x 4) 4) (N.shiftr (sx3 x y) 2) = x /\
  N.land (sx3 x y) 3 = N.shiftr y 6 /\
  N.lor (N.shiftl (N.shiftr x 6) 6) (sx4 x) = x /\
  N.shiftl (N.land x 3) 4 = sx2 x 0 /\
  N.shiftl (N.land x 15) 2 = sx3 x 0.
Proof.
  intros Hx Hy.
  assert (H : forallb (fun x => forallb (quad_ok x) bytes256) bytes256 = true)
    by (vm_compute; reflexivity).
  pose proof (forallb_below2 _ H x y Hx Hy) as Hxy. unfold quad_ok in Hxy.
  repeat (apply andb_true_iff in Hxy as [Hxy ?]).
  repeat match goal with
         | H : (_ <? _)%N = true |- _ => apply N.ltb_lt in H
         | H : (_ =? _)%N = true |- _ => apply N.eqb_eq in H
         end.
  repeat split; assumption.
Qed.

Lemma a2b_step (i : N) rest qp lc pads :
  (i < 64)%N ->
  a2b_base64 (String (b64char i) rest) qp lc pads =
    match qp with
    | 0%nat => a2b_base64 rest 1 i 0
    | 1%nat =>
        option_map (String (ascii_of_N (N.lor (N.shiftl lc 2) (N.shiftr i 4))))
                   (a2b_base64 rest 2 (N.land i 15) 0)
    | 2%nat =>
        option_map (String (ascii_of_N (N.lor (N.shiftl lc 4) (N.shiftr i 2))))
                   (a2b_base64 rest 3 (N.land i 3) 0)
    | _ =>
        option_map (String (ascii_of_N (N.lor (N.shiftl lc 6) i)))
                   (a2b_base64 rest 0 0%N 0)
    end.
Proof.
  intros Hi. cbn [a2b_base64].
  rewrite (proj1 (b64char_plain i Hi)), (b64val_b64char i Hi). reflexivity.
Qed.

Lemma a2b_b64encode (s : string) : a2b_base64 (b64encode s) 0 0%N 0 = Some s.
Proof.
  induction s as [| a | a b | a b c rest IH] using string_ind3.
  - reflexivity.
  - pose proof (N_of_ascii_lt a) as Ha.
    destruct (quad_bits (N_of_ascii a) 0%N Ha eq_refl)
      as ((B1 & B2 & _ & _) & E1 & _ & _ & _ & _ & T1 & _).
    cbn [b64encode]. rewrite T1. fold (sx1 (N_of_ascii a)).
    rewrite (a2b_step _ _ _ _ _ B1), (a2b_step _ _ _ _ _ B2), E1, ascii_N_embedding.
    reflexivity.
  - pose proof (N_of_ascii_lt a) as Ha. pose proof (N_of_ascii_lt b) as Hb.
    destruct (quad_bits (N_of_ascii a) (N_of_ascii b) Ha Hb)
      as ((B1 & B2 & _ & _) & E1 & E2 & _).
    destruct (quad_bits (N_of_ascii b) 0%N Hb eq_refl)
      as ((_ & _ & B3 & _) & _ & _ & E3 & _ & _ & _ & T2).
    cbn [b64encode]. rewrite T2.
    fold (sx1 (N_of_ascii a)) (sx2 (N_of_ascii a) (N_of_ascii b)).
    rewrite (a2b_step _ _ _ _ _ B1), (a2b_step _ _ _ _ _ B2), (a2b_step _ _ _ _ _ B3).
    rewrite E1, E2, E3, !ascii_N_embedding. reflexivity.
  - pose proof (N_of_ascii_lt a) as Ha. pose proof (N_of_ascii_lt b) as Hb.
    pose proof (N_of_ascii_lt c) as Hc.
    destruct (quad_bits (N_of_ascii a) (N_of_ascii b) Ha Hb)
      as ((B1 & B2 & _ & _) & E1 & E2 & _).
    destruct (quad_bits (N_of_ascii b) (N_of_ascii c) Hb Hc)
      as ((_ & _ & B3 & _) & _ & _ & E3 & E4 & _).
    destruct (quad_bits (N_of_ascii c) 0%N Hc eq_refl)
      as ((_ & _ & _ & B4) & _ & _ & _ & _ & E5 & _).
    cbn [b64encode].
    fold (sx1 (N_of_ascii a)) (sx2 (N_of_ascii a) (N_of_ascii b))
         (sx3 (N_of_ascii b) (N_of_ascii c)) (sx4 (N_of_ascii c)).
    rewrite (a2b_step _ _ _ _ _ B1), (a2b_step _ _ _ _ _ B2),
            (a2b_step _ _ _ _ _ B3), (a2b_step _ _ _ _ _ B4).
    rewrite IH, E1, E2, E3, E4, E5, !ascii_N_embedding. reflexivity.
Qed.

Lemma is_ascii_b64encode (s : string) : is_ascii (b64encode s) = true.
Proof.
  induction s as [| a | a b | a b c rest IH] using string_ind3.
  - reflexivity.
  - pose proof (N_of_ascii_lt a) as Ha.
    destruct (quad_bits (N_of_ascii a) 0%N Ha eq_refl)
      as ((B1 & B2 & _ & _) & _ & _ & _ & _ & _ & T1 & _).
    cbn [b64encode is_ascii]. rewrite T1. fold (sx1 (N_of_ascii a)).
    rewrite (proj2 (b64char_plain _ B1)), (proj2 (b64char_plain _ B2)). reflexivity.
  - pose proof (N_of_ascii_lt a) as Ha. pose proof (N_of_ascii_lt b) as Hb.
    destruct (quad_bits (N_of_ascii a) (N_of_ascii b) Ha Hb) as ((B1 & B2 & _ & _) & _).
    destruct (quad_bits (N_of_ascii b) 0%N Hb eq_refl)
      as ((_ & _ & B3 & _) & _ & _ & _ & _ & _ & _ & T2).
    cbn [b64encode is_ascii]. rewrite T2.
    fold (sx1 (N_of_ascii a)) (sx2 (N_of_ascii a) (N_of_ascii b)).
    rewrite (proj2 (b64char_plain _ B1)), (proj2 (b64char_plain _ B2)),
            (proj2 (b64char_plain _ B3)). reflexivity.
  - pose proof (N_of_ascii_lt a) as Ha. pose proof (N_of_ascii_lt b) as Hb.
    pose proof (N_of_ascii_lt c) as Hc.
    destruct (quad_bits (N_of_ascii a) (N_of_ascii b) Ha Hb) as ((B1 & B2 & _ & _) & _).
    destruct (quad_bits (N_of_ascii b) (N_of_ascii c) Hb Hc) as ((_ & _ & B3 & _) & _).
    destruct (quad_bits (N_of_ascii c) 0%N Hc eq_refl) as ((_ & _ & _ & B4) & _).
    cbn [b64encode is_ascii].
    fold (sx1 (N_of_ascii a)) (sx2 (N_of_ascii a) (N_of_ascii b))
         (sx3 (N_of_ascii b) (N_of_ascii c)) (sx4 (N_of_ascii c)).
    rewrite (proj2 (b64char_plain _ B1)), (proj2 (b64char_plain _ B2)),
            (proj2 (b64char_plain _ B3)), (proj2 (b64char_plain _ B4)), IH. reflexivity.
Qed.

(** Decoding undoes encoding, for every byte string. *)
Lemma b64decode_b64encode (s : string) : b64decode (b64encode s) = Some s.
Proof. unfold b64decode. rewrite is_ascii_b64encode. apply a2b_b64encode. Qed.

Import Json.

#[local] Arguments String.append !s1 s2 : simpl nomatch.

(** ** Decimal integers *)

Fixpoint all_digits (s : string) : bool :=
  match s with
  | EmptyString => true
  | String c rest => is_digit c && all_digits rest
  end.

Lemma digit_char_spec (d : N) :
  (d < 10)%N ->
  is_digit (digit_char d) = true /\ digit_val (digit_char d) = d /\
  (Ascii.eqb (digit_char d) "0" = (d =? 0)%N).
Proof.
  intros Hd.
  assert (H : forallb (fun d => is_digit (digit_char d) && (digit_val (digit_char d) =? d)%N &&
                                Bool.eqb (Ascii.eqb (digit_char d) "0") (d =? 0)%N)
                      (map N.of_nat (seq 0 10)) = true) by (vm_compute; reflexivity).
  pose proof (forallb_below 10 _ H d Hd) as Hx. cbn beta in Hx.
  apply andb_true_iff in Hx as [Hx H3]. apply andb_true_iff in Hx as [H1 H2].
  apply N.eqb_eq in H2. apply Bool.eqb_prop in H3. auto.
Qed.

Lemma digits_value_app (a b : string) (k : N) :
  digits_value (a ++ b) k = digits_value b (digits_value a k).
Proof. revert k. induction a as [| c a IH]; intros k; simpl; [reflexivity | apply IH]. Qed.

Lemma all_digits_app (a b : string) :
  all_digits (a ++ b) = all_digits a && all_digits b.
Proof.
  induction a as [| c a IH]; [reflexivity |].
  change (String c a ++ b)%string with (String c (a ++ b)%string).
  cbn [all_digits]. rewrite IH, andb_assoc. reflexivity.
Qed.

Lemma string_app_assoc (a b c : string) : ((a ++ b) ++ c = a ++ (b ++ c))%string.
Proof. induction a as [| x a IH]; simpl; [reflexivity | rewrite IH; reflexivity]. Qed.

Lemma string_length_app (a b : string) :
  String.length (a ++ b) = (String.length a + String.length b)%nat.
Proof. induction a as [| x a IH]; simpl; [reflexivity | rewrite IH; reflexivity]. Qed.

(** What [dec_aux] writes in front of [acc]: the digits of [n], most
    significant first, without a leading zero. *)
Lemma dec_aux_spec (fuel : nat) : forall (n : N) (acc : string),
  (n < 2 ^ N.of_nat fuel)%N ->
  exists ds, dec_aux fuel n acc = (ds ++ acc)%string /\
    all_digits ds = true /\
    (forall k, digits_value ds k = (k * 10 ^ N.of_nat (String.length ds) + n)%N) /\
    ((0 < n)%N -> exists c tl, ds = String c tl /\ Ascii.eqb c "0" = false) /\
    ((0 < fuel)%nat -> ds <> EmptyString).
Proof.
  induction fuel as [| fuel IH]; intros n acc Hn.
  - exists EmptyString. cbn in Hn. assert (n = 0%N) by lia. subst n.
    repeat split; try reflexivity.
    + intros k. cbn. lia.
    + intros H; lia.
    + intros H; lia.
  - cbn [dec_aux].
    assert (Hd : (n mod 10 < 10)%N) by (apply N.mod_lt; lia).
    destruct (digit_char_spec _ Hd) as (D1 & D2 & D3).
    destruct (N.eqb_spec (n / 10) 0) as [Hz | Hnz].
    + exists (String (digit_char (n mod 10)) EmptyString).
      assert (Hsmall : n = (n mod 10)%N).
      { rewrite (N.div_mod n 10) at 1 by lia. rewrite Hz. lia. }
      repeat split.
      * cbn. rewrite D1. reflexivity.
      * intros k. cbn. rewrite D2. lia.
      * intros Hpos. eexists _, _. split; [reflexivity |]. rewrite D3.
        apply N.eqb_neq. lia.
      * discriminate.
    + assert (Hn' : (n / 10 < 2 ^ N.of_nat fuel)%N).
      { apply N.Div0.div_lt_upper_bound.
        replace (N.of_nat (S fuel)) with (N.succ (N.of_nat fuel)) in Hn by lia.
        rewrite N.pow_succ_r' in Hn. lia. }
      destruct (IH (n / 10)%N (String (digit_char (n mod 10)) acc) Hn')
        as (ds & Heq & Hall & Hval & Hhead & _).
      exists (ds ++ String (digit_char (n mod 10)) EmptyString)%string.
      repeat split.
      * rewrite Heq, string_app_assoc. reflexivity.
      * rewrite all_digits_app, Hall. cbn. rewrite D1. reflexivity.
      * intros k. rewrite digits_value_app, Hval. cbn [digits_value].
        rewrite D2, string_length_app. cbn [String.length].
        replace (N.of_nat (String.length ds + 1)) with (N.succ (N.of_nat (String.length ds))) by lia.
        rewrite N.pow_succ_r'.
        assert (Hdm : n = (10 * (n / 10) + n mod 10)%N) by (apply N.div_mod; lia).
        generalize (10 ^ N.of_nat (String.length ds))%N. intros P. nia.
      * intros _. assert (Hpos : (0 < n / 10)%N) by (apply N.neq_0_lt_0; exact Hnz).
        destruct (Hhead Hpos) as (c & tl & -> & Hc).
        eexists _, _. split; [reflexivity | exact Hc].
      * intros _. destruct ds; discriminate.
Qed.

Lemma decimal_spec (n : N) :
  exists c tl, decimal n = String c tl /\
    all_digits (String c tl) = true /\
    digits_value (String c tl) 0 = n /\
    ((0 < n)%N -> Ascii.eqb c "0" = false).
Proof.
  unfold decimal.
  assert (Hn : (n < 2 ^ N.of_nat (S (N.to_nat (N.log2 n))))%N).
  { replace (N.of_nat (S (N.to_nat (N.log2 n)))) with (N.succ (N.log2 n)) by lia.
    destruct n as [| p]; [reflexivity |]. apply N.log2_spec. lia. }
  destruct (dec_aux_spec _ n EmptyString Hn) as (ds & Heq & Hall & Hval & Hhead & Hne).
  assert (Hds : dec_aux (S (N.to_nat (N.log2 n))) n "" = ds).
  { rewrite Heq. clear. induction ds as [| c ds IH]; simpl; [reflexivity | rewrite IH; reflexivity]. }
  rewrite Hds. destruct ds as [| c tl]; [exfalso; apply Hne; [lia | reflexivity] |].
  exists c, tl. repeat split; try assumption.
  - rewrite Hval. lia.
  - intros Hpos. destruct (Hhead Hpos) as (c' & tl' & Heq' & Hc). inversion Heq'; subst. exact Hc.
Qed.

Lemma take_digits_app (ds rest : string) :
  all_digits ds = true ->
  (match rest with String c _ => is_digit c = false | EmptyString => True end) ->
  take_digits (ds ++ rest) = (ds, rest).
Proof.
  intros Hall Hrest. induction ds as [| c ds IH]; simpl.
  - destruct rest as [| c r]; [reflexivity |]. simpl. rewrite Hrest. reflexivity.
  - simpl in Hall. apply andb_true_iff in Hall as [Hc Hall]. rewrite Hc, (IH Hall). reflexivity.
Qed.

(** ** Reading back a serialised integer *)

Lemma digit_not_special (c : ascii) :
  is_digit c = true ->
  Ascii.eqb c "-" = false /\ Ascii.eqb c dq = false /\
  Ascii.eqb c "{" = false /\ Ascii.eqb c "[" = false /\ is_ws c = false /\
  (forall tl, match_constant (String c tl) = None) /\
  (forall tl, match_constant (String "-" (String c tl)) = None).
Proof.
  destruct c as [[] [] [] [] [] [] [] []]; intros H; try discriminate H;
    repeat split; reflexivity.
Qed.

Definition closes (rest : string) : Prop :=
  match rest with
  | String c _ =>
      is_digit c = false /\ Ascii.eqb c "." = false /\
      Ascii.eqb c "e" = false /\ Ascii.eqb c "E" = false
  | EmptyString => True
  end.

Lemma match_tail (rest : string) :
  closes rest -> match_frac rest = (EmptyString, rest) /\ match_exp rest = (EmptyString, rest).
Proof.
  destruct rest as [| c r]; [split; reflexivity |].
  intros (_ & H1 & H2 & H3). unfold match_frac, match_exp. rewrite H1, H2, H3.
  split; reflexivity.
Qed.

Lemma match_number_decimal (n : N) (rest : string) :
  closes rest ->
  match_number (decimal n ++ rest) = Some (JInt (Z.of_N n), rest) /\
  match_number (String "-" (decimal n ++ rest)) = Some (JInt (- Z.of_N n), rest).
Proof.
  intros Hrest. destruct (match_tail rest Hrest) as [Hf He].
  assert (Hnd : match rest with String c _ => is_digit c = false | EmptyString => True end).
  { destruct rest; [exact I | apply Hrest]. }
  destruct (decimal_spec n) as (c & tl & Heq & Hall & Hval & Hhead).
  rewrite Heq. simpl in Hall. apply andb_true_iff in Hall as [Hc Hall].
  destruct (digit_not_special c Hc) as (Hm & _).
  destruct (N.eq_dec n 0%N) as [-> | Hn].
  - vm_compute in Heq. inversion Heq; subst c tl. simpl String.append.
    unfold match_number. simpl. rewrite Hf, He. split; reflexivity.
  - assert (Hc0 : Ascii.eqb c "0" = false) by (apply Hhead; lia).
    assert (Htd : take_digits (String c (tl ++ rest)) = (String c tl, rest)).
    { change (String c (tl ++ rest))%string with (String c tl ++ rest)%string.
      apply take_digits_app; [simpl; rewrite Hc, Hall; reflexivity | exact Hnd]. }
    simpl String.append. unfold match_number.
    change (Ascii.eqb "-" "-") with true. cbv iota. rewrite Hm, Hc, Hc0, Htd, Hf, He, Hval.
    split; reflexivity.
Qed.

Lemma str_of_int_head (z : Z) (rest : string) :
  exists c tl, (str_of_int z ++ rest)%string = String c tl /\
    Ascii.eqb c dq = false /\ Ascii.eqb c "{" = false /\ Ascii.eqb c "[" = false /\
    is_ws c = false /\ match_constant (String c tl) = None.
Proof.
  destruct z as [| p | p]; unfold str_of_int.
  - eexists _, _. split; [reflexivity |]. repeat split; reflexivity.
  - destruct (decimal_spec (Z.to_N (Z.pos p))) as (c & tl & Heq & Hall & _).
    rewrite Heq. simpl in Hall. apply andb_true_iff in Hall as [Hc _].
    destruct (digit_not_special c Hc) as (_ & H1 & H2 & H3 & H4 & H5 & _).
    eexists _, _. split; [reflexivity |]. repeat split; auto.
  - destruct (decimal_spec (N.pos p)) as (c & tl & Heq & Hall & _).
    rewrite Heq. simpl in Hall. apply andb_true_iff in Hall as [Hc _].
    destruct (digit_not_special c Hc) as (_ & _ & _ & _ & _ & _ & H6).
    eexists _, _. split; [reflexivity |]. repeat split; try reflexivity. apply H6.
Qed.

Lemma match_number_int (z : Z) (rest : string) :
  closes rest -> match_number (str_of_int z ++ rest) = Some (JInt z, rest).
Proof.
  intros Hrest. destruct z as [| p | p]; unfold str_of_int.
  - apply (match_number_decimal 0%N rest Hrest).
  - destruct (match_number_decimal (Z.to_N (Z.pos p)) rest Hrest) as [H _].
    rewrite H. reflexivity.
  - destruct (match_number_decimal (N.pos p) rest Hrest) as [_ H].
    simpl String.append. rewrite H. reflexivity.
Qed.

Lemma scan_once_int (fuel : nat) (z : Z) (rest : string) :
  closes rest -> scan_once (S fuel) (str_of_int z ++ rest) = Some (JInt z, rest).
Proof.
  intros Hrest. pose proof (match_number_int z rest Hrest) as Hnum.
  destruct (str_of_int_head z rest) as (c & tl & Heq & H1 & H2 & H3 & _ & H5).
  rewrite Heq in *. cbn [scan_once]. rewrite H1, H2, H3, H5. exact Hnum.
Qed.

Lemma skip_ws_int (z : Z) (rest : string) :
  skip_ws (str_of_int z ++ rest) = (str_of_int z ++ rest)%string.
Proof.
  destruct (str_of_int_head z rest) as (c & tl & Heq & _ & _ & _ & H4 & _).
  rewrite Heq. cbn [skip_ws]. rewrite H4. reflexivity.
Qed.

(** The text [json.dumps] writes for a cursor state. *)
Definition offset_text (z : Z) : string :=
  String "{" (String dq ("offset" ++ String dq (": " ++ str_of_int z ++ "}"))).

Lemma json_dumps_offset (z : Z) : json_dumps (offset_state z) = offset_text z.
Proof. reflexivity. Qed.

Lemma object_members_offset (scan : string -> option (json * string))
    (fuel : nat) (t : string) :
  object_members scan (S fuel) [] ("offset" ++ String dq (": " ++ t)) =
    match scan (skip_ws t) with
    | None => None
    | Some (value, s3) =>
        match skip_ws s3 with
        | String sep s4 =>
            if Ascii.eqb sep "}"
            then Some (JObj (dict_of_pairs [("offset"%string, value)]), s4)
            else if Ascii.eqb sep "," then
              match skip_ws s4 with
              | String q s5 =>
                  if Ascii.eqb q dq
                  then object_members scan fuel [("offset"%string, value)] s5
                  else None
              | EmptyString => None
              end
            else None
        | EmptyString => None
        end
    end.
Proof. reflexivity. Qed.

Lemma scan_once_offset (fuel : nat) (z : Z) :
  (2 <= fuel)%nat -> scan_once fuel (offset_text z) = Some (offset_state z, EmptyString).
Proof.
  intros Hfuel. destruct fuel as [| [| fuel]]; try lia.
  unfold offset_text.
  transitivity (object_members (scan_once (S fuel)) (S fuel) []
                  ("offset" ++ String dq (": " ++ str_of_int z ++ "}")));
    [reflexivity |].
  rewrite object_members_offset, skip_ws_int.
  rewrite scan_once_int by (repeat split; reflexivity).
  reflexivity.
Qed.

Lemma json_loads_offset (z : Z) : json_loads (offset_text z) = Some (offset_state z).
Proof.
  unfold json_loads.
  replace (skip_ws (offset_text z)) with (offset_text z) by reflexivity.
  rewrite scan_once_offset; [reflexivity |].
  unfold offset_text. cbn [String.length]. lia.
Qed.

(** ** Cursors of the paginator *)

Lemma is_ascii_utf8_valid (s : string) :
  Base64.is_ascii s = true -> Utf8.utf8_valid s = true.
Proof.
  induction s as [| c s IH]; [reflexivity |].
  cbn [Base64.is_ascii Utf8.utf8_valid]. intros H.
  apply andb_true_iff in H as [Hc Hs]. rewrite Hc. apply IH, Hs.
Qed.

Lemma is_ascii_app (a b : string) :
  Base64.is_ascii (a ++ b) = Base64.is_ascii a && Base64.is_ascii b.
Proof.
  induction a as [| c a IH]; [reflexivity |].
  simpl. rewrite IH, andb_assoc. reflexivity.
Qed.

Lemma is_ascii_digits (ds : string) : all_digits ds = true -> Base64.is_ascii ds = true.
Proof.
  induction ds as [| c ds IH]; [reflexivity |]. simpl. intros H.
  apply andb_true_iff in H as [Hc Hs]. rewrite (IH Hs), andb_true_r.
  unfold is_digit in Hc. apply andb_true_iff in Hc as [_ Hc].
  apply N.leb_le in Hc. apply N.ltb_lt. lia.
Qed.

Lemma is_ascii_str_of_int (z : Z) : Base64.is_ascii (str_of_int z) = true.
Proof.
  destruct z as [| p | p]; unfold str_of_int.
  - reflexivity.
  - destruct (decimal_spec (Z.to_N (Z.pos p))) as (c & tl & -> & Hall & _).
    apply is_ascii_digits, Hall.
  - destruct (decimal_spec (N.pos p)) as (c & tl & -> & Hall & _).
    change (Base64.is_ascii (String "-" (String c tl)))
      with (true && Base64.is_ascii (String c tl)).
    apply is_ascii_digits in Hall. rewrite Hall. reflexivity.
Qed.

Lemma is_ascii_offset_text (z : Z) : Base64.is_ascii (offset_text z) = true.
Proof.
  unfold offset_text. simpl. rewrite is_ascii_app, is_ascii_str_of_int. reflexivity.
Qed.

(** Decoding a cursor issued for [offset] gives back the state. *)
Lemma cursor_payload_encode (offset : Z) :
  cursor_payload (encode_cursor (offset_state offset)) = Some (offset_state offset).
Proof.
  unfold cursor_payload, encode_cursor.
  rewrite b64decode_b64encode, json_dumps_offset.
  unfold Utf8.decode. rewrite (is_ascii_utf8_valid _ (is_ascii_offset_text offset)).
  apply json_loads_offset.
Qed.

Lemma encode_cursor_truthy (offset : Z) :
  truthy (Some (encode_cursor (offset_state offset)))
    = Some (encode_cursor (offset_state offset)).
Proof.
  unfold encode_cursor. rewrite json_dumps_offset. unfold offset_text.
  destruct (str_of_int offset ++ "}")%string as [| c [| d tl]]; reflexivity.
Qed.
(** * Properties of the paginators *)

Lemma slice_from (T : Type) (items : list T) (o L : Z) :
  0 <= o -> 0 <= L ->
  slice items o (o + L) = firstn (Z.to_nat L) (skipn (Z.to_nat o) items).
Proof.
  intros Ho HL. unfold slice.
  set (n := Z.of_nat (List.length items)).
  replace (o <? 0) with false by (symmetry; apply Z.ltb_ge; lia).
  replace (o + L <? 0) with false by (symmetry; apply Z.ltb_ge; lia).
  destruct (Z.le_gt_cases n o) as [Hbig | Hsmall].
  - rewrite (skipn_all2 items) by (subst n; rewrite Z.min_r by lia; lia).
    rewrite (skipn_all2 items) by lia. rewrite !firstn_nil. reflexivity.
  - rewrite (Z.min_l o n) by lia.
    destruct (Z.le_gt_cases (o + L) n) as [Hin | Hout].
    + rewrite Z.min_l by lia. f_equal. lia.
    + rewrite Z.min_r by lia.
      rewrite !firstn_all2; [reflexivity | |]; rewrite length_skipn; lia.
Qed.

Lemma slice_empty (T : Type) (items : list T) (o : Z) : slice items o o = [].
Proof. unfold slice. rewrite Z.sub_diag. reflexivity. Qed.

Lemma slice_beyond (T : Type) (items : list T) (o L : Z) :
  Z.of_nat (List.length items) <= o -> 0 <= L -> slice items o (o + L) = [].
Proof.
  intros Ho HL. rewrite slice_from by lia.
  rewrite skipn_all2 by lia. apply firstn_nil.
Qed.

Lemma points_at_issued (o : Z) : points_at (Some (encode_cursor (offset_state o))) o.
Proof.
  right. exists (encode_cursor (offset_state o)), [("offset"%string, Json.JInt o)].
  split; [apply encode_cursor_truthy |]. split; [apply cursor_payload_encode | reflexivity].
Qed.

Lemma points_at_none (o : Z) : points_at None o <-> o = 0.
Proof.
  split.
  - intros [[_ H] | (c & f & H & _)]; [exact H | discriminate H].
  - intros ->. left. split; reflexivity.
Qed.

(** What one call returns, in both variants, from the offset it starts at. *)
Lemma paginate_points_at (T : Type) (L : Z) (items : list T) cursor (o : Z) :
  points_at cursor o ->
  Paginator.paginate L items cursor =
    Ok (Paginator.mkPaginationResult
          (slice items o (o + L))
          (o + L <? Z.of_nat (List.length items))
          (if o + L <? Z.of_nat (List.length items)
           then Some (encode_cursor (offset_state (o + L))) else None)).
Proof.
  unfold Paginator.paginate, Paginator.decode_cursor.
  intros [[-> ->] | (c & fields & -> & -> & Hidx)].
  - reflexivity.
  - cbv beta iota delta [rbind Paginator.get_offset]. rewrite Hidx. reflexivity.
Qed.

Lemma api_paginate_points_at (T : Type) (L : Z) (items : list T) cursor (o : Z) :
  points_at cursor o ->
  ApiPagination.paginate_items items L cursor =
    Ok (ApiPagination.mkPaginatedResult
          (slice items o (o + L)) L cursor
          (ApiPagination._calculate_pagination (Z.of_nat (List.length items)) L o)).
Proof.
  unfold ApiPagination.paginate_items, ApiPagination.start_index_of,
    ApiPagination.try_offset.
  intros [[-> ->] | (c & fields & -> & -> & Hidx)].
  - reflexivity.
  - cbv beta iota.
    change (default (Json.JInt 0)
              (Some (default (Json.JInt 0) (Json.dict_get fields "offset"))))
      with (default (Json.JInt 0) (Json.dict_get fields "offset")).
    rewrite Hidx. reflexivity.
Qed.

Lemma api_has_more (total L o : Z) :
  ApiPagination.has_more (ApiPagination._calculate_pagination total L o)
    = (o + L <? total).
Proof.
  cbn. apply eq_true_iff_eq. rewrite !Z.ltb_lt. lia.
Qed.

Lemma api_next_cursor (total L o : Z) :
  ApiPagination.next_cursor (ApiPagination._calculate_pagination total L o)
    = if o + L <? total then Some (encode_cursor (offset_state (o + L))) else None.
Proof.
  pose proof (api_has_more total L o) as H. cbn in *. rewrite H. reflexivity.
Qed.

Section Walk.
Context {T : Type}.
Variable items : list T.
Variable L : Z.
Hypothesis page_size_positive : 1 <= L.

Lemma follow_reaches_end (k : nat) : forall (o : Z) cursor (fuel : nat),
  points_at cursor o -> 0 <= o ->
  Z.of_nat (List.length items) - o <= Z.of_nat k -> (k < fuel)%nat ->
  exists pages,
    Paginator.follow fuel L items cursor = Ok (Some pages) /\
    ApiPagination.follow fuel L items cursor = Ok (Some pages) /\
    concat pages = skipn (Z.to_nat o) items.
Proof.
  induction k as [| k IH]; intros o cursor fuel Hat Ho Hk Hfuel;
    (destruct fuel as [| fuel]; [lia |]);
    cbn [Paginator.follow ApiPagination.follow];
    rewrite (paginate_points_at T L items cursor o Hat),
            (api_paginate_points_at T L items cursor o Hat);
    cbn [rbind Paginator.has_more Paginator.next_cursor Paginator.items
         ApiPagination.pagination ApiPagination.items];
    rewrite api_has_more, api_next_cursor;
    destruct (Z.ltb_spec (o + L) (Z.of_nat (List.length items))) as [Hmore | Hlast].
  - lia.
  - exists [slice items o (o + L)]. repeat split. cbn [concat]. rewrite app_nil_r.
    rewrite slice_from by lia. apply firstn_all2. rewrite length_skipn. lia.
  - destruct (IH (o + L) (Some (encode_cursor (offset_state (o + L)))) fuel)
      as (pages & Hs & Ha & Hc); [apply points_at_issued | lia | lia | lia |].
    rewrite Hs, Ha. exists (slice items o (o + L) :: pages). repeat split.
    cbn [concat]. rewrite Hc, slice_from by lia.
    replace (Z.to_nat (o + L)) with (Z.to_nat L + Z.to_nat o)%nat by lia.
    rewrite <- skipn_skipn. apply firstn_skipn.
  - exists [slice items o (o + L)]. repeat split. cbn [concat]. rewrite app_nil_r.
    rewrite slice_from by lia. apply firstn_all2. rewrite length_skipn. lia.
Qed.
End Walk.

(** With a page size of zero a call below the end returns an empty page and
    a cursor for the offset it came from, in both variants. *)
Lemma zero_limit_call (T : Type) (items : list T) cursor (o : Z) :
  points_at cursor o -> o < Z.of_nat (List.length items) ->
  Paginator.paginate 0 items cursor =
    Ok (Paginator.mkPaginationResult [] true (Some (encode_cursor (offset_state o)))) /\
  exists meta,
    ApiPagination.paginate_items items 0 cursor =
      Ok (ApiPagination.mkPaginatedResult [] 0 cursor meta) /\
    ApiPagination.has_more meta = true /\
    ApiPagination.next_cursor meta = Some (encode_cursor (offset_state o)).
Proof.
  intros Hat Ho.
  rewrite (paginate_points_at T 0 items cursor o Hat),
          (api_paginate_points_at T 0 items cursor o Hat).
  rewrite Z.add_0_r, slice_empty.
  replace (o <? Z.of_nat (List.length items)) with true by (symmetry; apply Z.ltb_lt; lia).
  split; [reflexivity |]. eexists. split; [reflexivity |].
  rewrite api_has_more, api_next_cursor, Z.add_0_r.
  replace (o <? Z.of_nat (List.length items)) with true by (symmetry; apply Z.ltb_lt; lia).
  split; reflexivity.
Qed.

Lemma zero_limit_never_ends (T : Type) (items : list T) (o : Z) (fuel : nat) :
  o < Z.of_nat (List.length items) ->
  forall cursor, points_at cursor o ->
  Paginator.follow fuel 0 items cursor = Ok None /\
  ApiPagination.follow fuel 0 items cursor = Ok None.
Proof.
  intros Ho. induction fuel as [| fuel IH]; intros cursor Hat; [split; reflexivity |].
  destruct (zero_limit_call T items cursor o Hat Ho) as (Hs & meta & Ha & Hm & Hn).
  destruct (IH _ (points_at_issued o)) as [IHs IHa].
  cbn [Paginator.follow ApiPagination.follow]. rewrite Hs, Ha.
  cbn [rbind Paginator.has_more Paginator.next_cursor ApiPagination.pagination].
  rewrite Hm, Hn, IHs, IHa. split; reflexivity.
Qed.

(** C2 (amended) -- pagination round trip. For every list and every page
    size of at least one, a client that starts without a cursor and follows
    [next_cursor] until [has_more] is false finishes within
    [length items + 1] calls, and the pages it has collected, put end to
    end, are the original list: every element once, in order. This holds
    for [Paginator.paginate] and for the older [paginate_items]. *)
Theorem C2_pagination_round_trip
    (T : Type) (items : list T) (L : Z) (fuel : nat) :
  1 <= L ->
  (List.length items < fuel)%nat ->
  exists pages,
    Paginator.follow fuel L items None = Ok (Some pages) /\
    ApiPagination.follow fuel L items None = Ok (Some pages) /\
    concat pages = items.
Proof.
  intros HL Hfuel.
  destruct (follow_reaches_end items L HL (List.length items) 0 None fuel)
    as (pages & Hs & Ha & Hc);
    [apply points_at_none; reflexivity | lia | lia | exact Hfuel |].
  exists pages. repeat split; assumption.
Qed.

Lemma C2_pagination_round_trip_witness :
  exists pages,
    Paginator.follow 11 3 [0; 1; 2; 3; 4; 5; 6; 7; 8; 9] None = Ok (Some pages) /\
    ApiPagination.follow 11 3 [0; 1; 2; 3; 4; 5; 6; 7; 8; 9] None = Ok (Some pages) /\
    concat pages = [0; 1; 2; 3; 4; 5; 6; 7; 8; 9].
Proof.
  apply (C2_pagination_round_trip Z [0; 1; 2; 3; 4; 5; 6; 7; 8; 9] 3 11).
  - lia.
  - cbn. lia.
Defined.

(** C2 (as stated) fails for a page size of zero: over a one-element list the
    client never sees [has_more = false], however many calls it makes. *)
Lemma C2_zero_page_size_counterexample :
  ~ (exists fuel pages, Paginator.follow fuel 0 [7] None = Ok (Some pages)) /\
  ~ (exists fuel pages, ApiPagination.follow fuel 0 [7] None = Ok (Some pages)).
Proof.
  split; intros (fuel & pages & H);
    destruct (zero_limit_never_ends Z [7] 0 fuel) with (cursor := @None string) as [Hs Ha];
    try (cbn; lia); try (apply points_at_none; reflexivity);
    congruence.
Qed.



Lemma slice_past_end (T : Type) (items : list T) (o stop : Z) :
  Z.of_nat (List.length items) <= o -> slice items o stop = [].
Proof.
  intros Ho. unfold slice.
  set (n := Z.of_nat (List.length items)).
  assert (Hn : 0 <= n) by (subst n; lia).
  replace (o <? 0) with false by (symmetry; apply Z.ltb_ge; lia).
  rewrite (Z.min_r o n) by lia.
  replace (Z.to_nat ((if stop <? 0 then Z.max 0 (stop + n) else Z.min stop n) - n))
    with 0%nat; [reflexivity |].
  destruct (Z.ltb_spec stop 0); lia.
Qed.

Lemma api_previous_cursor (total L o : Z) :
  ApiPagination.previous_cursor (ApiPagination._calculate_pagination total L o)
    = if 0 <? o then Some (encode_cursor (offset_state (Z.max 0 (o - L)))) else None.
Proof. reflexivity. Qed.

(** C7 (amended) -- offsets and the end of the list. Neither paginator
    checks the sign of a decoded offset or of the page size. What holds, for
    a cursor of ordinary size that decodes to the integer offset [o], in
    [Paginator.paginate] and in the older [paginate_items] alike: when [o]
    is at or beyond the end of the list the call returns an empty page
    without an error, and, provided [o] plus the page size is not below the
    length either, [has_more = false] and no next cursor; and a call that
    starts at an offset [o >= 0] with a page size [>= 0] only issues cursors
    that decode to offsets [>= 0]: [o] plus the page size for the next page
    and, in the older paginator, [max(0, o - page size)] for the previous
    one. *)
Theorem C7_offset_beyond_end
    (T : Type) (items : list T) (L : Z) (cursor : option string) (o : Z) :
  points_at cursor o ->
  ordinary cursor = true ->
  exists page legacy,
    Paginator.paginate L items cursor = Ok page /\
    ApiPagination.paginate_items items L cursor = Ok legacy /\
    (Z.of_nat (List.length items) <= o ->
       Paginator.items page = [] /\ ApiPagination.items legacy = [] /\
       (Z.of_nat (List.length items) <= o + L ->
          Paginator.has_more page = false /\ Paginator.next_cursor page = None /\
          ApiPagination.has_more (ApiPagination.pagination legacy) = false /\
          ApiPagination.next_cursor (ApiPagination.pagination legacy) = None)) /\
    (0 <= o -> 0 <= L ->
       (forall c, Paginator.next_cursor page = Some c ->
          points_at (Some c) (o + L) /\ 0 <= o + L) /\
       (forall c, ApiPagination.next_cursor (ApiPagination.pagination legacy) = Some c ->
          points_at (Some c) (o + L) /\ 0 <= o + L) /\
       (forall c, ApiPagination.previous_cursor (ApiPagination.pagination legacy) = Some c ->
          points_at (Some c) (Z.max 0 (o - L)) /\ 0 <= Z.max 0 (o - L))).
Proof.
  intros Hat _.
  rewrite (paginate_points_at T L items cursor o Hat),
          (api_paginate_points_at T L items cursor o Hat).
  eexists _, _. split; [reflexivity |]. split; [reflexivity |].
  cbn [Paginator.items Paginator.has_more Paginator.next_cursor
       ApiPagination.items ApiPagination.pagination].
  rewrite api_has_more, api_next_cursor, api_previous_cursor. split.
  - intros Ho. rewrite slice_past_end by exact Ho.
    split; [reflexivity |]. split; [reflexivity |]. intros Hend.
    replace (o + L <? Z.of_nat (List.length items)) with false
      by (symmetry; apply Z.ltb_ge; lia).
    repeat split.
  - intros Ho HL. split; [| split]; intros c Hc.
    + destruct (o + L <? Z.of_nat (List.length items)); [| discriminate].
      inversion Hc; subst c. split; [apply points_at_issued | lia].
    + destruct (o + L <? Z.of_nat (List.length items)); [| discriminate].
      inversion Hc; subst c. split; [apply points_at_issued | lia].
    + destruct (0 <? o); [| discriminate].
      inversion Hc; subst c. split; [apply points_at_issued | lia].
Qed.

Lemma C7_offset_beyond_end_witness :
  exists page legacy,
    Paginator.paginate 3 [0; 1; 2; 3; 4; 5; 6; 7; 8; 9]
        (Some (encode_cursor (offset_state 20))) = Ok page /\
    ApiPagination.paginate_items [0; 1; 2; 3; 4; 5; 6; 7; 8; 9] 3
        (Some (encode_cursor (offset_state 20))) = Ok legacy /\
    Paginator.items page = [] /\ Paginator.has_more page = false /\
    ApiPagination.items legacy = [] /\
    ApiPagination.has_more (ApiPagination.pagination legacy) = false.
Proof.
  destruct (C7_offset_beyond_end Z [0; 1; 2; 3; 4; 5; 6; 7; 8; 9] 3
              (Some (encode_cursor (offset_state 20))) 20)
    as (page & legacy & Hp & Hl & Hend & _).
  - apply points_at_issued.
  - vm_compute. reflexivity.
  - exists page, legacy. destruct Hend as (H1 & H2 & Hmore); [cbn; lia |].
    destruct Hmore as (H3 & _ & H4 & _); [cbn; lia |].
    repeat split; assumption.
Defined.

(** The cursor [eyJvZmZzZXQiOiAtMn0=] is the base64 text of the JSON object
    with [offset] set to -2. *)
Definition cursor_minus_two : string := "eyJvZmZzZXQiOiAtMn0=".

(** C7 (as stated) fails twice. A cursor whose offset is negative is
    accepted, by both paginators, and served by Python's rule for negative
    slice indices. And with a negative page size a cursor beyond the end of
    the list is answered with [has_more = true] and a next cursor: offset 5
    over three items with page size -4. *)
Lemma C7_negative_offset_counterexample :
  (cursor_payload cursor_minus_two = Some (offset_state (-2)) /\
   Paginator.decode_cursor cursor_minus_two = Ok (offset_state (-2)) /\
   Paginator.paginate 1 [10; 20; 30] (Some cursor_minus_two) =
     Ok (Paginator.mkPaginationResult [20] true
           (Some (encode_cursor (offset_state (-1))))) /\
   ApiPagination.decode_cursor (Some cursor_minus_two) = (Json.JInt (-2), true) /\
   (exists meta,
      ApiPagination.paginate_items [10; 20; 30] 1 (Some cursor_minus_two) =
        Ok (ApiPagination.mkPaginatedResult [20] 1 (Some cursor_minus_two) meta))) /\
  (Paginator.paginate (-4) [10; 20; 30] (Some (encode_cursor (offset_state 5))) =
     Ok (Paginator.mkPaginationResult [] true
           (Some (encode_cursor (offset_state 1)))) /\
   (exists meta,
      ApiPagination.paginate_items [10; 20; 30] (-4)
          (Some (encode_cursor (offset_state 5))) =
        Ok (ApiPagination.mkPaginatedResult [] (-4)
              (Some (encode_cursor (offset_state 5))) meta) /\
      ApiPagination.has_more meta = true)).
Proof.
  split.
  - repeat split; try (vm_compute; reflexivity).
    eexists. vm_compute. reflexivity.
  - split; [vm_compute; reflexivity |].
    eexists. split; vm_compute; reflexivity.
Qed.






(** The repository's own test input is rejected by the Paginator module;
    the older [decode_cursor] reports it as [(0, False)] instead. *)
Lemma invalid_cursor_example :
  Paginator.decode_cursor "invalid-cursor" = Raise PaginationError /\
  Paginator.paginate 3 [0; 1; 2] (Some "invalid-cursor"%string) = Raise PaginationError /\
  ApiPagination.decode_cursor (Some "invalid-cursor"%string) = (Json.JInt 0, false).
Proof. repeat split; vm_compute; reflexivity. Qed.
(** * Properties of the compressor *)

Import Compression.

Lemma verified_spec (decompressed : option string) (content compressed : string) z :
  verified decompressed content compressed = Some z <->
  z = compressed /\ decompressed = Some content.
Proof.
  unfold verified. destruct decompressed as [d |].
  - destruct (String.eqb_spec d content) as [-> | Hne]; split.
    + intros H; inversion H; auto.
    + intros [-> _]; reflexivity.
    + discriminate.
    + intros [_ H]; inversion H; congruence.
  - split; [discriminate | intros [_ H]; discriminate H].
Qed.

Lemma compress_content_spec (lib : Codecs) (level : Z) (content encoding z : string) :
  compress_content lib level content encoding = Some z <->
  lib_compress lib level encoding content = Some z /\
  lib_decompress lib encoding z = Some content.
Proof.
  unfold compress_content, lib_compress, lib_decompress.
  destruct (String.eqb encoding "br");
    [| destruct (String.eqb encoding "gzip");
       [| destruct (String.eqb encoding "deflate")]].
  4: { split; [discriminate | intros [H _]; discriminate H]. }
  all: match goal with
       | |- context [match ?c with Some _ => _ | None => _ end] =>
           destruct c as [compressed |] eqn:Hc
       end.
  all: try (split; [discriminate | intros [H _]; discriminate H]).
  all: rewrite verified_spec; split;
    [ intros [-> Hd]; auto
    | intros [Hz Hd]; inversion Hz; subst; auto ].
Qed.

Lemma compress_content_api_spec (lib : Codecs) (level : Z) (content encoding z : string) :
  compress_content_api lib level content encoding = Some z ->
  supported encoding = true /\
  (String.eqb encoding "br" = false \/ level <= 11 ->
   lib_compress lib level encoding content = Some z).
Proof.
  unfold compress_content_api, supported, lib_compress.
  destruct (String.eqb encoding "br").
  - intros H. split; [reflexivity |]. intros [Hbr | Hlevel]; [discriminate |].
    rewrite Z.min_r by exact Hlevel. exact H.
  - destruct (String.eqb encoding "gzip"); [intros H; split; [reflexivity | auto] |].
    destruct (String.eqb encoding "deflate"); [intros H; split; [reflexivity | auto] |].
    discriminate.
Qed.

(** C6 (amended) -- compression is verified before it is handed out, in the
    service middleware. For every content, level and encoding name,
    [compress_content] of the service middleware returns either nothing or
    the bytes the library produced for a supported encoding, and only after
    decompressing them gave back the original content byte for byte; a
    library exception in either direction, a mismatch, and an unsupported
    encoding all give nothing, and no exception leaves it. The older
    [compress_content] of [src/api] hands out what the library produced for
    a supported encoding without decompressing it: whatever the service
    middleware returns the older one returns too, and what the older one
    returns the service middleware returns exactly when it decompresses to
    the content (for brotli, at a level of at most 11, where both ask the
    library for the same quality). *)
Theorem C6_compress_content_verified
    (lib : Codecs) (level : Z) (content encoding : string) :
  (forall z, compress_content lib level content encoding = Some z ->
     supported encoding = true /\
     lib_compress lib level encoding content = Some z /\
     lib_decompress lib encoding z = Some content) /\
  (lib_compress lib level encoding content = None ->
     compress_content lib level content encoding = None) /\
  (forall z, lib_compress lib level encoding content = Some z ->
     lib_decompress lib encoding z <> Some content ->
     compress_content lib level content encoding = None) /\
  (forall z, lib_compress lib level encoding content = Some z ->
     lib_decompress lib encoding z = Some content ->
     compress_content lib level content encoding = Some z) /\
  (supported encoding = false -> compress_content lib level content encoding = None) /\
  (* the older middleware *)
  (supported encoding = false ->
     compress_content_api lib level content encoding = None) /\
  (String.eqb encoding "br" = false \/ level <= 11 ->
     (forall z, compress_content lib level content encoding = Some z ->
        compress_content_api lib level content encoding = Some z) /\
     (forall z, compress_content_api lib level content encoding = Some z ->
        (lib_decompress lib encoding z = Some content <->
         compress_content lib level content encoding = Some z))).
Proof.
  split; [| split; [| split; [| split; [| split; [| split]]]]].
  - intros z H. apply compress_content_spec in H as [Hc Hd]. split; [| split; assumption].
    unfold lib_compress, supported in *.
    destruct (String.eqb encoding "br"); [reflexivity |].
    destruct (String.eqb encoding "gzip"); [reflexivity |].
    destruct (String.eqb encoding "deflate"); [reflexivity | discriminate].
  - intros Hnone. destruct (compress_content lib level content encoding) as [z |] eqn:Hz;
      [| reflexivity].
    apply compress_content_spec in Hz as [Hc _]. congruence.
  - intros z Hc Hd. destruct (compress_content lib level content encoding) as [z' |] eqn:Hz;
      [| reflexivity].
    apply compress_content_spec in Hz as [Hc' Hd']. congruence.
  - intros z Hc Hd. apply compress_content_spec. auto.
  - unfold supported, compress_content.
    destruct (String.eqb encoding "br"); [discriminate |].
    destruct (String.eqb encoding "gzip"); [discriminate |].
    destruct (String.eqb encoding "deflate"); [discriminate | reflexivity].
  - unfold supported, compress_content_api.
    destruct (String.eqb encoding "br"); [discriminate |].
    destruct (String.eqb encoding "gzip"); [discriminate |].
    destruct (String.eqb encoding "deflate"); [discriminate | reflexivity].
  - intros Hsame. split.
    + intros z H. apply compress_content_spec in H as [Hc _].
      unfold lib_compress in Hc. unfold compress_content_api.
      destruct (String.eqb encoding "br"); [| exact Hc].
      destruct Hsame as [Hbr | Hlevel]; [discriminate |].
      rewrite Z.min_r in Hc by exact Hlevel. exact Hc.
    + intros z H. destruct (compress_content_api_spec _ _ _ _ _ H) as [_ Hc].
      specialize (Hc Hsame). rewrite compress_content_spec. tauto.
Qed.

(** C6 (as stated) fails for the older middleware: with a library whose
    brotli output does not decompress to the input, [compress_content] of
    [src/api] hands the garbled bytes out, where the service middleware
    returns nothing. *)
Lemma C6_api_unverified_counterexample :
  compress_content_api garbling 6 "hello" "br" = Some "xhello"%string /\
  lib_decompress garbling "br" "xhello" <> Some "hello"%string /\
  compress_content garbling 6 "hello" "br" = None.
Proof. split; [reflexivity | split; [discriminate | reflexivity]]. Qed.

(** With a library that stores content unchanged every supported encoding
    passes the check of the service middleware. *)
Lemma compress_content_examples :
  compress_content stored 6 "hello" "gzip" = Some "hello"%string /\
  compress_content stored 6 EmptyString "deflate" = Some EmptyString /\
  compress_content stored 6 "hello" "identity" = None.
Proof. repeat split; reflexivity. Qed.

(** * Properties of the validator *)

Import Validation.

Definition long_url : string := ("https://" ++ repeat_char "a" 3000)%string.
Definition good_key : string := ("sk-" ++ repeat_char "a" 32)%string.

(** C8 -- the validator rejection table, evaluated. With
    [max_url_length = 2048] and [allowed_schemes = ["http", "https"]],
    whatever [validators.url] answers: ["not-a-url"] and ["ftp://x.com"] are
    rejected (as a malformed URL, or else for their scheme); a URL of 3008
    characters is rejected with "URL length exceeds maximum of 2048
    characters"; the key made of "sk-" and 32 letters is accepted. The last
    row differs from the table: ["invalid-key"] is answered with "API key is
    too short", because [validate_api_key] tests the length before the
    pattern. *)
Theorem C8_validator_rejection_table
    (validators_url : string -> bool) (blocked : list string) (max_content : Z) :
  let self := mkRequestValidator 2048 ["http"; "https"]%string blocked max_content in
  validate_url validators_url self "not-a-url" =
    Some (if validators_url "not-a-url" then "URL scheme must be one of: http, https"
          else "Invalid URL format")%string /\
  validate_url validators_url self "ftp://x.com" =
    Some (if validators_url "ftp://x.com" then "URL scheme must be one of: http, https"
          else "Invalid URL format")%string /\
  validate_url validators_url self long_url =
    Some "URL length exceeds maximum of 2048 characters"%string /\
  validate_api_key (Some good_key) = None /\
  validate_api_key (Some "invalid-key"%string) = Some "API key is too short"%string.
Proof.
  intros self. split; [| split; [| split; [| split]]].
  - unfold validate_url.
    change (max_url_length self <? Utf8.py_len "not-a-url") with false. cbv iota.
    destruct (validators_url "not-a-url"); reflexivity.
  - unfold validate_url.
    change (max_url_length self <? Utf8.py_len "ftp://x.com") with false. cbv iota.
    destruct (validators_url "ftp://x.com"); reflexivity.
  - unfold validate_url.
    replace (max_url_length self <? Utf8.py_len long_url) with true
      by (vm_compute; reflexivity).
    vm_compute. reflexivity.
  - vm_compute. reflexivity.
  - vm_compute. reflexivity.
Qed.

(** C8, the failing input: the repository's unit test
    [test_validate_api_key_invalid_format] expects "Invalid API key format"
    for ["invalid-key"]; the code answers "API key is too short". *)
Lemma C8_invalid_key_counterexample :
  validate_api_key (Some "invalid-key"%string) = Some "API key is too short"%string /\
  validate_api_key (Some "invalid-key"%string) <> Some "Invalid API key format"%string.
Proof. split; [vm_compute; reflexivity | vm_compute; discriminate]. Qed.

(** * Further properties of the rate limiter *)

Import RateLimitMiddleware.

(** X1 -- waiting never loses tokens. With a rate that is not negative,
    the tokens available to a key at a later clock reading are at least
    those available at an earlier one, and never more than [burst_limit]. *)
Theorem X1_waiting_never_loses_tokens
    (self : RateLimiter) (key : string) (now later : Q) :
  (0 <= rate self)%Q ->
  (now <= later)%Q ->
  ((_get_tokens self key now).1 <= (_get_tokens self key later).1)%Q /\
  ((_get_tokens self key later).1 <= inject_Z (burst_limit self))%Q.
Proof.
  intros Hrate Hlater. split; [| apply get_tokens_le_burst].
  unfold _get_tokens. destruct (tokens self !! key) as [[q last] |]; cbn [fst].
  - apply Q.min_le_compat_l.
    assert (0 <= (later - now) * rate self)%Q by (apply Qmult_le_0_compat; lra).
    lra.
  - apply Qle_refl.
Qed.

Lemma X1_waiting_never_loses_tokens_witness :
  ((_get_tokens drained "10.0.0.1" 0).1 <= (_get_tokens drained "10.0.0.1" 3).1)%Q /\
  ((_get_tokens drained "10.0.0.1" 3).1 <= inject_Z (burst_limit drained))%Q.
Proof.
  apply (X1_waiting_never_loses_tokens drained "10.0.0.1" 0 3); vm_compute; discriminate.
Defined.

(** Every stored count lies between zero and [burst_limit - 1]. *)
Definition in_range (self : RateLimiter) : Prop :=
  forall k q last, tokens self !! k = Some (q, last) ->
    (0 <= q)%Q /\ (q <= inject_Z (burst_limit self) - 1)%Q.

Lemma is_allowed_in_range self r now :
  in_range self -> in_range (is_allowed self r now).2 /\
  burst_limit (is_allowed self r now).2 = burst_limit self.
Proof.
  intros Hin. unfold is_allowed.
  pose proof (get_tokens_le_burst self (key_func self r) now) as Hle.
  destruct (_get_tokens self (key_func self r) now) as [q n']. cbn [fst] in Hle.
  destruct (Qle_bool 1 q) eqn:Hq; cbn [snd]; [| split; [exact Hin | reflexivity]].
  apply Qle_bool_iff in Hq. split; [| reflexivity].
  intros k q0 last. cbn [tokens _update_tokens burst_limit].
  destruct (decide (key_func self r = k)) as [-> | Hne].
  - rewrite lookup_insert_eq. intros H. inversion H; subst. split; lra.
  - rewrite lookup_insert_ne by exact Hne. apply Hin.
Qed.

Lemma run_calls_in_range calls : forall self,
  in_range self -> in_range (run_calls self calls).2 /\
  burst_limit (run_calls self calls).2 = burst_limit self.
Proof.
  induction calls as [| [r now] calls IH]; intros self Hin; [split; [exact Hin | reflexivity] |].
  cbn [run_calls].
  destruct (is_allowed_in_range self r now Hin) as [H1 Hb1].
  destruct (is_allowed self r now) as [ok self1]. cbn [snd] in H1, Hb1.
  destruct (IH self1 H1) as [H2 Hb2].
  destruct (run_calls self1 calls) as [oks self2]. cbn [snd] in *.
  split; [exact H2 | congruence].
Qed.

(** X2 -- token invariant. After any sequence of [is_allowed] calls on a
    fresh limiter, for any requests and any clock readings, every stored
    token count is at least zero and at most [burst_limit - 1]. *)
Theorem X2_stored_tokens_in_range
    (requests_per_minute burst : Z) (kf : option (Request -> string))
    (calls : list (Request * Q)) (k : string) (q last : Q) :
  tokens (run_calls (RateLimit.init requests_per_minute burst kf) calls).2 !! k = Some (q, last) ->
  (0 <= q)%Q /\ (q <= inject_Z burst - 1)%Q.
Proof.
  intros H.
  destruct (run_calls_in_range calls (RateLimit.init requests_per_minute burst kf)) as [Hin Hb].
  - intros k' q' l' Hl. cbn in Hl. rewrite lookup_empty in Hl. discriminate.
  - destruct (Hin k q last H) as [H0 H1]. rewrite Hb in H1. split; assumption.
Qed.

Lemma X2_stored_tokens_in_range_witness :
  exists q last,
    tokens (run_calls (RateLimit.init 60 2 None) [(req_a, 5%Q); (req_a, 7%Q)]).2
      !! "10.0.0.1" = Some (q, last) /\
    (0 <= q)%Q /\ (q <= inject_Z 2 - 1)%Q.
Proof.
  destruct (tokens (run_calls (RateLimit.init 60 2 None) [(req_a, 5%Q); (req_a, 7%Q)]).2
              !! "10.0.0.1") as [[q last] |] eqn:H; [| vm_compute in H; discriminate H].
  exists q, last. split; [reflexivity |].
  exact (X2_stored_tokens_in_range 60 2 None [(req_a, 5%Q); (req_a, 7%Q)]
           "10.0.0.1" q last H).
Defined.

Lemma is_allowed_config self r now :
  let self' := (is_allowed self r now).2 in
  rate self' = rate self /\ burst_limit self' = burst_limit self /\
  key_func self' = key_func self.
Proof.
  unfold is_allowed. destruct (_get_tokens _ _ _) as [q n].
  destruct (Qle_bool 1 q); repeat split; reflexivity.
Qed.

Lemma is_allowed_answer self r now :
  (is_allowed self r now).1 = Qle_bool 1 (_get_tokens self (key_func self r) now).1.
Proof.
  unfold is_allowed. destruct (_get_tokens _ _ _) as [q n]. cbn [fst].
  destruct (Qle_bool 1 q); reflexivity.
Qed.

(** Two limiters that treat the key [k] alike. *)
Definition same_bucket (k : string) (s1 s2 : RateLimiter) : Prop :=
  tokens s1 !! k = tokens s2 !! k /\ rate s1 = rate s2 /\
  burst_limit s1 = burst_limit s2 /\ key_func s1 = key_func s2.

Lemma is_allowed_same_bucket k s1 s2 r now :
  same_bucket k s1 s2 -> key_func s1 r = k ->
  (is_allowed s1 r now).1 = (is_allowed s2 r now).1 /\
  same_bucket k (is_allowed s1 r now).2 (is_allowed s2 r now).2.
Proof.
  intros Hs Hkey. pose proof Hs as (Ht & Hr & Hb & Hk). unfold is_allowed, _get_tokens.
  rewrite <- Hk, Hkey, <- Ht, <- Hr, <- Hb.
  destruct (tokens s1 !! k) as [[q last] |]; cbn [fst snd].
  - destruct (Qle_bool 1 _); cbn [fst snd]; split; try reflexivity.
    + repeat split; cbn; try assumption. rewrite !lookup_insert_eq. reflexivity.
    + exact Hs.
  - destruct (Qle_bool 1 _); cbn [fst snd]; split; try reflexivity.
    + repeat split; cbn; try assumption. rewrite !lookup_insert_eq. reflexivity.
    + exact Hs.
Qed.

Lemma is_allowed_other_bucket k s r now :
  key_func s r <> k -> same_bucket k (is_allowed s r now).2 s.
Proof.
  intros Hne. unfold is_allowed. destruct (_get_tokens _ _ _) as [q n].
  destruct (Qle_bool 1 q); cbn [snd]; repeat split; cbn.
  apply lookup_insert_ne. exact Hne.
Qed.

Lemma same_bucket_trans k s1 s2 s3 :
  same_bucket k s1 s2 -> same_bucket k s2 s3 -> same_bucket k s1 s3.
Proof. intros (A & B & C & D) (A' & B' & C' & D'). repeat split; congruence. Qed.

Lemma run_calls_isolated k calls : forall s1 s2,
  same_bucket k s1 s2 ->
  answers_for s1 k calls (run_calls s1 calls).1 = (run_calls s2 (calls_for s1 k calls)).1.
Proof.
  induction calls as [| [r now] calls IH]; intros s1 s2 Hs; [reflexivity |].
  cbn [run_calls calls_for List.filter fst].
  destruct (is_allowed_config s1 r now) as (_ & _ & Hkf).
  destruct (is_allowed s1 r now) as [ok s1'] eqn:H1. cbn [snd] in Hkf.
  destruct (run_calls s1' calls) as [oks s1''] eqn:Hrun. cbn [fst answers_for].
  assert (Hrest : forall s2', same_bucket k s1' s2' ->
            answers_for s1 k calls oks = (run_calls s2' (calls_for s1 k calls)).1).
  { intros s2' Hs'. specialize (IH s1' s2' Hs'). rewrite Hrun in IH. cbn [fst] in IH.
    assert (Hc : calls_for s1' k calls = calls_for s1 k calls)
      by (unfold calls_for; rewrite Hkf; reflexivity).
    assert (Ha : forall l, answers_for s1' k calls l = answers_for s1 k calls l).
    { clear -Hkf. induction calls as [| [r0 n0] calls IHc]; intros l; [reflexivity |].
      destruct l as [| a l]; [reflexivity |]. cbn [answers_for]. rewrite Hkf, IHc.
      reflexivity. }
    rewrite <- Hc, <- Ha. exact IH. }
  destruct (String.eqb_spec (key_func s1 r) k) as [Hk | Hk].
  - cbn [run_calls].
    destruct (is_allowed_same_bucket k s1 s2 r now Hs Hk) as [Ha Hb].
    rewrite H1 in Ha, Hb. cbn [fst snd] in Ha, Hb.
    destruct (is_allowed s2 r now) as [ok2 s2'] eqn:H2. cbn [fst snd] in Ha, Hb.
    rewrite (Hrest s2' Hb). destruct (run_calls s2' _) as [oks2 s2'']. cbn [fst].
    congruence.
  - apply Hrest. apply same_bucket_trans with s1; [| exact Hs].
    pose proof (is_allowed_other_bucket k s1 r now Hk) as Ho. rewrite H1 in Ho. exact Ho.
Qed.

(** X4 -- keys do not interfere. In any run of [is_allowed] calls, the
    answers given to the requests of one key are the answers the same
    limiter gives when only those requests are made, at the same times. *)
Theorem X4_keys_are_isolated
    (self : RateLimiter) (k : string) (calls : list (Request * Q)) :
  answers_for self k calls (run_calls self calls).1
    = (run_calls self (calls_for self k calls)).1.
Proof.
  apply run_calls_isolated. repeat split.
Qed.

Lemma py_int_inject (q : Q) (m : Z) : (q == inject_Z m)%Q -> py_int q = m.
Proof.
  unfold Qeq, py_int. cbn. intros H. rewrite Z.mul_1_r in H. rewrite H.
  apply Z.quot_mul. discriminate.
Qed.

Lemma call_avail (excl : list string) (k : string) (t : Q) (m : Z)
    (self : RateLimiter) (r : Request) :
  avail k t m self -> key_func self r = k ->
  existsb (fun path => String.prefix path (url_path r)) excl = false ->
  (0 < rate self)%Q ->
  exists o self',
    call excl self true r t t = (o, self') /\
    key_func self' = key_func self /\ rate self' = rate self /\
    burst_limit self' = burst_limit self /\
    avail k t (if 1 <=? m then m - 1 else m) self' /\
    (1 <= m -> o = Forwarded (burst_limit self) (m - 1) (py_int (t + 60))) /\
    (m < 1 -> exists ra, o = TooManyRequests ra (py_int ra) /\
                (ra == (1 - inject_Z m) / rate self)%Q).
Proof.
  intros Hav Hk Hex Hrate.
  destruct (is_allowed_avail k t m self r Hav Hk) as (self' & Hia & Hkf & Hav').
  destruct (is_allowed_config self r t) as (Hr & Hb & _). rewrite Hia in Hr, Hb.
  cbn [snd] in Hr, Hb.
  destruct (get_tokens_avail k t _ self' Hav') as (q & Hg & Hq).
  unfold call. cbn [negb]. rewrite Hex, Hia.
  destruct (Z.leb_spec 1 m) as [Hm | Hm]; cbn [negb].
  - rewrite Hkf, Hk, Hg. eexists _, self'. split; [reflexivity |].
    repeat split; try assumption.
    + intros _. rewrite Hb, (py_int_inject q (m - 1) Hq). reflexivity.
    + intros Hlt. lia.
  - unfold get_retry_after_checked. rewrite Hkf, Hk, Hg.
    assert (Hq1 : Qle_bool 1 q = false).
    { destruct (Qle_bool 1 q) eqn:E; [| reflexivity]. apply Qle_bool_iff in E.
      rewrite Hq in E. change 1%Q with (inject_Z 1) in E. rewrite <- Zle_Qle in E. lia. }
    assert (Hne : Qeq_bool (rate self') 0 = false).
    { destruct (Qeq_bool (rate self') 0) eqn:E; [| reflexivity].
      apply Qeq_bool_iff in E. rewrite Hr in E. lra. }
    rewrite Hq1, Hne. eexists _, self'. split; [reflexivity |].
    repeat split; try assumption.
    + intros Hge. lia.
    + intros _. eexists. split; [reflexivity |]. rewrite Hr, Hq. reflexivity.
Qed.

Lemma serve_avail (excl : list string) (k : string) (t : Q) (requests : list Request) :
  forall (m : Z) (self : RateLimiter),
  avail k t m self -> 0 <= m ->
  Forall (fun r => key_func self r = k) requests ->
  Forall (fun r => existsb (fun path => String.prefix path (url_path r)) excl = false)
         requests ->
  (0 < rate self)%Q ->
  forall (i : nat) (o : outcome),
    (serve excl self requests t).1 !! i = Some o ->
    (Z.of_nat i < m ->
       o = Forwarded (burst_limit self) (m - Z.of_nat i - 1) (py_int (t + 60))) /\
    (m <= Z.of_nat i ->
       exists ra, o = TooManyRequests ra (py_int ra) /\ (ra == 1 / rate self)%Q).
Proof.
  induction requests as [| r requests IH]; intros m self Hav Hm Hkeys Hexs Hrate i o Hi.
  - destruct i; discriminate Hi.
  - pose proof (Forall_inv Hkeys) as Hk. pose proof (Forall_inv_tail Hkeys) as Hkeys'.
    pose proof (Forall_inv Hexs) as Hex. pose proof (Forall_inv_tail Hexs) as Hexs'.
    cbn beta in Hk, Hex.
    destruct (call_avail excl k t m self r Hav Hk Hex Hrate)
      as (o1 & self' & Hcall & Hkf & Hr & Hb & Hav' & Hfw & Hlim).
    cbn [serve] in Hi. rewrite Hcall in Hi.
    destruct (serve excl self' requests t) as [os self2] eqn:Hserve. cbn [fst] in Hi.
    destruct i as [| j].
    + cbn in Hi. inversion Hi; subst o1. split.
      * intros Hlt. rewrite (Hfw ltac:(lia)). f_equal. lia.
      * intros Hge. destruct (Hlim ltac:(lia)) as (ra & -> & Hra).
        exists ra. split; [reflexivity |]. rewrite Hra.
        replace m with 0 by lia. reflexivity.
    + cbn in Hi.
      assert (Hkeys2 : Forall (fun r => key_func self' r = k) requests)
        by (rewrite Hkf; exact Hkeys').
      assert (Hrate2 : (0 < rate self')%Q) by (rewrite Hr; exact Hrate).
      specialize (IH (if 1 <=? m then m - 1 else m) self' Hav').
      rewrite Hserve in IH. cbn [fst] in IH.
      destruct (Z.leb_spec 1 m) as [H1 | H1].
      * destruct (IH ltac:(lia) Hkeys2 Hexs' Hrate2 j o Hi) as [IHf IHl].
        rewrite Hb, Hr in *. split.
        -- intros Hlt. rewrite IHf by lia. f_equal. lia.
        -- intros Hge. apply IHl. lia.
      * destruct (IH ltac:(lia) Hkeys2 Hexs' Hrate2 j o Hi) as [IHf IHl].
        rewrite Hb, Hr in *. split.
        -- intros Hlt. lia.
        -- intros Hge. apply IHl. lia.
Qed.

(** X5 -- the rate-limit headers count down. When requests of one client,
    unknown to the limiter so far, reach the service middleware at one
    instant, the first [burst_limit] of them are forwarded with
    [X-RateLimit-Limit = burst_limit] and [X-RateLimit-Remaining] running
    from [burst_limit - 1] down to 0, and every later one is answered 429
    with a retry delay of [1 / rate] seconds. *)
Theorem X5_rate_limit_headers_count_down
    (exclude_paths : list string) (self : RateLimiter) (k : string) (t : Q)
    (requests : list Request) (i : nat) (o : outcome) :
  tokens self !! k = None ->
  0 <= burst_limit self ->
  (0 < rate self)%Q ->
  Forall (fun r => key_func self r = k) requests ->
  Forall (fun r => existsb (fun path => String.prefix path (url_path r)) exclude_paths
                   = false) requests ->
  (serve exclude_paths self requests t).1 !! i = Some o ->
  (Z.of_nat i < burst_limit self ->
     o = Forwarded (burst_limit self) (burst_limit self - Z.of_nat i - 1)
                   (py_int (t + 60))) /\
  (burst_limit self <= Z.of_nat i ->
     exists ra, o = TooManyRequests ra (py_int ra) /\ (ra == 1 / rate self)%Q).
Proof.
  intros Hnone Hb Hrate Hkeys Hexs Hi.
  apply (serve_avail exclude_paths k t requests (burst_limit self) self); try assumption.
  left. split; [exact Hnone | reflexivity].
Qed.

Definition limiter_60_5 : RateLimiter := RateLimit.init 60 5 None.

Lemma X5_rate_limit_headers_count_down_witness :
  (serve ["/health"%string] limiter_60_5 (repeat req_a 6) 0).1 !! 4%nat
    = Some (Forwarded 5 0 60) /\
  exists ra, (serve ["/health"%string] limiter_60_5 (repeat req_a 6) 0).1 !! 5%nat
               = Some (TooManyRequests ra (py_int ra)) /\ (ra == 1)%Q.
Proof.
  assert (H : forall i o,
            (serve ["/health"%string] limiter_60_5 (repeat req_a 6) 0).1 !! i = Some o ->
            (Z.of_nat i < 5 -> o = Forwarded 5 (5 - Z.of_nat i - 1) (py_int (0 + 60))) /\
            (5 <= Z.of_nat i ->
               exists ra, o = TooManyRequests ra (py_int ra) /\
                 (ra == 1 / rate limiter_60_5)%Q)).
  { intros i o. apply (X5_rate_limit_headers_count_down ["/health"%string] limiter_60_5
                         "10.0.0.1" 0 (repeat req_a 6) i o).
    - reflexivity.
    - cbn. lia.
    - reflexivity.
    - repeat constructor.
    - repeat constructor.  }
  destruct ((serve ["/health"%string] limiter_60_5 (repeat req_a 6) 0).1 !! 4%nat)
    as [o4 |] eqn:E4; [| vm_compute in E4; discriminate E4].
  destruct ((serve ["/health"%string] limiter_60_5 (repeat req_a 6) 0).1 !! 5%nat)
    as [o5 |] eqn:E5; [| vm_compute in E5; discriminate E5].
  destruct (H _ _ E4) as [H4 _]. destruct (H _ _ E5) as [_ H5].
  split.
  - rewrite H4 by (cbn; lia). reflexivity.
  - destruct H5 as (ra & -> & Hra); [cbn; lia |]. exists ra. split; [reflexivity |].
    rewrite Hra. reflexivity.
Defined.

(** * Further properties of the retry helper *)

Section AnyOperation.
Context {A E : Type}.
Variable func : nat -> Retry.outcome A E.
Variable retryable_exn : E -> bool.
Variable rand : nat -> Q.
Variable config : RetryConfig.

(** The attempts before [k] all fail with an error that is retried. *)
Definition fails_before (k : nat) : Prop :=
  forall j, (j < k)%nat -> exists e, func j = Fails e /\ retryable_exn e = true.

(** Attempt [k] ends the retrying: it returns, or fails for good. *)
Definition decisive (k : nat) (end_ : ending A E) : Prop :=
  match func k with
  | Returns a => end_ = Returned a
  | Fails e => end_ = Raised e /\
               (retryable_exn e = false \/ Z.of_nat k = max_attempts config - 1)
  end.

Lemma retryable_loop_runs (n : nat) : forall (attempt : nat) (todo : nat) last end_,
  (forall j, (attempt <= j < attempt + n)%nat ->
     exists e, func j = Fails e /\ retryable_exn e = true) ->
  (forall j, (attempt <= j < attempt + n)%nat -> power_in_range config (Z.of_nat j)) ->
  decisive (attempt + n) end_ ->
  Z.of_nat (attempt + n) < max_attempts config ->
  (n < todo)%nat ->
  let t := retryable_loop func retryable_exn rand config todo (Z.of_nat attempt) last in
  final t = end_ /\ calls t = S n /\ List.length (sleeps t) = n.
Proof.
  induction n as [| n IH]; intros attempt todo last end_ Hbefore Hrange Hdec Hmax Htodo;
    (destruct todo as [| todo]; [lia |]); cbn zeta; cbn [retryable_loop]; rewrite Nat2Z.id.
  - rewrite Nat.add_0_r in Hdec. unfold decisive in Hdec.
    destruct (func attempt) as [a | e].
    + subst end_. repeat split.
    + destruct Hdec as [-> [Hnr | Hlast]].
      * rewrite Hnr. repeat split.
      * destruct (retryable_exn e); cbn [negb]; [| repeat split].
        replace (Z.of_nat attempt =? max_attempts config - 1) with true
          by (symmetry; apply Z.eqb_eq; exact Hlast).
        repeat split.
  - destruct (Hbefore attempt ltac:(lia)) as (e & -> & ->). cbn [negb].
    replace (Z.of_nat attempt =? max_attempts config - 1) with false
      by (symmetry; apply Z.eqb_neq; lia).
    rewrite (backoff_in_range config (Z.of_nat attempt)) by (apply Hrange; lia).
    replace (Z.of_nat attempt + 1) with (Z.of_nat (S attempt)) by lia.
    destruct (IH (S attempt) todo (Some e) end_) as (Hf & Hc & Hs).
    + intros j Hj. apply Hbefore. lia.
    + intros j Hj. apply Hrange. lia.
    + replace (S attempt + n)%nat with (attempt + S n)%nat by lia. exact Hdec.
    + lia.
    + lia.
    + cbn [called slept final calls sleeps List.length]. rewrite Hf, Hc, Hs. repeat split.
Qed.

Lemma retry_async_loop_runs (n : nat) : forall (attempt : nat) (todo : nat) last end_,
  (forall j, (attempt <= j < attempt + n)%nat ->
     exists e, func j = Fails e /\ retryable_exn e = true) ->
  (forall j, (attempt <= j < attempt + n)%nat -> power_in_range config (Z.of_nat j)) ->
  decisive (attempt + n) end_ ->
  Z.of_nat (attempt + n) < max_attempts config ->
  (n < todo)%nat ->
  let t := retry_async_loop func retryable_exn rand config todo
             (Z.of_nat (S attempt)) last in
  final t = end_ /\ calls t = S n /\ List.length (sleeps t) = n.
Proof.
  induction n as [| n IH]; intros attempt todo last end_ Hbefore Hrange Hdec Hmax Htodo;
    (destruct todo as [| todo]; [lia |]); cbn zeta; cbn [retry_async_loop];
    replace (Z.to_nat (Z.of_nat (S attempt) - 1)) with attempt by lia.
  - rewrite Nat.add_0_r in Hdec. unfold decisive in Hdec.
    destruct (func attempt) as [a | e].
    + subst end_. repeat split.
    + destruct Hdec as [-> [Hnr | Hlast]].
      * rewrite Hnr. repeat split.
      * destruct (retryable_exn e); cbn [negb]; [| repeat split].
        replace (Z.of_nat (S attempt) =? max_attempts config) with true
          by (symmetry; apply Z.eqb_eq; lia).
        repeat split.
  - destruct (Hbefore attempt ltac:(lia)) as (e & -> & ->). cbn [negb].
    replace (Z.of_nat (S attempt) =? max_attempts config) with false
      by (symmetry; apply Z.eqb_neq; lia).
    rewrite calculate_delay_in_range
      by (replace (Z.of_nat (S attempt) - 1) with (Z.of_nat attempt) by lia;
          apply Hrange; lia).
    replace (Z.of_nat (S attempt) + 1) with (Z.of_nat (S (S attempt))) by lia.
    destruct (IH (S attempt) todo (Some e) end_) as (Hf & Hc & Hs).
    + intros j Hj. apply Hbefore. lia.
    + intros j Hj. apply Hrange. lia.
    + replace (S attempt + n)%nat with (attempt + S n)%nat by lia. exact Hdec.
    + lia.
    + lia.
    + cbn [called slept final calls sleeps List.length]. rewrite Hf, Hc, Hs. repeat split.
Qed.

(** Every delay slept satisfies [P] as soon as every delay that can be
    computed for an attempt does. *)
Lemma retryable_loop_sleeps_all (P : Q -> Prop) (todo : nat) : forall attempt last,
  (forall k d, backoff config (Z.of_nat k) = Some d ->
     P (if jitter config then (d * ((1 # 2) + rand k))%Q else d)) ->
  Forall P (sleeps (retryable_loop func retryable_exn rand config todo
                      (Z.of_nat attempt) last)).
Proof.
  induction todo as [| todo IH]; intros attempt last HP; cbn [retryable_loop].
  - destruct last; constructor.
  - rewrite Nat2Z.id. destruct (func attempt) as [a | e]; [constructor |].
    destruct (retryable_exn e); cbn [negb]; [| constructor].
    destruct (Z.of_nat attempt =? max_attempts config - 1); [constructor |].
    destruct (backoff config (Z.of_nat attempt)) as [d |] eqn:Hd; [| constructor].
    cbn [called slept sleeps]. constructor.
    + apply (HP attempt d Hd).
    + replace (Z.of_nat attempt + 1) with (Z.of_nat (S attempt)) by lia.
      apply IH, HP.
Qed.

Lemma retry_async_loop_sleeps_all (P : Q -> Prop) (todo : nat) : forall attempt last,
  (forall k d, calculate_delay (Z.of_nat (S k)) config (rand k) = Some d -> P d) ->
  Forall P (sleeps (retry_async_loop func retryable_exn rand config todo
                      (Z.of_nat (S attempt)) last)).
Proof.
  induction todo as [| todo IH]; intros attempt last HP; cbn [retry_async_loop].
  - destruct last; constructor.
  - replace (Z.to_nat (Z.of_nat (S attempt) - 1)) with attempt by lia.
    destruct (func attempt) as [a | e]; [constructor |].
    destruct (retryable_exn e); cbn [negb]; [| constructor].
    destruct (Z.of_nat (S attempt) =? max_attempts config); [constructor |].
    destruct (calculate_delay (Z.of_nat (S attempt)) config (rand attempt)) as [d |] eqn:Hd;
      [| constructor].
    cbn [called slept sleeps]. constructor.
    + apply (HP attempt d Hd).
    + replace (Z.of_nat (S attempt) + 1) with (Z.of_nat (S (S attempt))) by lia.
      apply IH, HP.
Qed.

End AnyOperation.

(** X6 -- how a retried call ends. If the first [k] attempts fail with
    errors that are retried, the power each of their delays needs can be
    computed, and attempt [k] (within [max_attempts]) returns, fails with an
    error that is not retried, or is the last attempt allowed, then the
    operation is invoked exactly [k + 1] times, exactly [k] delays are
    slept, and the caller gets the value of attempt [k] or its error
    unchanged.  This holds for the [retryable] wrapper and for
    [retry_async]. *)
Theorem X6_retry_ends_at_first_decisive_attempt
    (A E : Type) (func : nat -> Retry.outcome A E) (retryable_exn : E -> bool)
    (rand : nat -> Q) (config : RetryConfig) (k : nat) (end_ : ending A E) :
  fails_before func retryable_exn k ->
  (forall j, (j < k)%nat -> power_in_range config (Z.of_nat j)) ->
  decisive func retryable_exn config k end_ ->
  Z.of_nat k < max_attempts config ->
  let t := retryable func retryable_exn rand config in
  let u := retry_async func retryable_exn rand config in
  (final t = end_ /\ calls t = S k /\ List.length (sleeps t) = k) /\
  (final u = end_ /\ calls u = S k /\ List.length (sleeps u) = k).
Proof.
  intros Hbefore Hrange Hdec Hmax t u. split.
  - apply (retryable_loop_runs func retryable_exn rand config k 0
             (Z.to_nat (max_attempts config)) None end_).
    + intros j Hj. apply Hbefore. lia.
    + intros j Hj. apply Hrange. lia.
    + exact Hdec.
    + cbn [Nat.add]. exact Hmax.
    + lia.
  - apply (retry_async_loop_runs func retryable_exn rand config k 0
             (Z.to_nat (max_attempts config)) None end_).
    + intros j Hj. apply Hbefore. lia.
    + intros j Hj. apply Hrange. lia.
    + exact Hdec.
    + cbn [Nat.add]. exact Hmax.
    + lia.
Qed.

(** Two retryable failures, then the value 42: the repository's test. *)
Definition fails_twice : nat -> Retry.outcome Z unit :=
  fun k => if (k <? 2)%nat then Fails tt else Returns 42.

Lemma X6_retry_ends_at_first_decisive_attempt_witness :
  final (retryable fails_twice (fun _ => true) (fun _ => 0%Q) backoff_test_config)
    = Returned 42 /\
  calls (retryable fails_twice (fun _ => true) (fun _ => 0%Q) backoff_test_config)
    = 3%nat.
Proof.
  destruct (X6_retry_ends_at_first_decisive_attempt Z unit fails_twice (fun _ => true)
              (fun _ => 0%Q) backoff_test_config 2 (Returned 42)) as [(Hf & Hc & _) _].
  - intros j Hj. exists tt. unfold fails_twice.
    destruct (Nat.ltb_spec j 2); [split; reflexivity | lia].
  - apply backoff_test_in_range.
  - reflexivity.
  - cbn. lia.
  - split; assumption.
Defined.

(** X7 -- no attempts allowed. With [max_attempts] of zero or less the
    operation is never invoked and nothing is slept; the [retryable] wrapper
    then fails its own assertion, and [retry_async] reaches [raise None]. *)
Theorem X7_retry_without_attempts
    (A E : Type) (func : nat -> Retry.outcome A E) (retryable_exn : E -> bool)
    (rand : nat -> Q) (config : RetryConfig) :
  max_attempts config <= 0 ->
  retryable func retryable_exn rand config = mkTrace AssertionFailed [] 0 /\
  retry_async func retryable_exn rand config = mkTrace RaisedNone [] 0.
Proof.
  intros H. unfold retryable, retry_async.
  replace (Z.to_nat (max_attempts config)) with 0%nat by lia. split; reflexivity.
Qed.

Lemma X7_retry_without_attempts_witness :
  retryable always_failing (fun _ => true) (fun _ => 0%Q)
            (mkRetryConfig 0 1 30 2 true) = mkTrace AssertionFailed [] 0.
Proof.
  apply (X7_retry_without_attempts unit unit always_failing (fun _ => true)
           (fun _ => 0%Q) (mkRetryConfig 0 1 30 2 true)).
  cbn. lia.
Defined.

(** X8 -- delays are capped. Whatever the operation does, without jitter no
    delay slept exceeds [max_delay]; with jitter, draws in [0, 1) and a
    [max_delay] that is not negative, no delay exceeds one and a half times
    [max_delay] in the [retryable] wrapper, and one and a quarter times
    [max_delay] in [retry_async]. *)
Theorem X8_retry_delays_are_capped
    (A E : Type) (func : nat -> Retry.outcome A E) (retryable_exn : E -> bool)
    (rand : nat -> Q) (config : RetryConfig) :
  (forall k, 0 <= rand k /\ rand k < 1)%Q ->
  (0 <= max_delay config)%Q ->
  let bound (f : Q) := if jitter config then (f * max_delay config)%Q
                       else max_delay config in
  Forall (fun d => d <= bound (3 # 2))%Q
         (sleeps (retryable func retryable_exn rand config)) /\
  Forall (fun d => d <= bound (5 # 4))%Q
         (sleeps (retry_async func retryable_exn rand config)).
Proof.
  intros Hrand Hmax bound. subst bound. cbv beta. split.
  - apply (retryable_loop_sleeps_all func retryable_exn rand config _ _ 0%nat).
    intros k d Hd. pose proof (backoff_capped _ _ _ Hd) as Hle.
    destruct (Hrand k) as [H0 H1].
    destruct (jitter config); [| exact Hle].
    destruct (Qlt_le_dec d 0) as [Hneg | Hpos]; nra.
  - apply (retry_async_loop_sleeps_all func retryable_exn rand config _ _ 0%nat).
    intros k d Hd. unfold calculate_delay, uniform in Hd.
    destruct (backoff config (Z.of_nat (S k) - 1)) as [x |] eqn:Hx; [| discriminate].
    pose proof (backoff_capped _ _ _ Hx) as Hle.
    destruct (Hrand k) as [H0 H1].
    destruct (jitter config); inversion Hd; subst d; [| exact Hle].
    destruct (Qlt_le_dec x 0) as [Hneg | Hpos]; nra.
Qed.

Lemma X8_retry_delays_are_capped_witness :
  Forall (fun d => d <= 3 # 10)%Q
    (sleeps (retryable always_failing (fun _ => true) (fun _ => 1 # 4)%Q
                       backoff_test_config)).
Proof.
  destruct (X8_retry_delays_are_capped unit unit always_failing (fun _ => true)
              (fun _ => 1 # 4)%Q backoff_test_config) as [H _].
  - intros k. split; [discriminate | reflexivity].
  - discriminate.
  - exact H.
Defined.

(** * Further properties of the paginators *)

Lemma slice_segment (T : Type) (items : list T) (start L : Z) :
  0 <= L ->
  (List.length (slice items start (start + L)) <= Z.to_nat L)%nat /\
  exists before after, items = before ++ slice items start (start + L) ++ after.
Proof.
  intros HL. unfold slice.
  set (n := Z.of_nat (List.length items)).
  set (lo := if start <? 0 then Z.max 0 (start + n) else Z.min start n).
  set (hi := if start + L <? 0 then Z.max 0 (start + L + n) else Z.min (start + L) n).
  assert (Hbound : hi - lo <= L).
  { subst lo hi. destruct (Z.ltb_spec start 0), (Z.ltb_spec (start + L) 0); lia. }
  split.
  - rewrite length_firstn. lia.
  - exists (firstn (Z.to_nat lo) items),
           (skipn (Z.to_nat (hi - lo)) (skipn (Z.to_nat lo) items)).
    rewrite firstn_skipn, firstn_skipn. reflexivity.
Qed.

(** X9 -- a page is a piece of the list. For a page size that is not
    negative and a cursor of ordinary size that decodes to any integer
    offset, both paginators return without error a page of at most [limit]
    items that is a contiguous run of the list. *)
Theorem X9_page_is_a_bounded_segment
    (T : Type) (items : list T) (L : Z) (cursor : option string) (o : Z) :
  points_at cursor o ->
  ordinary cursor = true ->
  0 <= L ->
  exists page legacy,
    Paginator.paginate L items cursor = Ok page /\
    ApiPagination.paginate_items items L cursor = Ok legacy /\
    ApiPagination.items legacy = Paginator.items page /\
    Z.of_nat (List.length (Paginator.items page)) <= L /\
    exists before after, items = before ++ Paginator.items page ++ after.
Proof.
  intros Hat _ HL.
  rewrite (paginate_points_at T L items cursor o Hat),
          (api_paginate_points_at T L items cursor o Hat).
  eexists _, _. split; [reflexivity |]. split; [reflexivity |].
  cbn [ApiPagination.items Paginator.items]. split; [reflexivity |].
  destruct (slice_segment T items o L HL) as [Hlen Hseg]. split; [lia | exact Hseg].
Qed.

Lemma X9_page_is_a_bounded_segment_witness :
  exists page legacy,
    Paginator.paginate 2 [10; 20; 30] (Some cursor_minus_two) = Ok page /\
    ApiPagination.paginate_items [10; 20; 30] 2 (Some cursor_minus_two) = Ok legacy /\
    ApiPagination.items legacy = Paginator.items page /\
    Z.of_nat (List.length (Paginator.items page)) <= 2 /\
    exists before after, [10; 20; 30] = before ++ Paginator.items page ++ after.
Proof.
  apply (X9_page_is_a_bounded_segment Z [10; 20; 30] 2 (Some cursor_minus_two) (-2)).
  - right. exists cursor_minus_two, [("offset"%string, Json.JInt (-2))].
    repeat split; vm_compute; reflexivity.
  - reflexivity.
  - lia.
Defined.

(** X10 -- a cursor that cannot be read. For a non-empty cursor that fails
    to decode, or decodes to JSON that is not an object, [paginate] of the
    Paginator module raises [PaginationError], while the older
    [paginate_items] answers as if no cursor had been given: the first page
    and its metadata. *)
Theorem X10_unreadable_cursor
    (T : Type) (items : list T) (L : Z) (c : string) :
  c <> EmptyString ->
  (forall fields, cursor_payload c <> Some (Json.JObj fields)) ->
  Paginator.paginate L items (Some c) = Raise PaginationError /\
  exists first,
    ApiPagination.paginate_items items L None = Ok first /\
    ApiPagination.paginate_items items L (Some c) =
      Ok (ApiPagination.mkPaginatedResult (ApiPagination.items first) L (Some c)
            (ApiPagination.pagination first)) /\
    ApiPagination.decode_cursor (Some c) = (Json.JInt 0, false).
Proof.
  intros Hne Hbad.
  assert (Htr : truthy (Some c) = Some c) by (destruct c; [congruence | reflexivity]).
  split.
  - unfold Paginator.paginate, Paginator.decode_cursor. rewrite Htr.
    destruct (cursor_payload c) as [[| | | | | | fields] |] eqn:Hp; try reflexivity.
    exfalso. apply (Hbad fields). reflexivity.
  - eexists. split; [reflexivity |].
    unfold ApiPagination.paginate_items, ApiPagination.start_index_of,
      ApiPagination.decode_cursor, ApiPagination.try_offset. rewrite Htr.
    destruct (cursor_payload c) as [[| | | | | | fields] |] eqn:Hp;
      try (split; reflexivity).
    exfalso. apply (Hbad fields). reflexivity.
Qed.

Lemma X10_unreadable_cursor_witness :
  Paginator.paginate 3 [0; 1; 2; 3] (Some "invalid-cursor"%string) = Raise PaginationError /\
  exists first,
    ApiPagination.paginate_items [0; 1; 2; 3] 3 None = Ok first /\
    ApiPagination.paginate_items [0; 1; 2; 3] 3 (Some "invalid-cursor"%string) =
      Ok (ApiPagination.mkPaginatedResult (ApiPagination.items first) 3
            (Some "invalid-cursor"%string) (ApiPagination.pagination first)) /\
    ApiPagination.decode_cursor (Some "invalid-cursor"%string) = (Json.JInt 0, false).
Proof.
  apply (X10_unreadable_cursor Z [0; 1; 2; 3] 3 "invalid-cursor").
  - discriminate.
  - intros fields. vm_compute. discriminate.
Defined.









(** * The encoding the service middleware chooses *)

Import CompressionMiddleware.

Lemma candidates_spec (encodings : gmap string Q) (e : string) (q : Q) :
  (e, q) ∈ candidates encodings <-> supported e = true /\ encodings !! e = Some q.
Proof.
  unfold candidates. rewrite list_elem_of_omap. split.
  - intros (enc & Hin & Hq).
    destruct (encodings !! enc) as [q0 |] eqn:Hl; [| discriminate].
    cbn in Hq. inversion Hq; subst. split; [| exact Hl].
    repeat (apply elem_of_cons in Hin as [-> | Hin]; [reflexivity |]).
    apply elem_of_nil in Hin. contradiction.
  - intros [Hs Hq]. exists e. rewrite Hq. split; [| reflexivity].
    unfold supported in Hs.
    destruct (String.eqb_spec e "br") as [-> | _]; [set_solver |].
    destruct (String.eqb_spec e "gzip") as [-> | _]; [set_solver |].
    destruct (String.eqb_spec e "deflate") as [-> | _]; [set_solver | discriminate].
Qed.

Lemma candidates_ranked (encodings : gmap string Q) :
  StronglySorted by_rank (candidates encodings).
Proof.
  unfold candidates. cbn [omap list_omap].
  destruct (encodings !! "br"%string), (encodings !! "gzip"%string),
    (encodings !! "deflate"%string); cbn;
    repeat (constructor; try (unfold by_rank; cbn; lia)).
Qed.

Lemma insert_desc_elem (x z : string * Q) (l : list (string * Q)) :
  z ∈ insert_desc x l <-> z = x \/ z ∈ l.
Proof.
  induction l as [| y rest IH]; cbn [insert_desc].
  - set_solver.
  - destruct (Qle_bool (snd y) (snd x)).
    + rewrite (elem_of_cons (y :: rest)). reflexivity.
    + rewrite !elem_of_cons, IH. tauto.
Qed.

Lemma insert_desc_sorted (x : string * Q) (l : list (string * Q)) :
  StronglySorted preferred_to l ->
  Forall (by_rank x) l ->
  StronglySorted preferred_to (insert_desc x l).
Proof.
  induction 1 as [| y rest Hsorted IH Hy]; intros Hrank; cbn [insert_desc].
  - repeat constructor.
  - pose proof (Forall_inv Hrank) as Hxy. pose proof (Forall_inv_tail Hrank) as Hx.
    destruct (Qle_bool (snd y) (snd x)) eqn:Hle.
    + apply Qle_bool_iff in Hle. constructor; [constructor; assumption |].
      constructor; [split; [exact Hle | intros _; exact Hxy] |].
      rewrite Forall_forall in Hy, Hx |- *. intros z Hz.
      destruct (Hy z Hz) as [Hzy _]. split; [| intros _; apply Hx, Hz].
      apply Qle_trans with (snd y); assumption.
    + assert (Hlt : (snd x < snd y)%Q).
      { apply Qnot_le_lt. intros H. apply Qle_bool_iff in H. congruence. }
      constructor; [apply IH, Hx |].
      rewrite Forall_forall in Hy |- *. intros z Hz.
      apply insert_desc_elem in Hz as [-> | Hz]; [| apply Hy, Hz].
      split; [apply Qlt_le_weak, Hlt |].
      intros Heq. rewrite Heq in Hlt. exfalso. exact (Qlt_irrefl _ Hlt).
Qed.

Lemma sorted_desc_elem (z : string * Q) (l : list (string * Q)) :
  z ∈ sorted_desc l <-> z ∈ l.
Proof.
  induction l as [| x l IH]; [reflexivity |].
  cbn [sorted_desc foldr]. fold (sorted_desc l).
  rewrite insert_desc_elem, elem_of_cons, IH. reflexivity.
Qed.

Lemma sorted_desc_sorted (l : list (string * Q)) :
  StronglySorted by_rank l -> StronglySorted preferred_to (sorted_desc l).
Proof.
  induction 1 as [| x l Hsorted IH Hx]; [constructor |].
  cbn [sorted_desc foldr]. fold (sorted_desc l).
  apply insert_desc_sorted; [exact IH |].
  rewrite Forall_forall in Hx |- *. intros z Hz. apply Hx, sorted_desc_elem, Hz.
Qed.

Lemma first_usable_some (lib : Codecs) (level : Z) (content : string)
    (l : list (string * Q)) (e c : string) :
  first_usable lib level content l = Some (e, c) ->
  content <> EmptyString /\ c <> EmptyString /\
  compress_content lib level content e = Some c /\
  exists l1 q l2, l = l1 ++ (e, q) :: l2 /\
    Forall (fun x => unusable lib level content (fst x)) l1.
Proof.
  induction l as [| [enc q] rest IH]; cbn [first_usable]; [discriminate |].
  intros H.
  assert (Hrest : first_usable lib level content rest = Some (e, c) ->
                  unusable lib level content enc \/ content = EmptyString ->
                  content <> EmptyString /\ c <> EmptyString /\
                  compress_content lib level content e = Some c /\
                  exists l1 q0 l2, (enc, q) :: rest = l1 ++ (e, q0) :: l2 /\
                    Forall (fun x => unusable lib level content (fst x)) l1).
  { intros Hr Hbad. destruct (IH Hr) as (Hc & Hne & Hcc & l1 & q0 & l2 & -> & Hl1).
    repeat split; try assumption.
    exists ((enc, q) :: l1), q0, l2. split; [reflexivity |].
    constructor; [| exact Hl1]. destruct Hbad as [Hbad | Hbad]; [exact Hbad | contradiction]. }
  destruct (compress_content lib level content enc) as [[| a compressed] |] eqn:Hcc.
  - apply Hrest; [exact H | left; right; exact Hcc].
  - destruct (String.eqb_spec content EmptyString) as [Hempty | Hfull].
    + apply Hrest; [exact H | right; exact Hempty].
    + inversion H; subst e c; clear H.
      repeat split; try assumption; try discriminate.
      exists [], q, rest. split; [reflexivity | constructor].
  - apply Hrest; [exact H | left; left; exact Hcc].
Qed.

Lemma first_usable_none (lib : Codecs) (level : Z) (content : string)
    (l : list (string * Q)) :
  first_usable lib level content l = None ->
  content <> EmptyString ->
  Forall (fun x => unusable lib level content (fst x)) l.
Proof.
  intros H Hfull. induction l as [| [enc q] rest IH]; [constructor |].
  cbn [first_usable] in H.
  destruct (compress_content lib level content enc) as [[| a compressed] |] eqn:Hcc.
  - constructor; [right; exact Hcc | apply IH, H].
  - destruct (String.eqb_spec content EmptyString) as [Hempty | _]; [contradiction | discriminate].
  - constructor; [left; exact Hcc | apply IH, H].
Qed.

Lemma first_usable_empty (lib : Codecs) (level : Z) (l : list (string * Q)) :
  first_usable lib level EmptyString l = None.
Proof.
  induction l as [| [enc q] rest IH]; [reflexivity |].
  cbn [first_usable].
  destruct (compress_content lib level EmptyString enc) as [[| a compressed] |]; exact IH.
Qed.

Lemma first_usable_chosen (lib : Codecs) (level : Z) (encodings : gmap string Q)
    (content e body : string) :
  first_usable lib level content (preferred_encodings encodings) = Some (e, body) ->
  chosen lib level encodings content e body.
Proof.
  unfold preferred_encodings. intros Hf.
  destruct (first_usable_some _ _ _ _ _ _ Hf)
    as (Hfull & Hbody & Hcc & l1 & q & l2 & Hsplit & Hl1).
  assert (Hin : (e, q) ∈ candidates encodings).
  { apply sorted_desc_elem. rewrite Hsplit. set_solver. }
  apply candidates_spec in Hin as [Hsup Hq].
  exists q. repeat split; try assumption.
  { apply compress_content_spec in Hcc. apply Hcc. }
  intros e' q' Hsup' Hq' Hpref.
  assert (Hin' : (e', q') ∈ sorted_desc (candidates encodings)).
  { apply sorted_desc_elem, candidates_spec. split; assumption. }
  rewrite Hsplit in Hin'.
  apply elem_of_app in Hin' as [Hin' | Hin'].
  { rewrite Forall_forall in Hl1. exact (Hl1 _ Hin'). }
  exfalso.
  pose proof (sorted_desc_sorted _ (candidates_ranked encodings)) as Hsorted.
  rewrite Hsplit in Hsorted.
  apply elem_of_cons in Hin' as [Heq | Hin'].
  { inversion Heq; subst e' q'. destruct Hpref as [Hlt | [_ Hlt]].
    - exact (Qlt_irrefl _ Hlt).
    - lia. }
  assert (Hafter : StronglySorted preferred_to ((e, q) :: l2)).
  { clear - Hsorted. induction l1 as [| y l1 IH]; [exact Hsorted |].
    apply IH. inversion Hsorted; assumption. }
  apply StronglySorted_inv in Hafter as [_ Hafter].
  rewrite Forall_forall in Hafter.
  destruct (Hafter _ Hin') as [Hle Htie]. cbn [fst snd] in Hle, Htie.
  destruct Hpref as [Hlt | [Heq Hlt]].
  - apply Qle_not_lt in Hle. contradiction.
  - specialize (Htie Heq). unfold by_rank in Htie. cbn [fst] in Htie. lia.
Qed.

(** X15 -- what the service middleware sends for the last body message.
    When it announces [content-encoding], the start message had not gone out
    before, [should_compress] agreed, and the encoding and the body are as
    [chosen] says: accepted by the client, the body not empty and
    decompressing to the content, every preferred accepted encoding without
    a usable result. When it announces none, either the body is the content
    (and then, if [should_compress] agreed and the content is not empty, no
    accepted encoding gave anything usable), or the start message had gone
    out already and the body is a compressed one all the same, sent without
    the header. When [should_compress] refuses, the content is sent as it
    is. *)
Theorem X15_chosen_encoding
    (lib : Codecs) (level : Z) (response_started should_compress : bool)
    (encodings : gmap string Q) (content : string) :
  let sent := respond lib level response_started should_compress encodings content in
  (forall e body, sent = (Some e, body) ->
     response_started = false /\ should_compress = true /\
     chosen lib level encodings content e body) /\
  (forall body, sent = (None, body) ->
     (body = content /\
      (should_compress = true -> content <> EmptyString ->
       forall e' q', supported e' = true -> encodings !! e' = Some q' ->
         unusable lib level content e')) \/
     (response_started = true /\ should_compress = true /\
      exists e, chosen lib level encodings content e body)) /\
  (should_compress = false -> sent = (None, content)).
Proof.
  cbv zeta. unfold respond.
  destruct should_compress; cbn [negb].
  2: { split; [discriminate |]. split; [| reflexivity].
       intros body H. inversion H. left. split; [reflexivity | discriminate]. }
  destruct (first_usable lib level content (preferred_encodings encodings))
    as [[e0 c0] |] eqn:Hf.
  - pose proof (first_usable_chosen _ _ _ _ _ _ Hf) as Hch.
    destruct response_started.
    + split; [discriminate |]. split; [| discriminate].
      intros body H. inversion H; subst body. right.
      split; [reflexivity |]. split; [reflexivity |]. exists e0. exact Hch.
    + split; [| split; discriminate].
      intros e body H. inversion H; subst e body.
      split; [reflexivity |]. split; [reflexivity | exact Hch].
  - split; [discriminate |]. split; [| discriminate].
    intros body H. inversion H; subst body. left. split; [reflexivity |].
    intros _ Hfull e' q' Hsup' Hq'.
    pose proof (first_usable_none _ _ _ _ Hf Hfull) as Hall.
    rewrite Forall_forall in Hall.
    apply (Hall (e', q')), sorted_desc_elem, candidates_spec. split; assumption.
Qed.

Lemma api_first_usable_some (lib : Codecs) (level : Z) (encodings : gmap string Q)
    (content : string) (names : list string) (e c : string) :
  ApiCompressionMiddleware.first_usable lib level encodings content names = Ok (Some (e, c)) ->
  content <> EmptyString /\ c <> EmptyString /\ is_Some (encodings !! e) /\
  compress_content_api lib level content e = Some c /\
  exists l1 l2, names = l1 ++ e :: l2 /\
    Forall (ApiCompressionMiddleware.passed_over lib level encodings content) l1.
Proof.
  induction names as [| enc rest IH]; cbn [ApiCompressionMiddleware.first_usable];
    [discriminate |].
  intros H.
  assert (Hrest : ApiCompressionMiddleware.passed_over lib level encodings content enc ->
            ApiCompressionMiddleware.first_usable lib level encodings content rest
              = Ok (Some (e, c)) ->
            content <> EmptyString /\ c <> EmptyString /\ is_Some (encodings !! e) /\
            compress_content_api lib level content e = Some c /\
            exists l1 l2, enc :: rest = l1 ++ e :: l2 /\
              Forall (ApiCompressionMiddleware.passed_over lib level encodings content) l1).
  { intros Hbad Hr. destruct (IH Hr) as (Hc & Hne & Hacc & Hcc & l1 & l2 & -> & Hl1).
    repeat split; try assumption.
    exists (enc :: l1), l2. split; [reflexivity | constructor; assumption]. }
  destruct (encodings !! enc) as [q |] eqn:Hq.
  - destruct (compress_content_api lib level content enc) as [[| a compressed] |] eqn:Hcc.
    + apply Hrest; [right; right; exact Hcc | exact H].
    + destruct (String.eqb_spec content EmptyString) as [_ | Hfull]; [discriminate |].
      inversion H; subst e c; clear H.
      repeat split; try assumption; try discriminate.
      * rewrite Hq. eexists. reflexivity.
      * exists [], rest. split; [reflexivity | constructor].
    + apply Hrest; [right; left; exact Hcc | exact H].
  - apply Hrest; [left; exact Hq | exact H].
Qed.

Lemma api_first_usable_none (lib : Codecs) (level : Z) (encodings : gmap string Q)
    (content : string) (names : list string) :
  ApiCompressionMiddleware.first_usable lib level encodings content names = Ok None ->
  Forall (ApiCompressionMiddleware.passed_over lib level encodings content) names.
Proof.
  induction names as [| enc rest IH]; cbn [ApiCompressionMiddleware.first_usable];
    [constructor |].
  destruct (encodings !! enc) as [q |] eqn:Hq.
  - destruct (compress_content_api lib level content enc) as [[| a compressed] |] eqn:Hcc.
    + intros H. constructor; [right; right; exact Hcc | apply IH, H].
    + destruct (String.eqb content EmptyString); discriminate.
    + intros H. constructor; [right; left; exact Hcc | apply IH, H].
  - intros H. constructor; [left; exact Hq | apply IH, H].
Qed.

(** X19 -- the encoding the older middleware chooses. When it answers with
    a compressed body, the encoding is one of br, gzip and deflate that
    appears in the request's [Accept-Encoding], the body is the library's
    output for the content, not empty, and every encoding earlier in br,
    gzip, deflate was absent from the header or gave nothing; the quality
    values play no part. When it answers without [content-encoding], the
    body is the content and none of the three was both named and usable.
    For an empty content it never answers with a compressed body, and the
    service middleware sends the empty content as it is. *)
Theorem X19_legacy_chosen_encoding
    (lib : Codecs) (level : Z) (encodings : gmap string Q) (content : string) :
  (forall e body,
     ApiCompressionMiddleware.respond lib level encodings content = Ok (Some e, body) ->
     supported e = true /\ is_Some (encodings !! e) /\
     body <> EmptyString /\ content <> EmptyString /\
     compress_content_api lib level content e = Some body /\
     forall e', (preference_rank e' < preference_rank e)%nat ->
       ApiCompressionMiddleware.passed_over lib level encodings content e') /\
  (forall body,
     ApiCompressionMiddleware.respond lib level encodings content = Ok (None, body) ->
     body = content /\
     forall e', supported e' = true -> ApiCompressionMiddleware.passed_over lib level encodings content e') /\
  (forall response_started should_compress,
     CompressionMiddleware.respond lib level response_started should_compress
       encodings EmptyString = (None, EmptyString)).
Proof.
  assert (Hcases : forall e', supported e' = true ->
            e' = "br"%string \/ e' = "gzip"%string \/ e' = "deflate"%string).
  { intros e'. unfold supported.
    destruct (String.eqb_spec e' "br"); [auto |].
    destruct (String.eqb_spec e' "gzip"); [auto |].
    destruct (String.eqb_spec e' "deflate"); [auto | discriminate]. }
  assert (Hrank : forall e', (preference_rank e' < 3)%nat -> supported e' = true).
  { intros e'. unfold supported, preference_rank.
    destruct (String.eqb e' "br"); [reflexivity |].
    destruct (String.eqb e' "gzip"); [reflexivity |].
    destruct (String.eqb e' "deflate"); [reflexivity | lia]. }
  unfold ApiCompressionMiddleware.respond. split; [| split].
  - intros e body H.
    destruct (ApiCompressionMiddleware.first_usable lib level encodings content
                ["br"; "gzip"; "deflate"]%string) as [[[e0 c0] |] | err] eqn:Hf;
      cbn [rbind] in H; try discriminate.
    inversion H; subst e0 c0; clear H.
    destruct (api_first_usable_some _ _ _ _ _ _ _ Hf)
      as (Hfull & Hbody & Hacc & Hcc & l1 & l2 & Hsplit & Hl1).
    assert (Hsup : supported e = true).
    { destruct l1 as [| a [| b [| c [| d l1]]]]; inversion Hsplit; subst;
        try reflexivity; try (destruct l1; discriminate). }
    repeat split; try assumption.
    intros e' Hlt.
    assert (Hsup' : supported e' = true).
    { apply Hrank. destruct (Hcases e Hsup) as [-> | [-> | ->]]; cbn in Hlt |- *; lia. }
    rewrite Forall_forall in Hl1. apply Hl1.
    destruct l1 as [| a [| b [| c [| d l1]]]]; inversion Hsplit; subst;
      try (destruct l1; discriminate);
      destruct (Hcases e' Hsup') as [-> | [-> | ->]]; cbn in Hlt; try lia; set_solver.
  - intros body H.
    destruct (ApiCompressionMiddleware.first_usable lib level encodings content
                ["br"; "gzip"; "deflate"]%string) as [[[e0 c0] |] | err] eqn:Hf;
      cbn [rbind] in H; try discriminate.
    inversion H; subst body; clear H. split; [reflexivity |].
    intros e' Hsup'. pose proof (api_first_usable_none _ _ _ _ _ Hf) as Hall.
    rewrite Forall_forall in Hall. apply Hall.
    destruct (Hcases e' Hsup') as [-> | [-> | ->]]; set_solver.
  - intros response_started should_compress. unfold CompressionMiddleware.respond.
    rewrite first_usable_empty. destruct should_compress; reflexivity.
Qed.

(** * Further properties of the request validator *)

Section SanitizeFacts.
Import Sanitize.
Local Open Scope N_scope.

Lemma str_replace_Forall (P : N -> Prop) (old : N) (new s : text) :
  Forall P new ->
  Forall (fun c => c <> old -> P c) s ->
  Forall P (str_replace old new s).
Proof.
  intros Hnew. unfold str_replace. induction 1 as [| c s Hc Hs IH]; cbn [flat_map].
  - constructor.
  - apply Forall_app. split; [| exact IH].
    destruct (N.eqb_spec c old); [exact Hnew | repeat constructor; auto].
Qed.

Lemma Forall_weaken (P Q : N -> Prop) (l : text) :
  (forall c, P c -> Q c) -> Forall P l -> Forall Q l.
Proof. intros HPQ. induction 1; constructor; auto. Qed.

Lemma html_escape_markup_free (s : text) : Forall markup_free (html_escape s).
Proof.
  unfold html_escape.
  apply str_replace_Forall;
    [repeat constructor; unfold markup_free; cbn; lia |].
  apply Forall_weaken with (P := fun c => c <> 60 /\ c <> 62 /\ c <> 34);
    [unfold markup_free; tauto |].
  apply str_replace_Forall; [repeat constructor; cbn; lia |].
  apply Forall_weaken with (P := fun c => c <> 60 /\ c <> 62); [tauto |].
  apply str_replace_Forall; [repeat constructor; cbn; lia |].
  apply Forall_weaken with (P := fun c => c <> 60); [tauto |].
  apply str_replace_Forall; [repeat constructor; cbn; lia |].
  apply Forall_forall. tauto.
Qed.

Lemma split_aux_words (P : N -> Prop) (s w : text) :
  Forall P s ->
  Forall (fun c => P c /\ is_space c = false) w ->
  Forall (word P) (split_aux w s).
Proof.
  intros Hs. revert w. induction Hs as [| c s Hc Hs IH]; intros w Hw; cbn [split_aux].
  - destruct w as [| a w]; [constructor |].
    constructor; [split; [discriminate | exact Hw] | constructor].
  - destruct (is_space c) eqn:Hsp.
    + destruct w as [| a w].
      * apply IH. constructor.
      * constructor; [split; [discriminate | exact Hw] | apply IH; constructor].
    + apply IH. apply Forall_app. split; [exact Hw | repeat constructor; assumption].
Qed.

Lemma split_aux_run (P : N -> Prop) (w acc rest : text) :
  Forall (fun c => P c /\ is_space c = false) w ->
  split_aux acc (w ++ rest) = split_aux (acc ++ w) rest.
Proof.
  intros Hw. revert acc. induction Hw as [| c w [_ Hc] Hw IH]; intros acc.
  - cbn [app]. rewrite app_nil_r. reflexivity.
  - cbn [app split_aux]. rewrite Hc, IH, <- app_assoc. reflexivity.
Qed.

Lemma split_join (P : N -> Prop) (ws : list text) :
  Forall (word P) ws -> split (join [32] ws) = ws.
Proof.
  unfold split. induction 1 as [| w ws [Hne Hw] Hws IH]; [reflexivity |].
  cbn [join]. destruct ws as [| w' ws'].
  - rewrite <- (app_nil_r w) at 1. rewrite (split_aux_run P w [] [] Hw).
    cbn [app split_aux]. destruct w; [congruence | reflexivity].
  - rewrite (split_aux_run P w [] _ Hw). cbn [app split_aux].
    change (is_space 32) with true. cbv iota.
    rewrite IH. destruct w; [congruence | reflexivity].
Qed.

Lemma join_Forall (Q : N -> Prop) (ws : list text) :
  Q 32 -> Forall (Forall Q) ws -> Forall Q (join [32] ws).
Proof.
  intros Hsp. induction 1 as [| w ws Hw Hws IH]; [constructor |].
  cbn [join]. destruct ws as [| w' ws']; [exact Hw |].
  apply Forall_app. split; [exact Hw |]. constructor; [exact Hsp | exact IH].
Qed.

End SanitizeFacts.

(** X16 -- what [sanitize_string] lets through. Whatever the input, the
    result has no control character (code point below 32), none of the
    characters [<], [>], the double quote and the apostrophe, and no
    whitespace character other than the plain space; and normalising its
    whitespace once more leaves it unchanged, so spaces in it are single
    and stand only between words. *)
Theorem X16_sanitize_string_output (value : Sanitize.text) :
  let out := Sanitize.sanitize_string value in
  Forall (fun c => (32 <= c)%N /\ c <> 60%N /\ c <> 62%N /\ c <> 34%N /\ c <> 39%N /\
                   (Sanitize.is_space c = true -> c = 32%N)) out /\
  Sanitize.normalize_whitespace out = out.
Proof.
  cbv zeta. unfold Sanitize.sanitize_string, Sanitize.normalize_whitespace.
  set (P := fun c : N => (32 <= c)%N /\ Sanitize.markup_free c).
  assert (Hfiltered : Forall P (List.filter (fun char => (32 <=? char)%N)
                                  (Sanitize.html_escape value))).
  { pose proof (html_escape_markup_free value) as Hm.
    induction Hm as [| c l Hc Hl IH]; cbn [List.filter]; [constructor |].
    destruct (N.leb_spec 32 c); [constructor; [split; assumption | exact IH] | exact IH]. }
  assert (Hwords : Forall (Sanitize.word P)
            (Sanitize.split (List.filter (fun char => (32 <=? char)%N)
                               (Sanitize.html_escape value)))).
  { apply split_aux_words; [exact Hfiltered | constructor]. }
  split.
  - apply join_Forall.
    + repeat split; try discriminate; try lia.
    + apply Forall_forall. intros w Hin.
      rewrite Forall_forall in Hwords. destruct (Hwords w Hin) as [_ Hw].
      apply Forall_weaken with (2 := Hw).
      intros c [[Hge (H1 & H2 & H3 & H4)] Hsp]. repeat split; try assumption.
      congruence.
  - rewrite (split_join P _ Hwords). reflexivity.
Qed.

Import Validation.

Lemma code_points_single_bytes (s : string) :
  string_forallb (fun c => (N_of_ascii c <? 192)%N) s = true ->
  List.length (Utf8.code_points s) = String.length s.
Proof.
  induction s as [| c r IH]; [reflexivity |].
  cbn [string_forallb Utf8.code_points String.length]. intros H.
  apply andb_true_iff in H as [Hc Hr]. cbv zeta. rewrite Hc.
  cbn [List.length]. rewrite (IH Hr). reflexivity.
Qed.

Lemma is_alnum_single_byte (c : ascii) :
  is_alnum c = true -> (N_of_ascii c <? 192)%N = true.
Proof.
  destruct c as [[] [] [] [] [] [] [] []]; vm_compute; congruence.
Qed.

Lemma string_forallb_weaken (p q : ascii -> bool) (s : string) :
  (forall c, p c = true -> q c = true) ->
  string_forallb p s = true -> string_forallb q s = true.
Proof.
  intros Hpq. induction s as [| c r IH]; [reflexivity |].
  cbn [string_forallb]. rewrite !andb_true_iff. intros [Hc Hr]. auto.
Qed.

Lemma string_forallb_with_last (p : ascii -> bool) (c : ascii) (s : string) (n : nat) :
  String.length s = S n ->
  string_forallb p (substring 0 n s) = true ->
  substring n 1 s = String c EmptyString ->
  p c = true ->
  string_forallb p s = true.
Proof.
  intros Hlen Hinit Hlast Hc. revert n Hlen Hinit Hlast.
  induction s as [| a r IH]; intros n Hlen Hinit Hlast; [reflexivity |].
  cbn [String.length] in Hlen. injection Hlen as Hlen.
  destruct n as [| m].
  - destruct r; [| discriminate].
    cbn in Hlast. inversion Hlast; subst a. cbn [string_forallb]. rewrite Hc. reflexivity.
  - cbn [substring string_forallb] in Hinit, Hlast |- *.
    apply andb_true_iff in Hinit as [Ha Hinit]. rewrite Ha. cbn [andb].
    exact (IH m Hlen Hinit Hlast).
Qed.

Lemma matches_key_pattern_length (key : string) :
  matches_key_pattern key = true -> 35 <= Utf8.py_len key.
Proof.
  unfold matches_key_pattern.
  destruct key as [| c1 [| c2 [| c3 body]]]; try discriminate.
  rewrite !andb_true_iff. intros [[[H1 H2] H3] Hbody].
  apply Ascii.eqb_eq in H1, H2, H3. subst c1 c2 c3.
  assert (Hsmall : string_forallb (fun c => (N_of_ascii c <? 192)%N) body = true /\
                   (32 <= String.length body)%nat).
  { cbv zeta in Hbody. apply orb_true_iff in Hbody as [Hall | Hnl].
    - apply andb_true_iff in Hall as [Hall Hn]. apply Nat.leb_le in Hn.
      split; [| exact Hn].
      exact (string_forallb_weaken _ _ _ is_alnum_single_byte Hall).
    - apply andb_true_iff in Hnl as [Hnl Hlast]. apply andb_true_iff in Hnl as [Hn Hinit].
      apply Nat.leb_le in Hn. apply String.eqb_eq in Hlast. split; [| lia].
      apply (string_forallb_with_last _ "010"%char _ (String.length body - 1));
        [lia | | exact Hlast | reflexivity].
      exact (string_forallb_weaken _ _ _ is_alnum_single_byte Hinit). }
  destruct Hsmall as [Hsmall Hn].
  unfold Utf8.py_len.
  rewrite (code_points_single_bytes (String "s" (String "k" (String "-" body)))).
  - cbn [String.length]. lia.
  - cbn [string_forallb]. rewrite Hsmall. reflexivity.
Qed.

(** X17 -- the keys [validate_api_key] accepts. A key that is not empty is
    accepted exactly when it matches the pattern [sk-] followed by at least
    32 letters or digits; the length test before the pattern never decides
    an acceptance. Every accepted key has at least 35 characters, and a key
    of 32, 33 or 34 characters is always refused with the message about the
    format, not the one about the length. *)
Theorem X17_api_key_acceptance (key : string) :
  key <> EmptyString ->
  (validate_api_key (Some key) = None <-> matches_key_pattern key = true) /\
  (validate_api_key (Some key) = None -> 35 <= Utf8.py_len key) /\
  (32 <= Utf8.py_len key < 35 ->
     validate_api_key (Some key) = Some "Invalid API key format"%string).
Proof.
  intros Hne.
  assert (Htr : truthy (Some key) = Some key) by (destruct key; [congruence | reflexivity]).
  unfold validate_api_key. rewrite Htr.
  pose proof (matches_key_pattern_length key) as Hlen.
  destruct (Z.ltb_spec (Utf8.py_len key) 32) as [Hshort | Hlong];
    destruct (matches_key_pattern key) eqn:Hm; cbn [negb].
  - specialize (Hlen eq_refl). lia.
  - split; [split; discriminate |]. split; [discriminate | lia].
  - specialize (Hlen eq_refl). split; [split; reflexivity |].
    split; [intros _; exact Hlen | lia].
  - split; [split; discriminate |]. split; [discriminate | reflexivity].
Qed.

(** A key of the right shape that is two characters short of the pattern. *)
Definition key_of_33 : string := ("sk-" ++ repeat_char "a" 30)%string.

Lemma X17_api_key_acceptance_witness :
  (validate_api_key (Some key_of_33) = None <-> matches_key_pattern key_of_33 = true) /\
  (validate_api_key (Some key_of_33) = None -> 35 <= Utf8.py_len key_of_33) /\
  (32 <= Utf8.py_len key_of_33 < 35 ->
     validate_api_key (Some key_of_33) = Some "Invalid API key format"%string).
Proof.
  apply (X17_api_key_acceptance key_of_33). discriminate.
Defined.
